(** * CineMemories: media transcoding, AI gateway and photo store

    A shallow embedding of [src/services/geminiService.ts], [src/App.tsx],
    the gallery and the editor of [src/components/Gallery.tsx] and the
    slideshow and the audio panel of [src/components/Slideshow.tsx], with
    the properties of the specification, and further properties of the
    code, stated and proved over it.

    Conventions.
    - A JavaScript string is a Rocq [string]; a character is one code unit.
    - An [ArrayBuffer] / [Uint8Array] is a [list Z] of bytes; the [DataView]
      setters reduce their argument modulo the field width as the
      ECMAScript conversions [ToUint8], [ToUint16], [ToUint32] do, and a
      [RangeError] is the result [None].
    - Integer-valued JavaScript numbers are [Z]; the numbers that go through
      a division or a product with a fraction are binary64 values, modelled
      by the [spec_float] operations of the Standard Library at precision 53
      and maximal exponent 1024. *)

From Stdlib Require Import ZArith Lia Ascii String DecimalString.
From Stdlib Require Import Floats.SpecFloat.
From stdpp Require Import base list strings.

Open Scope Z_scope.

(** ** Media transcoder: PCM to WAV ([pcmToWav]) *)

Module Wav.

Abbreviation ArrayBuffer := (list Z).

Record Blob := { blob_bytes : list Z; blob_type : string }.

(** [new ArrayBuffer(n)]: [n] zero bytes. *)
Definition newArrayBuffer (n : nat) : ArrayBuffer := replicate n 0.

(** [view.setUint8(offset, value)] *)
Definition setUint8 (view : ArrayBuffer) (offset : nat) (value : Z)
  : option ArrayBuffer :=
  match view !! offset with
  | Some _ => Some (<[offset := value mod 256]> view)
  | None => None
  end.

(** [view.setUint16(offset, value, true)]: little endian. *)
Definition setUint16 (view : ArrayBuffer) (offset : nat) (value : Z)
  : option ArrayBuffer :=
  match view !! (offset + 1)%nat with
  | Some _ =>
      let v := value mod 65536 in
      Some (<[(offset + 1)%nat := v / 256]> (<[offset := v mod 256]> view))
  | None => None
  end.

(** [view.setUint32(offset, value, true)]: little endian. *)
Definition setUint32 (view : ArrayBuffer) (offset : nat) (value : Z)
  : option ArrayBuffer :=
  match view !! (offset + 3)%nat with
  | Some _ =>
      let v := value mod 4294967296 in
      Some (<[(offset + 3)%nat := v / 16777216]>
           (<[(offset + 2)%nat := (v / 65536) mod 256]>
           (<[(offset + 1)%nat := (v / 256) mod 256]>
           (<[offset := v mod 256]> view))))
  | None => None
  end.

Definition charCodeAt (c : ascii) : Z := Z.of_N (N_of_ascii c).

(** The local helper [writeString] of [pcmToWav]: one [setUint8] per
    character. *)
Fixpoint writeString (view : ArrayBuffer) (offset : nat) (s : string)
  : option ArrayBuffer :=
  match s with
  | EmptyString => Some view
  | String c rest =>
      view' ← setUint8 view offset (charCodeAt c);
      writeString view' (S offset) rest
  end.

(** [new Uint8Array(buffer, byteOffset).set(source)] *)
Definition typedArraySet (buffer : ArrayBuffer) (byteOffset : nat)
    (source : list Z) : option ArrayBuffer :=
  if decide (byteOffset + length source ≤ length buffer)%nat
  then Some (take byteOffset buffer ++ source
             ++ drop (byteOffset + length source) buffer)
  else None.

Definition pcmToWav (pcmData : list Z) (sampleRate : Z) : option Blob :=
  let numChannels := 1 in
  let byteRate := sampleRate * numChannels * 2 in
  let blockAlign := numChannels * 2 in
  let len := Z.of_nat (length pcmData) in
  let view := newArrayBuffer (44 + length pcmData) in
  view ← writeString view 0 "RIFF";
  view ← setUint32 view 4 (36 + len);
  view ← writeString view 8 "WAVE";
  view ← writeString view 12 "fmt ";
  view ← setUint32 view 16 16;
  view ← setUint16 view 20 1;
  view ← setUint16 view 22 numChannels;
  view ← setUint32 view 24 sampleRate;
  view ← setUint32 view 28 byteRate;
  view ← setUint16 view 32 blockAlign;
  view ← setUint16 view 34 16;
  view ← writeString view 36 "data";
  view ← setUint32 view 40 len;
  buffer ← typedArraySet view 44 pcmData;
  Some {| blob_bytes := buffer; blob_type := "audio/wav" |}.

(** The default argument [sampleRate = 24000], as both callers use it. *)
Definition pcmToWav_default (pcmData : list Z) : option Blob :=
  pcmToWav pcmData 24000.

(** *** Reading a header back

    [view.getUint16(offset, true)] and [view.getUint32(offset, true)], and
    the fields of the canonical 44-byte header at their offsets. *)

Definition getUint16 (view : ArrayBuffer) (offset : nat) : option Z :=
  b0 ← view !! offset;
  b1 ← view !! (offset + 1)%nat;
  Some (b0 + 256 * b1).

Definition getUint32 (view : ArrayBuffer) (offset : nat) : option Z :=
  b0 ← view !! offset;
  b1 ← view !! (offset + 1)%nat;
  b2 ← view !! (offset + 2)%nat;
  b3 ← view !! (offset + 3)%nat;
  Some (b0 + 256 * b1 + 65536 * b2 + 16777216 * b3).

Record WavHeader := {
  riffChunkSize : Z;
  fmtChunkSize : Z;
  audioFormat : Z;
  channelCount : Z;
  hdrSampleRate : Z;
  hdrByteRate : Z;
  hdrBlockAlign : Z;
  bitsPerSample : Z;
  dataChunkSize : Z
}.

Definition readWavHeader (view : ArrayBuffer) : option WavHeader :=
  riff ← getUint32 view 4;
  fmt ← getUint32 view 16;
  format ← getUint16 view 20;
  channels ← getUint16 view 22;
  rate ← getUint32 view 24;
  byteRate ← getUint32 view 28;
  align ← getUint16 view 32;
  bits ← getUint16 view 34;
  data ← getUint32 view 40;
  Some {| riffChunkSize := riff; fmtChunkSize := fmt; audioFormat := format;
          channelCount := channels; hdrSampleRate := rate;
          hdrByteRate := byteRate; hdrBlockAlign := align;
          bitsPerSample := bits; dataChunkSize := data |}.

(** The four chunk tags, read as characters. *)
Definition readTag (view : ArrayBuffer) (offset : nat) : list Z :=
  take 4 (drop offset view).

Definition tagOf (s : string) : list Z :=
  charCodeAt <$> list_ascii_of_string s.

(** The property of [pcmToWav] at one input: the container has [44 + N]
    bytes, the header fields hold the values below, and the PCM bytes follow
    unchanged from offset 44. *)
Definition pcmToWav_spec (pcmData : list Z) (sampleRate : Z) : Prop :=
  let N := Z.of_nat (length pcmData) in
  ∃ blob,
    pcmToWav pcmData sampleRate = Some blob
    ∧ length (blob_bytes blob) = (44 + length pcmData)%nat
    ∧ readWavHeader (blob_bytes blob)
      = Some {| riffChunkSize := 36 + N; fmtChunkSize := 16;
                audioFormat := 1; channelCount := 1;
                hdrSampleRate := sampleRate; hdrByteRate := sampleRate * 2;
                hdrBlockAlign := 2; bitsPerSample := 16;
                dataChunkSize := N |}
    ∧ drop 44 (blob_bytes blob) = pcmData.

(** *** The byte layout *)

Definition le16 (value : Z) : list Z :=
  let v := value mod 65536 in [v mod 256; v / 256].

Definition le32 (value : Z) : list Z :=
  let v := value mod 4294967296 in
  [v mod 256; (v / 256) mod 256; (v / 65536) mod 256; v / 16777216].

Definition wavHeader (dataLength sampleRate : Z) : list Z :=
  tagOf "RIFF" ++ le32 (36 + dataLength)
  ++ tagOf "WAVE" ++ tagOf "fmt " ++ le32 16
  ++ le16 1 ++ le16 1 ++ le32 sampleRate ++ le32 (sampleRate * 1 * 2)
  ++ le16 (1 * 2) ++ le16 16 ++ tagOf "data" ++ le32 dataLength.

End Wav.

(** ** JavaScript numbers

    A Number is an IEEE 754 binary64 value: [spec_float] at precision 53 and
    maximal exponent 1024, with the operations of the Standard Library. *)

Module Number.

Definition prec : Z := 53.
Definition emax : Z := 1024.

(** The Number of an integer (exact below [2^53]). *)
Definition ofZ (n : Z) : spec_float := binary_normalize prec emax n 0 false.

Definition mul : spec_float → spec_float → spec_float := SFmul prec emax.
Definition div : spec_float → spec_float → spec_float := SFdiv prec emax.

(** [a > b] *)
Definition gt (a b : spec_float) : bool := SFltb b a.

(** [Math.max(a, b)] and [Math.min(a, b)]: NaN if an argument is NaN, and
    [+0] counts as larger than [-0]. *)
Definition Math_max (a b : spec_float) : spec_float :=
  match SFcompare a b with
  | None => S754_nan
  | Some Lt => b
  | Some Gt => a
  | Some Eq => match a with S754_zero true => b | _ => a end
  end.

Definition Math_min (a b : spec_float) : spec_float :=
  match SFcompare a b with
  | None => S754_nan
  | Some Lt => a
  | Some Gt => b
  | Some Eq => match a with S754_zero false => b | _ => a end
  end.

(** [Math.round(x)]: the integer closest to [x], a tie going towards
    [+∞]; [-0] for [-0.5 <= x < 0]; NaN and the infinities are returned as
    they are. For a finite [x = ± m · 2^e] with [e < 0] the integer is
    [⌊(± 2 m + 2^-e) / 2^(1-e)⌋]. *)
Definition Math_round (x : spec_float) : spec_float :=
  match x with
  | S754_finite s m e =>
      if 0 <=? e then x
      else
        let n := (2 * cond_Zopp s (Zpos m) + 2 ^ (- e)) / 2 ^ (1 - e) in
        if n =? 0 then S754_zero s else ofZ n
  | _ => x
  end.

(** [Math.PI], the binary64 value nearest to π. *)
Definition Math_PI : spec_float := S754_finite false 7074237752028440 (-51).

(** The literals [0.05], [20] and [1024]. [0.05] is the binary64 value
    nearest to 1/20, [7205759403792794 · 2^-57]. *)
Definition lit_0_05 : spec_float := S754_finite false 7205759403792794 (-57).
Definition lit_20 : spec_float := ofZ 20.
Definition lit_1024 : spec_float := ofZ 1024.

#[global] Instance spec_float_eq_dec : EqDecision spec_float.
Proof. solve_decision. Defined.

End Number.

(** ** Media transcoder: the canvas geometry of [fileToGenerativePart] and
    [removeObjectAtPoint] *)

Module Canvas.
Import Number.

(** The resize rule of both functions: lines 22-30 and 288-295 of
    [geminiService.ts]. [width] and [height] are the dimensions of the
    decoded bitmap. *)
Definition resizeDimensions (width height : spec_float)
  : spec_float * spec_float :=
  let maxDimension := lit_1024 in
  if gt width maxDimension || gt height maxDimension
  then
    let scale := div maxDimension (Math_max width height) in
    (Math_round (mul width scale), Math_round (mul height scale))
  else (width, height).

Record Marker := {
  centerX : spec_float;
  centerY : spec_float;
  radius : spec_float
}.

(** The circle that [removeObjectAtPoint] draws: lines 308-312. [width] and
    [height] are the dimensions of the canvas, [x] and [y] the normalized
    coordinates of the click. *)
Definition markerAt (width height x y : spec_float) : Marker :=
  {| centerX := mul x width;
     centerY := mul y height;
     radius := Math_max lit_20 (mul (Math_min width height) lit_0_05) |}.

(** The integer value of a Number that is an integer, for reading results. *)
Definition toZ (x : spec_float) : option Z :=
  match x with
  | S754_zero _ => Some 0
  | S754_finite s m e =>
      if 0 <=? e then Some (cond_Zopp s (Zpos m) * 2 ^ e)
      else if (Zpos m mod 2 ^ (- e)) =? 0
           then Some (cond_Zopp s (Zpos m) / 2 ^ (- e))
           else None
  | _ => None
  end.

(** [Math.round] on rationals: [roundHalfUp n d] is the integer closest to
    [n / d] for [d > 0], a tie going up, that is [⌊n/d + 1/2⌋]. *)
Definition roundHalfUp (n d : Z) : Z := (2 * n + d) / (2 * d).

(** C2 as the specification states it, at one input: the output is
    [round(width * 1024 / max)] by [round(height * 1024 / max)] when the
    longer edge exceeds 1024, and the input otherwise. *)
Definition resizeRule (w h : Z) : Prop :=
  let M := Z.max w h in
  resizeDimensions (ofZ w) (ofZ h)
  = if bool_decide (1024 < M)
    then (ofZ (roundHalfUp (w * 1024) M), ofZ (roundHalfUp (h * 1024) M))
    else (ofZ w, ofZ h).

(** The exact ties below a longer edge of 100352 pixels: the bitmaps with
    longer edge [2048 j] and shorter edge [(2 k + 1) j], whose quotient is
    [k + 1/2]. [allTies tieRoundsUp] says that the resize step takes each
    of them to [k + 1]. *)
Definition tieRoundsUp (j k : Z) : bool :=
  bool_decide
    (Math_round (mul (ofZ ((2 * k + 1) * j)) (div lit_1024 (ofZ (2048 * j))))
     = ofZ (k + 1)).

Definition allTies (f : Z → Z → bool) : bool :=
  forallb (λ j, forallb (f j) (seqZ 0 1024)) (seqZ 1 48).

End Canvas.

(** ** Photo / session store ([src/types.ts], [src/App.tsx]) *)

Module Store.

Record ImageFilter := {
  brightness : Z;
  contrast : Z;
  saturation : Z;
  blur : Z;
  sepia : Z;
  grayscale : Z
}.

Record Photo := {
  id : string;
  url : string;
  originalUrl : string;
  name : string;
  category : string;
  narration : string;
  audioNarrationUrl : option string;
  filters : ImageFilter;
  rotation : Z
}.

Inductive View := gallery | editor | slideshow | audio.

#[global] Instance View_eq_dec : EqDecision View.
Proof. solve_decision. Defined.

Record AppState := {
  photos : list Photo;
  currentView : View;
  editingPhotoId : option string;
  selectedAudio : option string;
  isAudioPlaying : bool;
  audioVolume : Z
}.

(** The enumeration [ImageCategory]. *)
Definition PEOPLE : string := "People".
Definition LANDSCAPES : string := "Landscapes".
Definition ANIMALS : string := "Animals".
Definition OBJECTS : string := "Objects".
Definition INDOOR : string := "Indoor".
Definition OUTDOOR : string := "Outdoor".
Definition SELFIES : string := "Selfies".
Definition OTHERS : string := "Others".
Definition UNCATEGORIZED : string := "Uncategorized".

Definition ImageCategory_values : list string :=
  [PEOPLE; LANDSCAPES; ANIMALS; OBJECTS; INDOOR; OUTDOOR; SELFIES; OTHERS;
   UNCATEGORIZED].

Definition DEFAULT_FILTERS : ImageFilter :=
  {| brightness := 100; contrast := 100; saturation := 100;
     blur := 0; sepia := 0; grayscale := 0 |}.

(** Object spreads [{ ...p, field: v }]. *)
Definition with_url (p : Photo) (v : string) : Photo :=
  {| id := id p; url := v; originalUrl := originalUrl p; name := name p;
     category := category p; narration := narration p;
     audioNarrationUrl := audioNarrationUrl p; filters := filters p;
     rotation := rotation p |}.

Definition with_category (p : Photo) (v : string) : Photo :=
  {| id := id p; url := url p; originalUrl := originalUrl p; name := name p;
     category := v; narration := narration p;
     audioNarrationUrl := audioNarrationUrl p; filters := filters p;
     rotation := rotation p |}.

Definition with_narration (p : Photo) (v : string) : Photo :=
  {| id := id p; url := url p; originalUrl := originalUrl p; name := name p;
     category := category p; narration := v;
     audioNarrationUrl := audioNarrationUrl p; filters := filters p;
     rotation := rotation p |}.

Definition with_audioNarrationUrl (p : Photo) (v : string) : Photo :=
  {| id := id p; url := url p; originalUrl := originalUrl p; name := name p;
     category := category p; narration := narration p;
     audioNarrationUrl := Some v; filters := filters p;
     rotation := rotation p |}.

Definition with_filters (p : Photo) (v : ImageFilter) : Photo :=
  {| id := id p; url := url p; originalUrl := originalUrl p; name := name p;
     category := category p; narration := narration p;
     audioNarrationUrl := audioNarrationUrl p; filters := v;
     rotation := rotation p |}.

Definition with_rotation (p : Photo) (v : Z) : Photo :=
  {| id := id p; url := url p; originalUrl := originalUrl p; name := name p;
     category := category p; narration := narration p;
     audioNarrationUrl := audioNarrationUrl p; filters := filters p;
     rotation := v |}.

Definition with_photos (s : AppState) (v : list Photo) : AppState :=
  {| photos := v; currentView := currentView s;
     editingPhotoId := editingPhotoId s; selectedAudio := selectedAudio s;
     isAudioPlaying := isAudioPlaying s; audioVolume := audioVolume s |}.

Definition with_view (s : AppState) (v : View) (e : option string)
  : AppState :=
  {| photos := photos s; currentView := v; editingPhotoId := e;
     selectedAudio := selectedAudio s; isAudioPlaying := isAudioPlaying s;
     audioVolume := audioVolume s |}.

(** *** Array primitives *)

(** [arr.findIndex(pred)]: the first index whose element satisfies [pred],
    and [-1] when there is none. *)
Fixpoint findIndexFrom {A} (pred : A → bool) (arr : list A) (i : Z) : Z :=
  match arr with
  | [] => -1
  | x :: rest => if pred x then i else findIndexFrom pred rest (i + 1)
  end.

Definition findIndex {A} (pred : A → bool) (arr : list A) : Z :=
  findIndexFrom pred arr 0.

(** [arr.find(pred)] *)
Fixpoint find {A} (pred : A → bool) (arr : list A) : option A :=
  match arr with
  | [] => None
  | x :: rest => if pred x then Some x else find pred rest
  end.

(** [arr.splice(start, deleteCount, ...items)]: a negative [start] counts
    from the end, both arguments are clamped to the array; the result is the
    removed elements and the array after the call. *)
Definition spliceStart (len start : Z) : nat :=
  Z.to_nat (if start <? 0 then Z.max (len + start) 0 else Z.min start len).

Definition splice {A} (arr : list A) (start deleteCount : Z)
    (items : list A) : list A * list A :=
  let len := Z.of_nat (length arr) in
  let actualStart := spliceStart len start in
  let actualDeleteCount :=
    Z.to_nat (Z.min (Z.max deleteCount 0) (len - Z.of_nat actualStart)) in
  (take actualDeleteCount (drop actualStart arr),
   take actualStart arr ++ items
   ++ drop (actualStart + actualDeleteCount) arr).

Definition idIs (i : string) (p : Photo) : bool := bool_decide (id p = i).

(** *** The state updaters of [App] *)

(** [handleUpload] and [handleAddDemo]: the new photos are appended. *)
Definition appendPhotos (newPhotos : list Photo) (prev : AppState)
  : AppState :=
  with_photos prev (photos prev ++ newPhotos).

(** The updater of [processCategoriesQueue] and of [onUpdateCategory]:
    [photos.map(existing => existing.id === id ? { ...existing, category: cat }
    : existing)]. *)
Definition setCategoryById (i cat : string) (prev : AppState) : AppState :=
  with_photos prev
    ((λ existing, if idIs i existing then with_category existing cat
                  else existing) <$> photos prev).

(** [handleReorder].  The destructuring [const [movedItem] = ...] yields
    [undefined] on an empty array; the model has no such photo, and that
    case is the result [None]. *)
Definition handleReorder (fromId toId : string) (prev : AppState)
  : option AppState :=
  let photos0 := photos prev in
  let fromIndex := findIndex (idIs fromId) photos0 in
  let toIndex := findIndex (idIs toId) photos0 in
  if bool_decide (fromIndex = -1 ∨ toIndex = -1 ∨ fromIndex = toIndex)
  then Some prev
  else
    let '(removed, photos1) := splice photos0 fromIndex 1 [] in
    match removed with
    | movedItem :: _ =>
        let newToIndex := findIndex (idIs toId) photos1 in
        let '(_, photos2) := splice photos1 newToIndex 0 [movedItem] in
        Some (with_photos prev photos2)
    | [] => None
    end.

(** [saveEditedPhoto] *)
Definition saveEditedPhoto (updatedPhoto : Photo) (prev : AppState)
  : AppState :=
  with_view
    (with_photos prev
       ((λ p, if idIs (id updatedPhoto) p then updatedPhoto else p)
          <$> photos prev))
    gallery None.

(** [deletePhoto] *)
Definition deletePhoto (i : string) (prev : AppState) : AppState :=
  with_photos prev (filter (λ p, id p ≠ i) (photos prev)).

(** [handleDeleteCustomCategory]: the two updaters it issues, on the list of
    custom categories and on the state. *)
Definition deleteCustomCategory_list (cat : string) (prev : list string)
  : list string :=
  filter (λ c, c ≠ cat) prev.

Definition deleteCustomCategory_state (cat : string) (prev : AppState)
  : AppState :=
  with_photos prev
    ((λ p, if bool_decide (category p = cat)
           then with_category p UNCATEGORIZED else p) <$> photos prev).

Definition handleDeleteCustomCategory (cat : string)
    (st : list string * AppState) : list string * AppState :=
  (deleteCustomCategory_list cat st.1, deleteCustomCategory_state cat st.2).

End Store.

(** ** The user interface as a transition system

    [App] holds the session state and the custom categories; a mounted
    [ImageEditor] holds its own copy [editedPhoto] of the photo under edit.
    Every handler of [src/App.tsx] and of the editor that writes one of the
    three is an action; an action that the interface does not offer in the
    current view, or that would make the render fail, has no successor;
    an answer that reaches an editor that is closed leaves the state as it
    is.
    The values of [generateId()] and the files read come with the action:
    [Upload] and [AddDemo] append their photos for every choice of
    identifiers, [AddDemo] taking one identifier per demo entry. *)

Module Ui.
Import Store.

Record State := {
  app : AppState;
  customCategories : list string;
  editedPhoto : option Photo
}.

Inductive FilterKey :=
  | kBrightness | kContrast | kSaturation | kBlur | kSepia | kGrayscale.

Definition setFilterKey (f : ImageFilter) (key : FilterKey) (value : Z)
  : ImageFilter :=
  match key with
  | kBrightness =>
      {| brightness := value; contrast := contrast f;
         saturation := saturation f; blur := blur f; sepia := sepia f;
         grayscale := grayscale f |}
  | kContrast =>
      {| brightness := brightness f; contrast := value;
         saturation := saturation f; blur := blur f; sepia := sepia f;
         grayscale := grayscale f |}
  | kSaturation =>
      {| brightness := brightness f; contrast := contrast f;
         saturation := value; blur := blur f; sepia := sepia f;
         grayscale := grayscale f |}
  | kBlur =>
      {| brightness := brightness f; contrast := contrast f;
         saturation := saturation f; blur := value; sepia := sepia f;
         grayscale := grayscale f |}
  | kSepia =>
      {| brightness := brightness f; contrast := contrast f;
         saturation := saturation f; blur := blur f; sepia := value;
         grayscale := grayscale f |}
  | kGrayscale =>
      {| brightness := brightness f; contrast := contrast f;
         saturation := saturation f; blur := blur f; sepia := sepia f;
         grayscale := value |}
  end.

(** A string or nullable string used as a condition. *)
Definition truthy (s : option string) : bool :=
  match s with
  | Some v => negb (bool_decide (v = ""))
  | None => false
  end.

(** *** The handlers of [ImageEditor], as updates of [editedPhoto] *)

Definition updateFilter (key : FilterKey) (value : Z) (prev : Photo) : Photo :=
  with_filters prev (setFilterKey (filters prev) key value).

Definition handleRotate (prev : Photo) : Photo :=
  with_rotation prev (Z.rem (rotation prev + 90) 360).

(** [handleReset] starts again from the [photo] property of the component. *)
Definition handleReset (photo : Photo) : Photo :=
  with_rotation (with_filters photo DEFAULT_FILTERS) 0.

Definition handleAutoEnhance (prev : Photo) : Photo :=
  with_filters prev
    {| brightness := 110; contrast := 115; saturation := 120;
       blur := 0; sepia := 0; grayscale := 0 |}.

Inductive Preset := pNone | pGrayscale | pSepia | pWarm | pCool.

Definition applyPreset (style : Preset) (photo prev : Photo) : Photo :=
  match style with
  | pNone => handleReset photo
  | pGrayscale =>
      with_filters prev
        (setFilterKey (setFilterKey (filters prev) kGrayscale 100) kSepia 0)
  | pSepia =>
      with_filters prev
        (setFilterKey (setFilterKey (filters prev) kSepia 100) kGrayscale 0)
  | pWarm =>
      with_filters prev
        (setFilterKey (setFilterKey (filters prev) kBrightness 110) kSepia 30)
  | pCool =>
      with_filters prev
        (setFilterKey (setFilterKey (filters prev) kContrast 120)
           kBrightness 90)
  end.

(** [handleAINarration], once [generateAutoNarration] has answered. *)
Definition narrationResolved (text : string) (prev : Photo) : Photo :=
  with_narration prev text.

(** [handleGenerateSpeech], once [generateSpeech] has answered. *)
Definition speechResolved (audioUrl : option string) (prev : Photo) : Photo :=
  match audioUrl with
  | Some u => if truthy audioUrl then with_audioNarrationUrl prev u else prev
  | None => prev
  end.

(** [handleStylize], [handleRemoveObject] and [handleImageClick], once
    [stylizeImage], [removeObject] or [removeObjectAtPoint] has answered. *)
Definition imageResolved (newImageUrl : option string) (prev : Photo) : Photo :=
  match newImageUrl with
  | Some u => if truthy newImageUrl then with_url prev u else prev
  | None => prev
  end.

Definition newline : string := String (ascii_of_nat 10) EmptyString.

(** [handleTranscribe], once [transcribeAudio] has answered. *)
Definition transcribeResolved (text : string) (prev : Photo) : Photo :=
  if truthy (Some text)
  then with_narration prev
         (if truthy (Some (narration prev))
          then narration prev +:+ newline +:+ text else text)
  else prev.

(** [mediaRecorder.onstop] *)
Definition recordingStopped (audioUrl : string) (prev : Photo) : Photo :=
  with_audioNarrationUrl prev audioUrl.

Inductive EditorOp :=
  | UpdateFilter (key : FilterKey) (value : Z)
  | Rotate
  | Reset
  | AutoEnhance
  | ChoosePreset (style : Preset)
  | TypeNarration (text : string)
  | NarrationResolved (text : string)
  | SpeechResolved (audioUrl : option string)
  | StylizeResolved (newImageUrl : option string)
  | RemoveObjectResolved (newImageUrl : option string)
  | RemoveObjectAtPointResolved (newImageUrl : option string)
  | TranscribeResolved (text : string)
  | RecordingStopped (audioUrl : string).

(** One editor handler; [photo] is the property of the component, the photo
    of the store that [editingPhotoId] names. *)
Definition editorStep (op : EditorOp) (photo prev : Photo) : Photo :=
  match op with
  | UpdateFilter key value => updateFilter key value prev
  | Rotate => handleRotate prev
  | Reset => handleReset photo
  | AutoEnhance => handleAutoEnhance prev
  | ChoosePreset style => applyPreset style photo prev
  | TypeNarration text => with_narration prev text
  | NarrationResolved text => narrationResolved text prev
  | SpeechResolved audioUrl => speechResolved audioUrl prev
  | StylizeResolved newImageUrl => imageResolved newImageUrl prev
  | RemoveObjectResolved newImageUrl => imageResolved newImageUrl prev
  | RemoveObjectAtPointResolved newImageUrl => imageResolved newImageUrl prev
  | TranscribeResolved text => transcribeResolved text prev
  | RecordingStopped audioUrl => recordingStopped audioUrl prev
  end.

(** The handlers that run when an awaited call or the recorder answers.
    The answer can come after the editor was closed; the component is then
    unmounted and its state setters change nothing. *)
Definition isResolution (op : EditorOp) : bool :=
  match op with
  | NarrationResolved _ | SpeechResolved _ | StylizeResolved _
  | RemoveObjectResolved _ | RemoveObjectAtPointResolved _
  | TranscribeResolved _ | RecordingStopped _ => true
  | _ => false
  end.

(** *** Creation of photos *)

(** The photo that [handleUpload] builds for one file: [i] is the value of
    [generateId()], [u] the data URL read from the file. *)
Definition uploadedPhoto (f : string * string * string) : Photo :=
  let '(i, u, fileName) := f in
  {| id := i; url := u; originalUrl := u; name := fileName;
     category := UNCATEGORIZED; narration := ""; audioNarrationUrl := None;
     filters := DEFAULT_FILTERS; rotation := 0 |}.

Definition demoData : list (string * string * string) :=
  [
   ("https://images.unsplash.com/photo-1534528741775-53994a69daeb?w=800&q=80",
    PEOPLE,
    "In the quiet moments of the afternoon, her gaze held a thousand unspoken stories, reflecting a wisdom far beyond her years.");
   ("https://images.unsplash.com/photo-1506794778202-cad84cf45f1d?w=800&q=80",
    PEOPLE,
    "A rugged determination etched into his features, marking the end of a long journey and the beginning of a legacy.");
   ("https://images.unsplash.com/photo-1470071459604-3b5ec3a7fe05?w=800&q=80",
    LANDSCAPES,
    "The mist rolled over the hills like a soft blanket, whispering secrets to the ancient trees that stood guard over the valley.");
   ("https://images.unsplash.com/photo-1507003211169-0a1dd7228f2d?w=800&q=80",
    PEOPLE,
    "His laughter echoed through the city streets, a candid moment of pure joy caught in the golden hour light.");
   ("https://images.unsplash.com/photo-1500648767791-00dcc994a43e?w=800&q=80",
    PEOPLE,
    "With the wind in his hair and the horizon ahead, he knew that this was the freedom he had always been searching for.");
   ("https://images.unsplash.com/photo-1441974231531-c6227db76b6e?w=800&q=80",
    LANDSCAPES,
    "Sunlight pierced through the dense canopy, illuminating the forest floor in a dance of shadows and emerald light.");
   ("https://images.unsplash.com/photo-1544005313-94ddf0286df2?w=800&q=80",
    PEOPLE,
    "There is a quiet strength in her eyes, a resilience built from storms weathered and sunrises witnessed.");
   ("https://images.unsplash.com/photo-1501785888041-af3ef285b470?w=800&q=80",
    LANDSCAPES,
    "The ocean crashed against the cliffs with a rhythmic lullaby, reminding us of the timeless power of the tides.");
   ("https://images.unsplash.com/photo-1531746020798-e6953c6e8e04?w=800&q=80",
    PEOPLE,
    "Caught in a moment of reflection, she found peace amidst the chaos of the bustling world around her.");
   ("https://images.unsplash.com/photo-1494790108377-be9c29b29330?w=800&q=80",
    PEOPLE,
    "A smile that could light up the darkest room, carrying the warmth of summer wherever she went.")
  ].

Definition decimal (n : nat) : string :=
  NilEmpty.string_of_uint (Nat.to_uint n).

(** The photos of [handleAddDemo]; [ids] are the values of [generateId()],
    one per entry. *)
Definition demoPhotos (ids : list string) : list Photo :=
  imap (λ i '(item, newId),
          let '(u, cat, text) := item in
          {| id := newId; url := u; originalUrl := u;
             name := "Demo Photo " +:+ decimal (i + 1);
             category := cat; narration := text; audioNarrationUrl := None;
             filters := DEFAULT_FILTERS; rotation := 0 |})
       (zip demoData ids).

(** *** Actions *)

Inductive Action :=
  | Upload (files : list (string * string * string))
  | AddDemo (ids : list string)
  | CategoryResolved (i cat : string)
  | Reorder (fromId toId : string)
  | EditPhoto (i : string)
  | UpdateCategory (i cat : string)
  | DeletePhoto (i : string)
  | AddCustomCategory (c : string)
  | DeleteCustomCategory (c : string)
  | StartSlideshow
  | CloseSlideshow
  | SelectAudio (audioUrl : string)
  | SetVolume (v : Z)
  | Save
  | Cancel
  | InEditor (op : EditorOp).

Definition with_app (s : State) (a : AppState) : State :=
  {| app := a; customCategories := customCategories s;
     editedPhoto := editedPhoto s |}.

(** The editor is rendered when [currentView === 'editor'] and
    [editingPhotoId] is truthy; it starts from a copy of the photo that
    [find] returns, and the render fails when there is none. *)
Definition mountEditor (a : AppState) : option (option Photo) :=
  match currentView a with
  | editor =>
      if truthy (editingPhotoId a)
      then p ← find (idIs (default "" (editingPhotoId a))) (photos a);
           Some (Some p)
      else Some None
  | _ => Some None
  end.

(** The identifiers [ids] are not in use: they differ from each other,
    from those of the photos of the store and from that of the photo under
    edit. [generateId()] returns a random text and checks nothing: the
    handlers append the new photos whether their identifiers are in use or
    not, and this condition appears as a hypothesis where a property needs
    it. *)
Definition freshIds (ids : list string) (s : State) : Prop :=
  NoDup ids
  ∧ Forall (λ i, (i ∉ id <$> photos (app s))
                 ∧ editingPhotoId (app s) ≠ Some i) ids.

Definition inGallery (s : State) : Prop := currentView (app s) = gallery.

#[global] Instance freshIds_dec ids s : Decision (freshIds ids s).
Proof. unfold freshIds. apply _. Defined.

#[global] Instance inGallery_dec s : Decision (inGallery s).
Proof. unfold inGallery. apply _. Defined.

Definition step (act : Action) (s : State) : option State :=
  match act with
  | Upload files =>
      Some (with_app s (appendPhotos (uploadedPhoto <$> files) (app s)))
  | AddDemo ids =>
      if decide (length ids = length demoData)
      then Some (with_app s (appendPhotos (demoPhotos ids) (app s)))
      else None
  | CategoryResolved i cat =>
      Some (with_app s (setCategoryById i cat (app s)))
  | Reorder fromId toId =>
      if decide (inGallery s)
      then a ← handleReorder fromId toId (app s); Some (with_app s a)
      else None
  | EditPhoto i =>
      if decide (inGallery s ∧ i ∈ id <$> photos (app s))
      then
        let a := with_view (app s) editor (Some i) in
        e ← mountEditor a;
        Some {| app := a; customCategories := customCategories s;
                editedPhoto := e |}
      else None
  | UpdateCategory i cat =>
      if decide (inGallery s)
      then Some (with_app s (setCategoryById i cat (app s)))
      else None
  | DeletePhoto i =>
      if decide (inGallery s)
      then Some (with_app s (deletePhoto i (app s)))
      else None
  | AddCustomCategory c =>
      if decide (inGallery s)
      then Some {| app := app s;
                   customCategories := customCategories s ++ [c];
                   editedPhoto := editedPhoto s |}
      else None
  | DeleteCustomCategory c =>
      if decide (inGallery s)
      then
        let '(cats, a) :=
          handleDeleteCustomCategory c (customCategories s, app s) in
        Some {| app := a; customCategories := cats;
                editedPhoto := editedPhoto s |}
      else None
  | StartSlideshow =>
      if decide (photos (app s) ≠ [])
      then Some {| app := with_view (app s) slideshow
                            (editingPhotoId (app s));
                   customCategories := customCategories s;
                   editedPhoto := None |}
      else None
  | CloseSlideshow =>
      if decide (currentView (app s) = slideshow)
      then
        Some {| app := with_view (app s) gallery (editingPhotoId (app s));
                customCategories := customCategories s;
                editedPhoto := None |}
      else None
  | SelectAudio audioUrl =>
      Some (with_app s
              {| photos := photos (app s);
                 currentView := currentView (app s);
                 editingPhotoId := editingPhotoId (app s);
                 selectedAudio := Some audioUrl;
                 isAudioPlaying := isAudioPlaying (app s);
                 audioVolume := audioVolume (app s) |})
  | SetVolume v =>
      Some (with_app s
              {| photos := photos (app s);
                 currentView := currentView (app s);
                 editingPhotoId := editingPhotoId (app s);
                 selectedAudio := selectedAudio (app s);
                 isAudioPlaying := isAudioPlaying (app s);
                 audioVolume := v |})
  | Save =>
      e ← editedPhoto s;
      Some {| app := saveEditedPhoto e (app s);
              customCategories := customCategories s;
              editedPhoto := None |}
  | Cancel =>
      _ ← editedPhoto s;
      Some {| app := with_view (app s) gallery None;
              customCategories := customCategories s;
              editedPhoto := None |}
  | InEditor op =>
      match editedPhoto s with
      | Some e =>
          i ← editingPhotoId (app s);
          photo ← find (idIs i) (photos (app s));
          Some {| app := app s; customCategories := customCategories s;
                  editedPhoto := Some (editorStep op photo e) |}
      | None => if isResolution op then Some s else None
      end
  end.

Fixpoint run (acts : list Action) (s : State) : option State :=
  match acts with
  | [] => Some s
  | act :: rest => s' ← step act s; run rest s'
  end.

(** The state in which [App] starts with an empty store. *)
Definition initial : State :=
  {| app := {| photos := []; currentView := gallery;
               editingPhotoId := None;
               selectedAudio :=
                 Some "https://freepd.com/music/A%20New%20Beginning.mp3";
               isAudioPlaying := false; audioVolume := 50 |};
     customCategories := []; editedPhoto := None |}.

(** Well-formed states: identifiers are unique, and a mounted editor is
    the one of the photo that [editingPhotoId] names, in the editor view,
    with the original image of that photo. *)
Definition wf (s : State) : Prop :=
  NoDup (id <$> photos (app s))
  ∧ ∀ e, editedPhoto s = Some e →
      currentView (app s) = editor
      ∧ editingPhotoId (app s) = Some (id e)
      ∧ ∃ p, p ∈ photos (app s) ∧ id p = id e
             ∧ originalUrl p = originalUrl e.

(** The identifiers that an action takes from [generateId()]. *)
Definition drawnIds (act : Action) : list string :=
  match act with
  | Upload files => files.*1.*1
  | AddDemo ids => ids
  | _ => []
  end.

(** The editor and the store agree. A mounted editor is in the editor
    view, for the photo that [editingPhotoId] names, whose identifier is
    truthy; [find] returns a photo of the store for that identifier, with
    the original image of the copy of the editor. And where [App] renders
    the editor (the editor view with a truthy [editingPhotoId]), an editor
    is mounted. Identifiers need not be unique. *)
Definition consistent (s : State) : Prop :=
  (∀ e, editedPhoto s = Some e →
     currentView (app s) = editor
     ∧ editingPhotoId (app s) = Some (id e)
     ∧ id e ≠ ""
     ∧ ∃ p, find (idIs (id e)) (photos (app s)) = Some p
            ∧ originalUrl p = originalUrl e)
  ∧ (currentView (app s) = editor →
     truthy (editingPhotoId (app s)) = true →
     is_Some (editedPhoto s)).

(** The photos with the identifier [i], in the store and in the editor,
    have the original image [o], and the store has such a photo. *)
Definition keepsOriginal (i o : string) (s : State) : Prop :=
  i ∈ id <$> photos (app s)
  ∧ (∀ q, q ∈ photos (app s) → id q = i → originalUrl q = o)
  ∧ (∀ e, editedPhoto s = Some e → id e = i → originalUrl e = o).

(** The actions that leave every photo of the store at its position: all
    but [Reorder] and [DeletePhoto]. *)
Definition keepsPosition (act : Action) : bool :=
  match act with
  | Reorder _ _ | DeletePhoto _ => false
  | _ => true
  end.

(** C9 as the specification states it, with no condition on the
    identifiers, for the sequences of actions that keep the positions: the
    photo at a position of the store keeps its original image. *)
Definition originalUrlFixed : Prop :=
  ∀ (acts : list Action) (s s' : State) (k : nat) (p p' : Photo),
    forallb keepsPosition acts = true →
    run acts s = Some s' →
    photos (app s) !! k = Some p →
    photos (app s') !! k = Some p' →
    originalUrl p' = originalUrl p.

(** Two uploads for which [generateId()] returned the same text. *)
Definition twinUploads : list Action :=
  [ Upload [("k3j9x0q1z", "data:image/jpeg;base64,AAAA", "beach.jpg")];
    Upload [("k3j9x0q1z", "data:image/jpeg;base64,BBBB", "hill.jpg")] ].

(** A sample session: one uploaded photo, stylized in the editor, saved,
    categorized by the queue and moved. *)
Definition samplePhoto : Photo :=
  uploadedPhoto ("k3j9x0q1z", "data:image/jpeg;base64,AAAA", "beach.jpg").

Definition sampleState : State :=
  with_app initial (appendPhotos [samplePhoto] (app initial)).

Definition sampleSession : list Action :=
  [ Upload [("p0o9i8u7y", "data:image/jpeg;base64,BBBB", "hill.jpg")];
    EditPhoto "k3j9x0q1z";
    InEditor Rotate;
    InEditor (StylizeResolved (Some "data:image/png;base64,CCCC"));
    CategoryResolved "k3j9x0q1z" "Landscapes";
    InEditor Reset;
    InEditor (RemoveObjectAtPointResolved (Some "data:image/png;base64,DDDD"));
    Save;
    Reorder "k3j9x0q1z" "p0o9i8u7y";
    DeletePhoto "p0o9i8u7y" ].

End Ui.

(** ** AI gateway ([src/services/geminiService.ts])

    The functions of the gateway act on the outside world: they fetch,
    decode images, draw on a canvas, call the remote model and write to the
    console. Each such action is an event of a log; what the world answers
    may depend on everything that happened before, and is given by a
    [World]. A computation takes the log so far and returns a value or a
    thrown error together with the extended log. *)

Module Gateway.
Import Number Canvas.

(** *** Values *)

Inductive JsValue := VUndefined | VNumber (n : Z) | VString (s : string).

(** An error object, as far as [handleGeminiError] looks at it. *)
Record JsError := {
  err_status : JsValue;
  err_code : JsValue;
  err_message : option string
}.

Inductive Result (A : Type) :=
  | Ok (a : A)
  | Throw (e : JsError).
Arguments Ok {A} a.
Arguments Throw {A} e.

Record InlineData := { mimeType : string; data : option string }.

Inductive Part :=
  | PartInlineData (d : InlineData)
  | PartText (text : string).

(** A request to [ai.models.generateContent]; [voiceName] is present when
    the request asks for the audio modality. *)
Record Request := {
  model : string;
  parts : list Part;
  voiceName : option string
}.

(** A response, with the optional fields that the code chains through. *)
Record ResponseInline := { r_data : option string }.
Record ResponsePart := { r_inlineData : option ResponseInline }.
Record Content := { r_parts : option (list ResponsePart) }.
Record Candidate := { r_content : option Content }.
Record Response := {
  r_text : option string;
  r_candidates : option (list Candidate)
}.

Record FetchedBlob := { fb_type : string; fb_id : Z }.

Record ImageBitmap := { bitmap_width : Z; bitmap_height : Z }.

(** *** Events *)

Inductive Event :=
  | EvFetch (url : string)
  | EvCreateImageBitmap (blob : FetchedBlob)
  | EvReadAsDataURL (blob : FetchedBlob)
  | EvCanvas (width height : spec_float)
  | EvGetContext
  | EvDrawImage (width height : spec_float)
  | EvArc (x y r startAngle endAngle : spec_float)
  | EvFill (fillStyle : string)
  | EvToDataURL (type : string) (qualityPercent : Z)
  | EvGenerateContent (request : Request)
  | EvCreateObjectURL (blob : Wav.Blob)
  | EvConsoleError (message : string)
  | EvConsoleWarn (message : string)
  | EvSetCategory (photoId category : string)
  | EvSleep (milliseconds : Z).

(** The events that go to the transport. *)
Definition isNetworkCall (ev : Event) : bool :=
  match ev with
  | EvFetch _ | EvGenerateContent _ => true
  | _ => false
  end.

Definition networkCalls (log : list Event) : list Event :=
  List.filter isNetworkCall log.

Record World := {
  w_fetch : list Event → string → Result FetchedBlob;
  w_createImageBitmap : list Event → FetchedBlob → Result ImageBitmap;
  w_readAsDataURL : list Event → FetchedBlob → Result string;
  w_getContext : list Event → bool;
  w_toDataURL : list Event → Result string;
  w_generateContent : list Event → Request → Result Response;
  w_atob : string → Result string;
  w_createObjectURL : list Event → Wav.Blob → string
}.

(** *** Computations *)

Definition M (A : Type) : Type := list Event → Result A * list Event.

Definition ret {A} (a : A) : M A := λ log, (Ok a, log).

Definition bind {A B} (m : M A) (k : A → M B) : M B :=
  λ log,
    match m log with
    | (Ok a, log') => k a log'
    | (Throw e, log') => (Throw e, log')
    end.

Definition throw {A} (e : JsError) : M A := λ log, (Throw e, log).

(** [try { body } catch (error) { handler(error) }] *)
Definition tryCatch {A} (body : M A) (handler : JsError → M A) : M A :=
  λ log,
    match body log with
    | (Ok a, log') => (Ok a, log')
    | (Throw e, log') => handler e log'
    end.

(** An action on the world: the answer is a function of the log so far,
    and the event goes to the log. *)
Definition perform {A} (ev : Event) (answer : list Event → Result A) : M A :=
  λ log, (answer log, log ++ [ev]).

Definition emit (ev : Event) : M unit := perform ev (λ _, Ok tt).

Definition lift {A} (r : Result A) : M A := λ log, (r, log).

Notation "'let*' x := m 'in' k" := (bind m (λ x, k))
  (at level 10, x pattern, k at level 200).

(** *** Strings *)

(** White space and line terminators of ECMAScript among the code units
    below 256. *)
Definition isWhiteSpace (c : ascii) : bool :=
  let n := N_of_ascii c in
  ((9 <=? n)%N && (n <=? 13)%N) || (n =? 32)%N || (n =? 160)%N.

Fixpoint trimStart (s : string) : string :=
  match s with
  | String c rest => if isWhiteSpace c then trimStart rest else s
  | EmptyString => EmptyString
  end.

Definition reverse_string (s : string) : string :=
  string_of_list_ascii (rev (list_ascii_of_string s)).

(** [s.trim()] *)
Definition trim (s : string) : string :=
  reverse_string (trimStart (reverse_string (trimStart s))).

(** [String.prototype.trim] on a sequence of code units of any size: the
    code points of WhiteSpace and LineTerminator of ECMAScript. [trim]
    above is this function on the texts whose code units are below 256. *)
Definition isWhiteSpaceUnit (n : N) : bool :=
  (((9 <=? n) && (n <=? 13)) || (n =? 32) || (n =? 160) || (n =? 5760)
   || ((8192 <=? n) && (n <=? 8202)) || (n =? 8232) || (n =? 8233)
   || (n =? 8239) || (n =? 8287) || (n =? 12288) || (n =? 65279))%N.

Fixpoint trimStartUnits (s : list N) : list N :=
  match s with
  | c :: rest => if isWhiteSpaceUnit c then trimStartUnits rest else s
  | [] => []
  end.

Definition trimUnits (s : list N) : list N :=
  rev (trimStartUnits (rev (trimStartUnits s))).

Definition codeUnits (s : string) : list N :=
  N_of_ascii <$> list_ascii_of_string s.

Fixpoint startsWith (p s : string) : bool :=
  match p, s with
  | EmptyString, _ => true
  | String a p', String b s' => bool_decide (a = b) && startsWith p' s'
  | String _ _, EmptyString => false
  end.

(** [s.includes(p)] *)
Fixpoint includes (p s : string) : bool :=
  startsWith p s
  || match s with
     | EmptyString => false
     | String _ s' => includes p s'
     end.

(** [s.split(',')[1]]: the text between the first and the second comma. *)
Fixpoint untilComma (s : string) : string :=
  match s with
  | EmptyString => EmptyString
  | String c rest =>
      if bool_decide (c = ","%char) then EmptyString
      else String c (untilComma rest)
  end.

Fixpoint splitComma1 (s : string) : option string :=
  match s with
  | EmptyString => None
  | String c rest =>
      if bool_decide (c = ","%char) then Some (untilComma rest)
      else splitComma1 rest
  end.

(** A string used as a condition. *)
Definition nonEmpty (s : string) : bool := negb (bool_decide (s = "")).

(** [a || b] on strings, with [a] possibly undefined. *)
Definition orElse (a : option string) (b : string) : string :=
  match a with
  | Some s => if nonEmpty s then s else b
  | None => b
  end.

Section Functions.

(** [process.env.API_KEY || ''] and the world of the session. *)
Variable API_KEY : string.
Variable W : World.

Definition fetchBlob (url : string) : M FetchedBlob :=
  perform (EvFetch url) (λ log, w_fetch W log url).

(** The canvas of both image paths: created with the resized dimensions,
    with the bitmap drawn over all of it. [None] is the early [return null]
    for a missing 2D context. *)
Definition drawResized (bitmap : ImageBitmap)
  : M (option (spec_float * spec_float)) :=
  let '(width, height) :=
    resizeDimensions (ofZ (bitmap_width bitmap))
                     (ofZ (bitmap_height bitmap)) in
  let* _ := emit (EvCanvas width height) in
  let* ctx := perform EvGetContext (λ log, Ok (w_getContext W log)) in
  if ctx : bool
  then let* _ := emit (EvDrawImage width height) in
       ret (Some (width, height))
  else ret None.

Definition toDataURL (type : string) (qualityPercent : Z) : M string :=
  perform (EvToDataURL type qualityPercent) (λ log, w_toDataURL W log).

Definition fileToGenerativePart (url : string) : M (option InlineData) :=
  tryCatch
    (let* blob := fetchBlob url in
     let* imageBitmap :=
       perform (EvCreateImageBitmap blob)
               (λ log, w_createImageBitmap W log blob) in
     let* canvas := drawResized imageBitmap in
     match canvas with
     | None => ret None
     | Some _ =>
         let* base64Url := toDataURL "image/jpeg" 80 in
         ret (Some {| mimeType := "image/jpeg";
                      data := splitComma1 base64Url |})
     end)
    (λ error,
       let* _ := emit (EvConsoleError "Error processing image for Gemini:") in
       ret None).

Definition audioToGenerativePart (url : string) : M (option InlineData) :=
  tryCatch
    (let* blob := fetchBlob url in
     let* base64String :=
       perform (EvReadAsDataURL blob) (λ log, w_readAsDataURL W log blob) in
     ret (Some {| mimeType := orElse (Some (fb_type blob)) "audio/wav";
                  data := splitComma1 base64String |}))
    (λ error,
       let* _ := emit (EvConsoleError "Error processing audio for Gemini:") in
       ret None).

Definition messageIncludes (e : JsError) (p : string) : bool :=
  match err_message e with
  | Some m => includes p m
  | None => false
  end.

Definition isQuotaError (e : JsError) : bool :=
  match err_status e with VNumber 429 => true | _ => false end
  || match err_code e with VNumber 429 => true | _ => false end
  || messageIncludes e "429"
  || messageIncludes e "quota"
  || match err_status e with
     | VString s => bool_decide (s = "RESOURCE_EXHAUSTED")
     | _ => false
     end.

Definition handleGeminiError (error : JsError) (context : string) : M unit :=
  if isQuotaError error
  then emit (EvConsoleWarn
               ("Gemini API Quota Exceeded during " +:+ context
                +:+ ". Using fallback."))
  else emit (EvConsoleError ("Gemini " +:+ context +:+ " failed:")).

Definition generateContent (request : Request) : M Response :=
  perform (EvGenerateContent request)
          (λ log, w_generateContent W log request).

Definition mediaRequest (modelName : string) (media : InlineData)
    (prompt : string) : Request :=
  {| model := modelName;
     parts := [PartInlineData media; PartText prompt];
     voiceName := None |}.

Definition trimmedText (response : Response) : option string :=
  trim <$> r_text response.

Definition suggestCategory (photoUrl : string) : M string :=
  if negb (nonEmpty API_KEY) then ret "Uncategorized"
  else
    tryCatch
      (let* imageData := fileToGenerativePart photoUrl in
       match imageData with
       | None => ret "Uncategorized"
       | Some imageData =>
           let* response :=
             generateContent
               (mediaRequest "gemini-2.5-flash" imageData
                  "Analyze this image and categorize it into exactly one of these categories: People, Landscapes, Animals, Objects, Indoor, Outdoor, Selfies. Return ONLY the category name.") in
           ret (orElse (trimmedText response) "Uncategorized")
       end)
      (λ error,
         let* _ := handleGeminiError error "categorization" in
         ret "Uncategorized").

Definition generateAutoNarration (photoUrl tone : string) : M string :=
  if negb (nonEmpty API_KEY)
  then ret "API Key missing. Please provide a description manually."
  else
    tryCatch
      (let* imageData := fileToGenerativePart photoUrl in
       match imageData with
       | None => ret "Could not process image."
       | Some imageData =>
           let prompt :=
             "Write a short, engaging caption (under 20 words) for this photo. Tone: "
             +:+ tone +:+ "." in
           let* response :=
             generateContent
               (mediaRequest "gemini-2.5-flash" imageData prompt) in
           ret (orElse (trimmedText response) "")
       end)
      (λ error,
         let* _ := handleGeminiError error "narration" in
         ret "Could not generate narration.").

Definition transcribeAudio (audioUrl : string) : M string :=
  if negb (nonEmpty API_KEY) then ret "API Key missing."
  else
    tryCatch
      (let* audioData := audioToGenerativePart audioUrl in
       match audioData with
       | None => ret "Could not process audio data."
       | Some audioData =>
           let* response :=
             generateContent
               (mediaRequest "gemini-2.5-flash" audioData
                  "Transcribe the spoken audio into text. Return only the transcription text, no other commentary.") in
           ret (orElse (trimmedText response) "")
       end)
      (λ error,
         let* _ := handleGeminiError error "transcription" in
         ret "").

(** [response.candidates?.[0]?.content?.parts] *)
Definition firstCandidateParts (response : Response)
  : option (list ResponsePart) :=
  candidates ← r_candidates response;
  candidate ← head candidates;
  content ← r_content candidate;
  r_parts content.

(** The loop over the parts: the first part with inline data that is not
    empty gives the image. *)
Fixpoint firstInlineImage (ps : list ResponsePart) : option string :=
  match ps with
  | [] => None
  | part :: rest =>
      match r_inlineData part ≫= r_data with
      | Some d =>
          if nonEmpty d then Some ("data:image/png;base64," +:+ d)
          else firstInlineImage rest
      | None => firstInlineImage rest
      end
  end.

Definition imageOfResponse (response : Response) : option string :=
  match firstCandidateParts response with
  | Some ps => firstInlineImage ps
  | None => None
  end.

Definition stylizeImage (photoUrl style : string) : M (option string) :=
  if negb (nonEmpty API_KEY)
  then let* _ := emit (EvConsoleError "API Key missing") in ret None
  else
    tryCatch
      (let* imageData := fileToGenerativePart photoUrl in
       match imageData with
       | None => ret None
       | Some imageData =>
           let* response :=
             generateContent
               (mediaRequest "gemini-2.5-flash-image" imageData
                  ("Redraw this image in a " +:+ style
                   +:+ " style. Maintain the original composition and subject matter. High quality, detailed.")) in
           ret (imageOfResponse response)
       end)
      (λ error,
         let* _ := handleGeminiError error "stylization" in
         ret None).

Definition removeObject (photoUrl objectDescription : string)
  : M (option string) :=
  if negb (nonEmpty API_KEY)
  then let* _ := emit (EvConsoleError "API Key missing") in ret None
  else
    tryCatch
      (let* imageData := fileToGenerativePart photoUrl in
       match imageData with
       | None => ret None
       | Some imageData =>
           let* response :=
             generateContent
               (mediaRequest "gemini-2.5-flash-image" imageData
                  ("Remove the " +:+ objectDescription
                   +:+ " from this image. Fill in the background naturally to match the surroundings.")) in
           ret (imageOfResponse response)
       end)
      (λ error,
         let* _ := handleGeminiError error "object removal" in
         ret None).

(** Step 3 of [removeObjectAtPoint]: the red circle. *)
Definition drawMarker (width height x y : spec_float) : M unit :=
  let m := markerAt width height x y in
  let* _ :=
    emit (EvArc (centerX m) (centerY m) (radius m) (ofZ 0)
            (mul (ofZ 2) Math_PI)) in
  emit (EvFill "#FF0000").

Definition removeObjectAtPoint (photoUrl : string) (x y : spec_float)
  : M (option string) :=
  if negb (nonEmpty API_KEY)
  then let* _ := emit (EvConsoleError "API Key missing") in ret None
  else
    tryCatch
      (let* blob := fetchBlob photoUrl in
       let* imageBitmap :=
         perform (EvCreateImageBitmap blob)
                 (λ log, w_createImageBitmap W log blob) in
       let* canvas := drawResized imageBitmap in
       match canvas with
       | None => ret None
       | Some (width, height) =>
           let* _ := drawMarker width height x y in
           let* base64Url := toDataURL "image/jpeg" 85 in
           let* apiResponse :=
             generateContent
               (mediaRequest "gemini-2.5-flash-image"
                  {| mimeType := "image/jpeg";
                     data := splitComma1 base64Url |}
                  "Remove the object covered by the red circle and the red circle itself. Fill in the background naturally to match the surroundings.") in
           ret (imageOfResponse apiResponse)
       end)
      (λ error,
         let* _ := handleGeminiError error "object removal at point" in
         ret None).

(** [response.candidates?.[0]?.content?.parts?.[0]?.inlineData?.data] *)
Definition firstInlineAudio (response : Response) : option string :=
  ps ← firstCandidateParts response;
  part ← head ps;
  inline ← r_inlineData part;
  r_data inline.

Definition audioRequest (prompt voice : string) : Request :=
  {| model := "gemini-2.5-flash-preview-tts";
     parts := [PartText prompt];
     voiceName := Some voice |}.

(** The decoding of the audio of a response into an object URL of a WAV
    blob, shared by [generateSpeech] and [generateAiTrack]. [None] stands
    for the [return null] that follows the [if (base64Audio)]. *)
Definition audioUrlOfResponse (response : Response) : M (option string) :=
  match firstInlineAudio response with
  | Some base64Audio =>
      if nonEmpty base64Audio
      then
        let* binaryString := lift (w_atob W base64Audio) in
        let bytes := Wav.charCodeAt <$> list_ascii_of_string binaryString in
        match Wav.pcmToWav_default bytes with
        | Some wavBlob =>
            let* u :=
              perform (EvCreateObjectURL wavBlob)
                      (λ log, Ok (w_createObjectURL W log wavBlob)) in
            ret (Some u)
        | None =>
            throw {| err_status := VUndefined; err_code := VUndefined;
                     err_message := Some "RangeError" |}
        end
      else ret None
  | None => ret None
  end.

Definition generateSpeech (text : string) : M (option string) :=
  if negb (nonEmpty API_KEY) then ret None
  else
    tryCatch
      (let* response := generateContent (audioRequest text "Kore") in
       audioUrlOfResponse response)
      (λ error,
         let* _ := handleGeminiError error "speech generation" in
         ret None).

(** The [switch] of [generateAiTrack]: prompt, voice and track name. *)
Definition trackPreset (category : string) : string * string * string :=
  if bool_decide (category = "Cinematic")
  then ("Hum a slow, deep, and dramatic melody.", "Fenrir",
        "Epic Echoes (AI)")
  else if bool_decide (category = "Upbeat")
  then ("Beatbox a simple, fast, and energetic rhythm.", "Puck",
        "Rhythm Burst (AI)")
  else ("Hum a soft and soothing lullaby.", "Kore", "Gentle Breeze (AI)").

Definition generateAiTrack (category : string)
  : M (option (string * string)) :=
  if negb (nonEmpty API_KEY) then ret None
  else
    let '(prompt, voice, trackName) := trackPreset category in
    tryCatch
      (let* response := generateContent (audioRequest prompt voice) in
       let* u := audioUrlOfResponse response in
       ret ((λ u, (u, trackName)) <$> u))
      (λ error,
         let* _ := handleGeminiError error "music generation" in
         ret None).

(** *** The categorization queue of [handleUpload] ([src/App.tsx])

    [setState] and the timer are events: the category update of a photo, and
    a sleep of the given number of milliseconds. *)
Fixpoint processCategoriesQueue (newPhotos : list Store.Photo) : M unit :=
  match newPhotos with
  | [] => ret tt
  | p :: rest =>
      let* _ :=
        tryCatch
          (let* cat := suggestCategory (Store.url p) in
           let* _ := emit (EvSetCategory (Store.id p) cat) in
           emit (EvSleep 1000))
          (λ err,
             emit (EvConsoleWarn
                     ("Categorization skipped for " +:+ Store.name p))) in
      processCategoriesQueue rest
  end.

End Functions.

(** The state after the category updates of a log, by the updater of the
    queue. *)
Fixpoint applyUpdates (log : list Event) (s : Store.AppState)
  : Store.AppState :=
  match log with
  | [] => s
  | EvSetCategory i cat :: rest =>
      applyUpdates rest (Store.setCategoryById i cat s)
  | _ :: rest => applyUpdates rest s
  end.

(** *** Statements about computations *)

(** [m] returns [v] from [log] and adds no call to the transport. *)
Definition quiet {A} (m : M A) (log : list Event) (v : A) : Prop :=
  ∃ evs, m log = (Ok v, log ++ evs) ∧ networkCalls evs = [].

(** A specification of [m]: from every log, [m] adds events that satisfy
    [P], and it returns a value that satisfies [Q] or throws an error that
    satisfies [T]. *)
Definition sat {A} (m : M A) (P : Event → Prop) (Q : A → Prop)
    (T : JsError → Prop) : Prop :=
  ∀ log, ∃ evs,
    (m log).2 = log ++ evs ∧ Forall P evs
    ∧ match (m log).1 with Ok v => Q v | Throw e => T e end.

(** The events of the queue itself: category updates and sleeps. *)
Definition scheduleEvent (ev : Event) : option (string + Z) :=
  match ev with
  | EvSetCategory i _ => Some (inl i)
  | EvSleep ms => Some (inr ms)
  | _ => None
  end.

Definition schedule (evs : list Event) : list (string + Z) :=
  omap scheduleEvent evs.

(** The warning of the [catch] of the queue. *)
Definition isSkipWarning (ev : Event) : bool :=
  match ev with
  | EvConsoleWarn m => startsWith "Categorization skipped" m
  | _ => false
  end.

(** The events of the functions of the gateway: neither events of the queue
    nor its warning. *)
Definition isGatewayEvent (ev : Event) : Prop :=
  scheduleEvent ev = None ∧ isSkipWarning ev = false.

(** What the categorization returns: the fallback, or the trimmed text of
    an answer of the model when that is not empty. *)
Definition categoryOfModel (W : World) (c : string) : Prop :=
  c = "Uncategorized"
  ∨ ∃ log0 request response t,
      w_generateContent W log0 request = Ok response
      ∧ model request = "gemini-2.5-flash"
      ∧ r_text response = Some t ∧ c = trim t ∧ c ≠ "".

(** C4 as the specification states it, with the fallback of the
    transcription as a parameter: without a credential every function
    returns its fallback and calls nothing. *)
Definition noCredentialFallbacks (transcribeFallback : string) : Prop :=
  ∀ (W : World) (log : list Event) (u t : string) (x y : spec_float),
    quiet (suggestCategory "" W u) log "Uncategorized"
    ∧ quiet (generateAutoNarration "" W u t) log
        "API Key missing. Please provide a description manually."
    ∧ quiet (transcribeAudio "" W u) log transcribeFallback
    ∧ quiet (stylizeImage "" W u t) log None
    ∧ quiet (removeObject "" W u t) log None
    ∧ quiet (removeObjectAtPoint "" W u x y) log None
    ∧ quiet (generateSpeech "" W t) log None
    ∧ quiet (generateAiTrack "" W t) log None.

(** The request of the categorization for an encoded image. *)
Definition categoryRequest (imageData : InlineData) : Request :=
  mediaRequest "gemini-2.5-flash" imageData
    "Analyze this image and categorize it into exactly one of these categories: People, Landscapes, Animals, Objects, Indoor, Outdoor, Selfies. Return ONLY the category name.".

(** C5 as amended, for the answer to the request: the trimmed text of the
    answer when that is not empty, and "Uncategorized" when the text is
    empty or missing or the request fails. *)
Definition categoryOfAnswer (answer : Result Response) : string :=
  match answer with
  | Ok response =>
      match r_text response with
      | Some t => if decide (trim t = "") then "Uncategorized" else trim t
      | None => "Uncategorized"
      end
  | Throw _ => "Uncategorized"
  end.

(** C5 as the specification states it: the category is one of the fixed
    labels, whatever the world answers. *)
Definition categorizeClosed : Prop :=
  ∀ (key : string) (W : World) (u : string) (log : list Event),
    ∃ c log', suggestCategory key W u log = (Ok c, log')
              ∧ c ∈ Store.ImageCategory_values.

(** A world in which every step succeeds: a bitmap of 1000 by 1000 pixels,
    and a model that answers every request with the text [" Sunset "] and
    one inline image. *)
Definition sampleWorld : World :=
  {| w_fetch := λ _ _, Ok {| fb_type := "image/jpeg"; fb_id := 1 |};
     w_createImageBitmap :=
       λ _ _, Ok {| bitmap_width := 1000; bitmap_height := 1000 |};
     w_readAsDataURL := λ _ _, Ok "data:audio/wav;base64,UklGRg==";
     w_getContext := λ _, true;
     w_toDataURL := λ _, Ok "data:image/jpeg;base64,AAAA";
     w_generateContent :=
       λ _ _, Ok {| r_text := Some " Sunset ";
                    r_candidates :=
                      Some [{| r_content :=
                                 Some {| r_parts :=
                                           Some [{| r_inlineData :=
                                                      Some {| r_data :=
                                                                Some "BBBB" |}
                                                 |}] |} |}] |};
     w_atob := λ _, Ok "";
     w_createObjectURL := λ _ _, "blob:1" |}.

(** A world in which the model rejects every request. *)
Definition failingWorld : World :=
  {| w_fetch := w_fetch sampleWorld;
     w_createImageBitmap := w_createImageBitmap sampleWorld;
     w_readAsDataURL := w_readAsDataURL sampleWorld;
     w_getContext := w_getContext sampleWorld;
     w_toDataURL := w_toDataURL sampleWorld;
     w_generateContent :=
       λ _ _, Throw {| err_status := VNumber 429; err_code := VUndefined;
                       err_message := Some "quota" |};
     w_atob := w_atob sampleWorld;
     w_createObjectURL := w_createObjectURL sampleWorld |}.

(** The Number [0.5]. *)
Definition half : spec_float := S754_finite false 4503599627370496 (-53).

(** The run of the queue over a batch, photo by photo: the categorization
    of the photo returns a category, then come the update of the photo, then
    the sleep of 1000 ms, and only then the rest of the batch. *)
Inductive QueueRun (key : string) (W : World)
  : list Store.Photo → list Event → list Event → Prop :=
  | QueueRun_nil (log : list Event) : QueueRun key W [] log log
  | QueueRun_cons (p : Store.Photo) (rest : list Store.Photo)
      (log evs log' : list Event) (cat : string) :
      suggestCategory key W (Store.url p) log = (Ok cat, log ++ evs) →
      Forall isGatewayEvent evs →
      QueueRun key W rest
        (log ++ evs ++ [EvSetCategory (Store.id p) cat; EvSleep 1000]) log' →
      QueueRun key W (p :: rest) log log'.

End Gateway.

(** ** What the functions of the gateway send and return

    Predicates for the statements about the calls of the gateway: a count
    of events over what a computation adds to the log, and descriptions of
    the values that the image and the audio functions return. *)

Module GatewayCalls.
Import Gateway.

Definition isModelCall (ev : Event) : bool :=
  match ev with EvGenerateContent _ => true | _ => false end.

Definition isFetch (ev : Event) : bool :=
  match ev with EvFetch _ => true | _ => false end.

Definition count (which : Event → bool) (evs : list Event) : nat :=
  length (List.filter which evs).

(** From every log, [m] adds at most [n] events of the kind [which]. *)
Definition atMost {A} (which : Event → bool) (n : nat) (m : M A) : Prop :=
  ∀ log, ∃ evs, (m log).2 = log ++ evs ∧ (count which evs ≤ n)%nat.

(** The condition [part.inlineData && part.inlineData.data] of the loops
    over the parts of a response, with the data when it holds. *)
Definition inlineImage (part : ResponsePart) : option string :=
  match r_inlineData part ≫= r_data with
  | Some d => if nonEmpty d then Some d else None
  | None => None
  end.

(** What the image functions return: null, or the data URL of the first
    part with inline data among the parts of the first candidate of an
    answer of the image model. *)
Definition imageOfModel (W : World) (r : option string) : Prop :=
  r = None
  ∨ ∃ log0 request response ps d,
      w_generateContent W log0 request = Ok response
      ∧ model request = "gemini-2.5-flash-image"
      ∧ firstCandidateParts response = Some ps
      ∧ head (omap inlineImage ps) = Some d
      ∧ d ≠ ""
      ∧ r = Some ("data:image/png;base64," +:+ d).

(** What the audio functions hand to [URL.createObjectURL]: a WAV blob of
    the bytes that [atob] decoded from the first part of an answer of the
    speech model. *)
Definition wavOfModel (W : World) (u : string) : Prop :=
  ∃ log0 log1 request response base64Audio binaryString blob,
    w_generateContent W log0 request = Ok response
    ∧ model request = "gemini-2.5-flash-preview-tts"
    ∧ firstInlineAudio response = Some base64Audio
    ∧ base64Audio ≠ ""
    ∧ w_atob W base64Audio = Ok binaryString
    ∧ Wav.pcmToWav
        (Wav.charCodeAt <$> list_ascii_of_string binaryString) 24000
      = Some blob
    ∧ Wav.blob_type blob = "audio/wav"
    ∧ length (Wav.blob_bytes blob) = (44 + String.length binaryString)%nat
    ∧ drop 44 (Wav.blob_bytes blob)
      = Wav.charCodeAt <$> list_ascii_of_string binaryString
    ∧ Wav.hdrSampleRate <$> Wav.readWavHeader (Wav.blob_bytes blob)
      = Some 24000
    ∧ u = w_createObjectURL W log1 blob.

(** [next] is [prev] up to the categories of the photos whose identifier
    is in [ids]: the photos keep their number, their order and every other
    field, the photos with other identifiers are as they were, and so is
    the rest of the state. *)
Definition onlyCategories (ids : list string) (prev next : Store.AppState)
  : Prop :=
  next = Store.with_photos prev (Store.photos next)
  ∧ ∀ (k : nat),
      match Store.photos prev !! k, Store.photos next !! k with
      | Some p, Some p' =>
          Store.with_category p' (Store.category p) = p
          ∧ (Store.id p ∉ ids → p' = p)
      | None, None => True
      | _, _ => False
      end.

(** A world in which nothing can be fetched. *)
Definition offlineWorld : World :=
  {| w_fetch :=
       λ _ _, Throw {| err_status := VUndefined; err_code := VUndefined;
                       err_message := Some "Failed to fetch" |};
     w_createImageBitmap := w_createImageBitmap sampleWorld;
     w_readAsDataURL := w_readAsDataURL sampleWorld;
     w_getContext := w_getContext sampleWorld;
     w_toDataURL := w_toDataURL sampleWorld;
     w_generateContent := w_generateContent sampleWorld;
     w_atob := w_atob sampleWorld;
     w_createObjectURL := w_createObjectURL sampleWorld |}.

End GatewayCalls.

(** ** The radius of the marker on a canvas with integer edges *)

Module MarkerRadius.
Import Number Canvas.

(** The radius for a shorter edge of [m] pixels, as [markerAt] computes
    it. *)
Definition radiusOf (m : Z) : spec_float :=
  Math_max lit_20 (mul (ofZ m) lit_0_05).

(** The rule to check at [m]: the radius is 20 up to 400 pixels and the
    product [m * 0.05] above, and it lies between 20 and 52. *)
Definition radiusRule (m : Z) : bool :=
  bool_decide (radiusOf m
               = if m <=? 400 then ofZ 20 else mul (ofZ m) lit_0_05)
  && SFleb (ofZ 20) (radiusOf m) && SFleb (radiusOf m) (ofZ 52)
  && (if m <=? 400 then true else SFltb (ofZ 20) (radiusOf m)).

Definition allEdges (f : Z → bool) : bool := forallb f (seqZ 0 1025).

End MarkerRadius.

(** ** Invariants of the session *)

Module UiInvariants.
Import Store Ui.

(** The rotations that [src/types.ts] lists for a photo. *)
Definition rightAngle (p : Photo) : Prop := rotation p ∈ [0; 90; 180; 270].

Definition rotationsOk (s : State) : Prop :=
  Forall rightAngle (photos (app s))
  ∧ ∀ e, editedPhoto s = Some e → rightAngle e.

End UiInvariants.

(** ** The handlers of [ImageEditor] that call the gateway
    ([src/components/Gallery.tsx])

    A handler reads the [editedPhoto] of the render in which it was
    created, awaits a function of the gateway and then passes an update to
    [setEditedPhoto] or shows an alert. Its result is that pair; the flags
    of the spinners ([isStylizing] and the like) and the text fields are
    not part of the model. *)

Module Editor.
Import Store Ui Gateway.

Record Outcome := {
  update : Photo → Photo;
  alert : option string
}.

(** No call of [setEditedPhoto]. *)
Definition unchanged (message : option string) : Outcome :=
  {| update := λ prev, prev; alert := message |}.

Definition updated (f : Photo → Photo) : Outcome :=
  {| update := f; alert := None |}.

(** [console.error(e)] *)
Definition consoleError (e : JsError) : M unit :=
  emit (EvConsoleError (default "" (err_message e))).

Section Handlers.

Variable API_KEY : string.
Variable W : World.
Variable editedPhoto : Photo.

Definition handleAINarration (tone : string) : M Outcome :=
  let* text := generateAutoNarration API_KEY W (url editedPhoto) tone in
  ret (updated (narrationResolved text)).

Definition handleGenerateSpeech : M Outcome :=
  if negb (truthy (Some (narration editedPhoto))) then ret (unchanged None)
  else
    tryCatch
      (let* audioUrl := generateSpeech API_KEY W (narration editedPhoto) in
       if truthy audioUrl then ret (updated (speechResolved audioUrl))
       else ret (unchanged (Some "Could not generate audio.")))
      (λ e,
         let* _ := consoleError e in
         ret (unchanged (Some "Error generating speech."))).

Definition handleStylize (style : string) : M Outcome :=
  tryCatch
    (let* newImageUrl := stylizeImage API_KEY W (url editedPhoto) style in
     if truthy newImageUrl then ret (updated (imageResolved newImageUrl))
     else ret (unchanged (Some "Could not generate stylized image. Please check your connection and API limits.")))
    (λ e,
       let* _ := consoleError e in
       ret (unchanged (Some "Error generating image."))).

Definition handleTranscribe : M Outcome :=
  if negb (truthy (audioNarrationUrl editedPhoto)) then ret (unchanged None)
  else
    tryCatch
      (let* text :=
         transcribeAudio API_KEY W
           (default "" (audioNarrationUrl editedPhoto)) in
       if truthy (Some text) then ret (updated (transcribeResolved text))
       else ret (unchanged (Some "Could not transcribe audio.")))
      (λ e,
         let* _ := consoleError e in
         ret (unchanged (Some "Transcription failed."))).

(** [objectToRemove] is the text of the input field; the description goes
    to [removeObject] as it was typed. *)
Definition handleRemoveObject (objectToRemove : string) : M Outcome :=
  if negb (truthy (Some (trim objectToRemove))) then ret (unchanged None)
  else
    tryCatch
      (let* newImageUrl :=
         removeObject API_KEY W (url editedPhoto) objectToRemove in
       if truthy newImageUrl then ret (updated (imageResolved newImageUrl))
       else ret (unchanged (Some "Could not remove the object. Please try a different description.")))
      (λ e,
         let* _ := consoleError e in
         ret (unchanged (Some "Error removing object."))).

End Handlers.

(** What [generateAutoNarration] and [transcribeAudio] return: one of
    their fixed texts, or the trimmed text of an answer of the model. *)
Definition textOfModel (W : World) (fixed : list string) (text : string)
  : Prop :=
  text ∈ fixed
  ∨ ∃ log0 request response t,
      w_generateContent W log0 request = Ok response
      ∧ model request = "gemini-2.5-flash"
      ∧ r_text response = Some t ∧ text = trim t.

(** The request of [generateAutoNarration] for an encoded image, and what
    the function returns for the answer to it: the trimmed text of the
    answer, the empty text when the answer has none, and its message when
    the request fails. *)
Definition narrationRequest (imageData : InlineData) (tone : string)
  : Request :=
  mediaRequest "gemini-2.5-flash" imageData
    ("Write a short, engaging caption (under 20 words) for this photo. Tone: "
     +:+ tone +:+ ".").

Definition narrationOfAnswer (answer : Result Response) : string :=
  match answer with
  | Ok response => default "" (trim <$> r_text response)
  | Throw _ => "Could not generate narration."
  end.

(** The fixed texts of [generateAutoNarration] and of [transcribeAudio]. *)
Definition narrationTexts : list string :=
  ["API Key missing. Please provide a description manually.";
   "Could not process image."; "Could not generate narration."; ""].

Definition transcriptionTexts : list string :=
  ["API Key missing."; "Could not process audio data."; ""].

(** The narration after [handleTranscribe] has added [text] to it. *)
Definition appendLine (narration0 text : string) : string :=
  if decide (narration0 = "") then text
  else narration0 +:+ newline +:+ text.

(** The outcomes of a handler whose request can fail: an update of the
    photo and no alert, or the alert [failed] and no update. *)
Definition settled (o : Outcome) (changes : (Photo → Photo) → Prop)
    (failed : string) : Prop :=
  (alert o = None ∧ changes (update o))
  ∨ (alert o = Some failed ∧ ∀ prev, update o prev = prev).

(** The outcome of a handler that returns at its guard: nothing is sent,
    nothing is shown and the photo is not updated. *)
Definition idle (o : Outcome) (evs : list Event) : Prop :=
  evs = [] ∧ alert o = None ∧ ∀ prev, update o prev = prev.

(** The updates of the handlers: a new image, a new recording, a line
    added to the narration. *)
Definition setsImage (W : World) (f : Photo → Photo) : Prop :=
  ∃ u, u ≠ "" ∧ GatewayCalls.imageOfModel W (Some u)
       ∧ ∀ prev, f prev = with_url prev u.

Definition setsSpeech (W : World) (f : Photo → Photo) : Prop :=
  ∃ u, u ≠ "" ∧ GatewayCalls.wavOfModel W u
       ∧ ∀ prev, f prev = with_audioNarrationUrl prev u.

Definition addsLine (W : World) (f : Photo → Photo) : Prop :=
  ∃ t, t ≠ "" ∧ textOfModel W transcriptionTexts t
       ∧ ∀ prev, f prev = with_narration prev (appendLine (narration prev) t).

(** A photo with a recording and a narration. *)
Definition narratedPhoto : Photo :=
  with_audioNarrationUrl (with_narration samplePhoto "At the beach.")
    "blob:recording".

End Editor.

(** ** The category bar of [Gallery] ([src/components/Gallery.tsx])

    [Gallery] shows the photos of one category. Its own state is the
    active category and the text of the input for a new category; the
    custom categories and the photos belong to [App]. *)

Module GalleryView.
Import Store.

Definition builtInCategories : list string := "All" :: ImageCategory_values.

Definition allCategories (customCategories : list string) : list string :=
  builtInCategories ++ customCategories.

(** [arr.includes(name)] *)
Definition includesName (arr : list string) (name : string) : bool :=
  bool_decide (name ∈ arr).

Definition filteredPhotos (photos : list Photo) (activeCategory : string)
  : list Photo :=
  if bool_decide (activeCategory = "All") then photos
  else filter (λ p, category p = activeCategory) photos.

Record State := {
  app : AppState;
  customCategories : list string;
  activeCategory : string;
  newCatName : string
}.

(** The effect on [allCategories] and [activeCategory]: an active category
    that is no longer in the list gives way to "All". *)
Definition activeCategoryEffect (s : State) : State :=
  if includesName (allCategories (customCategories s)) (activeCategory s)
  then s
  else {| app := app s; customCategories := customCategories s;
          activeCategory := "All"; newCatName := newCatName s |}.

(** [handleCreateCategory], with the text of its alert. *)
Definition handleCreateCategory (s : State) : State * option string :=
  if Ui.truthy (Some (Gateway.trim (newCatName s)))
  then
    let name := Gateway.trim (newCatName s) in
    if negb (includesName (allCategories (customCategories s)) name)
    then ({| app := app s;
             customCategories := customCategories s ++ [name];
             activeCategory := name; newCatName := "" |}, None)
    else (s, Some "Category already exists!")
  else (s, None).

(** [handleDeleteCategory]; [confirmed] is the answer of
    [window.confirm]. *)
Definition handleDeleteCategory (cat : string) (confirmed : bool)
    (s : State) : State :=
  if confirmed
  then
    let '(cats, a) :=
      handleDeleteCustomCategory cat (customCategories s, app s) in
    {| app := a; customCategories := cats;
       activeCategory := activeCategory s; newCatName := newCatName s |}
  else s.

Inductive Action :=
  | TypeName (text : string)
  | Create
  | Select (cat : string)
  | Delete (cat : string) (confirmed : bool).

(** One action of the bar, followed by the effect. A category can be
    selected when the bar shows it, and deleted when it is a custom one. *)
Definition step (act : Action) (s : State) : option State :=
  match act with
  | TypeName text =>
      Some (activeCategoryEffect
              {| app := app s; customCategories := customCategories s;
                 activeCategory := activeCategory s; newCatName := text |})
  | Create => Some (activeCategoryEffect (handleCreateCategory s).1)
  | Select cat =>
      if includesName (allCategories (customCategories s)) cat
      then Some (activeCategoryEffect
                   {| app := app s; customCategories := customCategories s;
                      activeCategory := cat; newCatName := newCatName s |})
      else None
  | Delete cat confirmed =>
      if includesName (customCategories s) cat
      then Some (activeCategoryEffect (handleDeleteCategory cat confirmed s))
      else None
  end.

Fixpoint run (acts : list Action) (s : State) : option State :=
  match acts with
  | [] => Some s
  | act :: rest => s' ← step act s; run rest s'
  end.

(** The bar of a gallery that has just been mounted. *)
Definition mounted (a : AppState) (customCategories0 : list string) : State :=
  activeCategoryEffect
    {| app := a; customCategories := customCategories0;
       activeCategory := "All"; newCatName := "" |}.

(** The custom categories are distinct, none is a built-in category, "All"
    or the empty text, and the active category is one of the bar. *)
Definition barOk (s : State) : Prop :=
  NoDup (customCategories s)
  ∧ (∀ c, c ∈ customCategories s → (c ∉ builtInCategories) ∧ c ≠ "")
  ∧ activeCategory s ∈ allCategories (customCategories s).

(** A bar with one custom category, which is the active one, over the
    store of the sample session. *)
Definition sampleBar : State :=
  {| app := Ui.app Ui.sampleState; customCategories := ["Trips"];
     activeCategory := "Trips"; newCatName := "" |}.

End GalleryView.

(** ** The slideshow ([src/components/Slideshow.tsx])

    The index of the current slide is a Number: an integer, or NaN (the
    result of [% 0]), which is [None] here. *)

Module Slideshow.
Import Store Number.

#[global] Instance ImageFilter_eq_dec : EqDecision ImageFilter.
Proof. solve_decision. Defined.

#[global] Instance Photo_eq_dec : EqDecision Photo.
Proof. solve_decision. Defined.

(** [a % b] on integers. *)
Definition jsRem (a b : Z) : option Z :=
  if b =? 0 then None else Some (Z.rem a b).

(** [arr[i]] *)
Definition at_index {A} (arr : list A) (i : option Z) : option A :=
  match i with
  | Some i => if bool_decide (0 ≤ i) then arr !! Z.to_nat i else None
  | None => None
  end.

Definition nextIndex (len : Z) (prev : option Z) : option Z :=
  p ← prev; jsRem (p + 1) len.

Definition prevIndex (len : Z) (prev : option Z) : option Z :=
  p ← prev; jsRem (p - 1 + len) len.

(** [arr.filter((_, i) => pred(i))] *)
Fixpoint filterIndexFrom {A} (pred : nat → bool) (i : nat) (arr : list A)
  : list A :=
  match arr with
  | [] => []
  | x :: rest =>
      if pred i then x :: filterIndexFrom pred (S i) rest
      else filterIndexFrom pred (S i) rest
  end.

Definition evenPhotos (photos : list Photo) : list Photo :=
  filterIndexFrom (λ i, bool_decide (Nat.modulo i 2 = 0%nat)) 0 photos.

Definition oddPhotos (photos : list Photo) : list Photo :=
  filterIndexFrom (λ i, bool_decide (Nat.modulo i 2 ≠ 0%nat)) 0 photos.

(** The items of a [ScrollColumn] and the index that a click on one of them
    selects. *)
Definition displayItems (items : list Photo) : list Photo :=
  if bool_decide (0 < length items)%nat
  then items ++ items ++ items ++ items else [].

Definition originalIndex (allPhotos : list Photo) (photo : Photo) : Z :=
  findIndex (idIs (id photo)) allPhotos.

(** The resizer: [Math.max(10, Math.min(50, newRatio))] with
    [newRatio = (clientX / innerWidth) * 100]. *)
Definition newRatio (clientX innerWidth : spec_float) : spec_float :=
  mul (div clientX innerWidth) (ofZ 100).

Definition clampRatio (ratio : spec_float) : spec_float :=
  Math_max (ofZ 10) (Math_min (ofZ 50) ratio).

Definition showSingleColumn (splitRatio : spec_float) : bool :=
  SFltb splitRatio (ofZ 20).

Record State := {
  currentIndex : option Z;
  isPlaying : bool;
  isAudioMuted : bool;
  splitRatio : spec_float;
  isDragging : bool
}.

Definition initial : State :=
  {| currentIndex := Some 0; isPlaying := true; isAudioMuted := false;
     splitRatio := ofZ 25; isDragging := false |}.

Definition with_index (s : State) (i : option Z) : State :=
  {| currentIndex := i; isPlaying := isPlaying s;
     isAudioMuted := isAudioMuted s; splitRatio := splitRatio s;
     isDragging := isDragging s |}.

Inductive Action :=
  | Tick
  | Next
  | Previous
  | TogglePlay
  | ToggleMute
  | ClickThumbnail (photo : Photo)
  | MouseDown
  | MouseMove (clientX innerWidth : spec_float)
  | MouseUp.

(** The columns that the left panel shows. *)
Definition columns (photos : list Photo) (s : State) : list Photo :=
  if showSingleColumn (splitRatio s) then displayItems photos
  else displayItems (evenPhotos photos) ++ displayItems (oddPhotos photos).

(** One event of the slideshow over the photos [photos]. The interval runs
    while the show is playing, and a thumbnail can be clicked when a column
    shows it. [Next] and [Previous] are the arrow keys and the two
    buttons. *)
Definition step (photos : list Photo) (act : Action) (s : State)
  : option State :=
  let len := Z.of_nat (length photos) in
  match act with
  | Tick =>
      if isPlaying s then Some (with_index s (nextIndex len (currentIndex s)))
      else None
  | Next => Some (with_index s (nextIndex len (currentIndex s)))
  | Previous => Some (with_index s (prevIndex len (currentIndex s)))
  | TogglePlay =>
      Some {| currentIndex := currentIndex s; isPlaying := negb (isPlaying s);
              isAudioMuted := isAudioMuted s; splitRatio := splitRatio s;
              isDragging := isDragging s |}
  | ToggleMute =>
      Some {| currentIndex := currentIndex s; isPlaying := isPlaying s;
              isAudioMuted := negb (isAudioMuted s);
              splitRatio := splitRatio s; isDragging := isDragging s |}
  | ClickThumbnail photo =>
      if bool_decide (photo ∈ columns photos s)
      then Some (with_index s (Some (originalIndex photos photo)))
      else None
  | MouseDown =>
      Some {| currentIndex := currentIndex s; isPlaying := isPlaying s;
              isAudioMuted := isAudioMuted s; splitRatio := splitRatio s;
              isDragging := true |}
  | MouseMove clientX innerWidth =>
      if isDragging s
      then Some {| currentIndex := currentIndex s; isPlaying := isPlaying s;
                   isAudioMuted := isAudioMuted s;
                   splitRatio := clampRatio (newRatio clientX innerWidth);
                   isDragging := true |}
      else Some s
  | MouseUp =>
      Some {| currentIndex := currentIndex s; isPlaying := isPlaying s;
              isAudioMuted := isAudioMuted s; splitRatio := splitRatio s;
              isDragging := false |}
  end.

Fixpoint run (photos : list Photo) (acts : list Action) (s : State)
  : option State :=
  match acts with
  | [] => Some s
  | act :: rest => s' ← step photos act s; run photos rest s'
  end.

(** [currentPhoto]; the slideshow renders nothing when it is undefined. *)
Definition currentPhoto (photos : list Photo) (s : State) : option Photo :=
  at_index photos (currentIndex s).

(** The split ratio is a number from 10 to 50. *)
Definition ratioOk (r : spec_float) : Prop :=
  SFleb (ofZ 10) r = true ∧ SFleb r (ofZ 50) = true.

Definition threePhotos : list Photo :=
  Ui.uploadedPhoto
    <$> [("a", "data:a", "a.jpg"); ("b", "data:b", "b.jpg");
         ("c", "data:c", "c.jpg")].

End Slideshow.

(** ** The audio panel ([AudioPanel] with [generateAiTrack], in
    [src/components/Slideshow.tsx]) *)

Module AudioPanel.
Import Gateway.

Record Track := {
  t_name : string;
  t_url : string;
  t_desc : string;
  t_isAi : bool
}.

Definition aiTrack (activeTab trackName trackUrl : string) : Track :=
  {| t_name := trackName; t_url := trackUrl;
     t_desc := "AI Generated " +:+ activeTab +:+ " Track";
     t_isAi := true |}.

(** [handleComposeAiTrack]: the update that it passes to [setTracks], the
    identity when it passes none. [mounted] is [mountedRef.current] when
    the request settles. *)
Definition handleComposeAiTrack (API_KEY : string) (W : World)
    (activeTab : string) (mounted : bool)
  : M (list Track → list Track) :=
  tryCatch
    (let* result := generateAiTrack API_KEY W activeTab in
     match result with
     | Some (trackUrl, trackName) =>
         if mounted
         then ret (λ prev, aiTrack activeTab trackName trackUrl :: prev)
         else ret (λ prev, prev)
     | None => ret (λ prev, prev)
     end)
    (λ e,
       let* _ := emit (EvConsoleError "Failed to compose track") in
       ret (λ prev, prev)).

(** The updates of [handleComposeAiTrack]: none, or one new track on top
    of the list, marked as generated, with the name of the preset of the
    tab and the object URL of a WAV blob. *)
Definition composed (W : World) (activeTab : string)
    (f : list Track → list Track) : Prop :=
  (∀ prev, f prev = prev)
  ∨ ∃ u, GatewayCalls.wavOfModel W u
         ∧ ∀ prev,
             f prev
             = aiTrack activeTab (trackPreset activeTab).2 u :: prev.

End AudioPanel.
(** * Properties

    ** The WAV container *)

Section WavFacts.
Import Wav.

Lemma le32_sum (v : Z) :
  v mod 256 + 256 * ((v / 256) mod 256) + 65536 * ((v / 65536) mod 256)
  + 16777216 * (v / 16777216) = v.
Proof.
  replace (v / 65536) with (v / 256 / 256)
    by (rewrite Z.div_div by lia; reflexivity).
  replace (v / 16777216) with (v / 256 / 256 / 256)
    by (rewrite !Z.div_div by lia; reflexivity).
  pose proof (Z.div_mod v 256).
  pose proof (Z.div_mod (v / 256) 256).
  pose proof (Z.div_mod (v / 256 / 256) 256).
  lia.
Qed.

Lemma le16_sum (v : Z) : v mod 256 + 256 * (v / 256) = v.
Proof. pose proof (Z.div_mod v 256). lia. Qed.

Lemma typedArraySet_tail (buffer : list Z) (off : nat) (source : list Z) :
  length buffer = (off + length source)%nat →
  typedArraySet buffer off source = Some (take off buffer ++ source).
Proof.
  intros Hlen. unfold typedArraySet.
  rewrite decide_True by lia.
  rewrite drop_ge by lia.
  by rewrite app_nil_r.
Qed.

(** [pcmToWav] never raises: for every input it returns the 44 header bytes
    followed by the PCM bytes. *)
Lemma pcmToWav_layout (pcmData : list Z) (sampleRate : Z) :
  pcmToWav pcmData sampleRate
  = Some {| blob_bytes :=
              wavHeader (Z.of_nat (length pcmData)) sampleRate ++ pcmData;
            blob_type := "audio/wav" |}.
Proof.
  unfold pcmToWav, newArrayBuffer.
  cbn [Nat.add replicate].
  cbn [writeString setUint8 setUint16 setUint32 mbind option_bind
       lookup list_lookup insert list_insert Nat.add].
  rewrite typedArraySet_tail
    by (cbn [length]; rewrite length_replicate; reflexivity).
  cbn [take]. reflexivity.
Qed.

Lemma wavHeader_length (n r : Z) : length (wavHeader n r) = 44%nat.
Proof. reflexivity. Qed.

(** The header as the decoder sees it, for every input: each field is the
    written value reduced modulo its width. *)
Lemma readWavHeader_wrapped (n r : Z) (pcmData : list Z) :
  readWavHeader (wavHeader n r ++ pcmData)
  = Some {| riffChunkSize := (36 + n) mod 4294967296; fmtChunkSize := 16;
            audioFormat := 1; channelCount := 1;
            hdrSampleRate := r mod 4294967296;
            hdrByteRate := (r * 2) mod 4294967296;
            hdrBlockAlign := 2; bitsPerSample := 16;
            dataChunkSize := n mod 4294967296 |}.
Proof.
  unfold readWavHeader, getUint32, getUint16, wavHeader, le32, le16, tagOf.
  cbn [fmap list_fmap list_ascii_of_string app lookup list_lookup
       mbind option_bind Nat.add].
  rewrite !le32_sum, !le16_sum.
  replace (r * 1 * 2) with (r * 2) by lia.
  reflexivity.
Qed.

(** The length of the container is [44 + N] for every input. *)
Lemma pcmToWav_length (pcmData : list Z) (sampleRate : Z) (blob : Blob) :
  pcmToWav pcmData sampleRate = Some blob →
  length (blob_bytes blob) = (44 + length pcmData)%nat
  ∧ drop 44 (blob_bytes blob) = pcmData
  ∧ blob_type blob = "audio/wav".
Proof.
  rewrite pcmToWav_layout. intros H. apply (inj Some) in H. subst blob.
  cbn [blob_bytes blob_type].
  split; [|split; [|done]].
  - by rewrite length_app, wavHeader_length.
  - rewrite <- (wavHeader_length (Z.of_nat (length pcmData)) sampleRate).
    apply drop_app_length.
Qed.

(** C1 (as amended): for a sample rate [r] with [0 <= r < 2^31] and a PCM
    array of [N] bytes with [36 + N < 2^32], [pcmToWav] returns a buffer of
    exactly [44 + N] bytes whose header reads back as RIFF size [36 + N],
    format 1, one channel, sample rate [r], byte rate [2 r], block align 2,
    16 bits per sample and data size [N], followed by the PCM bytes
    unchanged from offset 44. *)
Theorem pcmToWav_header_roundtrip (pcmData : list Z) (sampleRate : Z) :
  0 ≤ sampleRate < 2147483648 →
  36 + Z.of_nat (length pcmData) < 4294967296 →
  pcmToWav_spec pcmData sampleRate.
Proof.
  intros Hr HN. unfold pcmToWav_spec.
  eexists. split; [apply pcmToWav_layout|]. cbn [blob_bytes].
  destruct (pcmToWav_length pcmData sampleRate _ (pcmToWav_layout _ _))
    as (Hlen & Hdrop & _).
  cbn [blob_bytes] in Hlen, Hdrop.
  split; [exact Hlen|]. split; [|exact Hdrop].
  rewrite readWavHeader_wrapped.
  rewrite !Z.mod_small by lia. reflexivity.
Qed.

Lemma pcmToWav_header_roundtrip_witness : pcmToWav_spec [1; 2; 3] 24000.
Proof.
  apply (pcmToWav_header_roundtrip [1; 2; 3] 24000); cbn; lia.
Defined.

(** C1 (as stated) fails where a field overflows its 32 bits: at sample
    rate [2^31] the byte rate [2^32] is stored as 0. *)
Lemma pcmToWav_spec_counterexample : ¬ pcmToWav_spec [] 2147483648.
Proof.
  unfold pcmToWav_spec. intros (blob & Hblob & _ & Hhdr & _).
  rewrite pcmToWav_layout in Hblob. apply (inj Some) in Hblob. subst blob.
  cbn [blob_bytes] in Hhdr. rewrite readWavHeader_wrapped in Hhdr.
  apply (inj Some) in Hhdr. apply (f_equal hdrByteRate) in Hhdr.
  vm_compute in Hhdr. discriminate Hhdr.
Qed.

End WavFacts.

(** ** JavaScript numbers: rounding of binary64 operations

    The operations of [SpecFloat] on mantissa and exponent, followed through
    the normal range: a result is within one unit of its last place of the
    exact value. *)

Section NumberFacts.
Import Number Canvas.

Lemma digits2_pos_bounds (p : positive) :
  2 ^ (Zpos (digits2_pos p) - 1) ≤ Zpos p < 2 ^ Zpos (digits2_pos p).
Proof.
  induction p as [p IH|p IH|]; cbn [digits2_pos].
  - rewrite !Pos2Z.inj_succ, (Pos2Z.inj_xI p).
    replace (Z.succ (Zpos (digits2_pos p)) - 1)
      with (Z.succ (Zpos (digits2_pos p) - 1)) by lia.
    rewrite !Z.pow_succ_r by lia. lia.
  - rewrite !Pos2Z.inj_succ, (Pos2Z.inj_xO p).
    replace (Z.succ (Zpos (digits2_pos p)) - 1)
      with (Z.succ (Zpos (digits2_pos p) - 1)) by lia.
    rewrite !Z.pow_succ_r by lia. lia.
  - cbn. lia.
Qed.

Lemma Zdigits2_bounds (m : Z) :
  0 < m → 2 ^ (Zdigits2 m - 1) ≤ m < 2 ^ Zdigits2 m.
Proof.
  destruct m as [|p|p]; [lia| |lia]. intros _. apply digits2_pos_bounds.
Qed.

Lemma Zdigits2_pos (m : Z) : 0 < m → 0 < Zdigits2 m.
Proof. destruct m; cbn; lia. Qed.

Lemma Zdigits2_unique (m d : Z) :
  2 ^ (d - 1) ≤ m < 2 ^ d → 0 < m → Zdigits2 m = d.
Proof.
  intros [Hlo Hhi] Hm.
  pose proof (Zdigits2_bounds m Hm) as [Hlo' Hhi'].
  pose proof (Zdigits2_pos m Hm) as Hd.
  assert (0 < d) as Hd0.
  { destruct (Z.lt_ge_cases 0 d) as [|Hle]; [done|].
    exfalso. assert (2 ^ d ≤ 2 ^ 0) by (apply Z.pow_le_mono_r; lia).
    change (2 ^ 0) with 1 in *. lia. }
  destruct (Z.lt_trichotomy (Zdigits2 m) d) as [Hlt | [Heq | Hgt]]; [|done|].
  - exfalso. assert (2 ^ Zdigits2 m ≤ 2 ^ (d - 1))
      by (apply Z.pow_le_mono_r; lia). lia.
  - exfalso. assert (2 ^ d ≤ 2 ^ (Zdigits2 m - 1))
      by (apply Z.pow_le_mono_r; lia). lia.
Qed.

Lemma shr_1_m (mrs : shr_record) :
  0 ≤ shr_m mrs → shr_m (shr_1 mrs) = shr_m mrs / 2.
Proof.
  destruct mrs as [m r s]. cbn [shr_m]. intros Hm.
  destruct m as [|q|q]; [done| |lia].
  destruct q as [p|p|]; cbn [shr_1 shr_m].
  - rewrite (Pos2Z.inj_xI p). rewrite Z.mul_comm, Z.div_add_l by lia.
    change (1 / 2) with 0. lia.
  - rewrite (Pos2Z.inj_xO p). by rewrite Z.mul_comm, Z.div_mul by lia.
  - reflexivity.
Qed.

Lemma iter_pos_shr_1 (p : positive) (mrs : shr_record) :
  0 ≤ shr_m mrs →
  shr_m (SpecFloat.iter_pos shr_1 p mrs) = shr_m mrs / 2 ^ Zpos p.
Proof.
  revert mrs. induction p as [p IH|p IH|]; intros mrs Hm; cbn [SpecFloat.iter_pos].
  - assert (0 ≤ shr_m (shr_1 mrs)) as H1
      by (rewrite shr_1_m by done; apply Z.div_pos; lia).
    assert (0 ≤ shr_m (SpecFloat.iter_pos shr_1 p (shr_1 mrs))) as H2
      by (rewrite IH by done; apply Z.div_pos; lia).
    rewrite IH, IH, shr_1_m by done.
    rewrite !Z.div_div by lia. f_equal.
    rewrite (Pos2Z.inj_xI p).
    replace (2 * Zpos p + 1) with (1 + Zpos p + Zpos p) by lia.
    rewrite !Z.pow_add_r by lia. change (2 ^ 1) with 2. lia.
  - assert (0 ≤ shr_m (SpecFloat.iter_pos shr_1 p mrs)) as H2
      by (rewrite IH by done; apply Z.div_pos; lia).
    rewrite IH, IH by done.
    rewrite !Z.div_div by lia. f_equal.
    rewrite (Pos2Z.inj_xO p).
    replace (2 * Zpos p) with (Zpos p + Zpos p) by lia.
    by rewrite !Z.pow_add_r by lia.
  - rewrite shr_1_m by done. reflexivity.
Qed.

Lemma loc_of_shr_record_of_loc (m : Z) (l : location) :
  loc_of_shr_record (shr_record_of_loc m l) = l
  ∧ shr_m (shr_record_of_loc m l) = m.
Proof. by destruct l as [|[]]. Qed.

(** [shr_fexp] shifts the mantissa right by the number of positions that
    brings it to the format, and not at all when it fits. *)
Lemma shr_fexp_spec (m e : Z) (l : location) :
  0 ≤ m →
  let n := Z.max (fexp prec emax (Zdigits2 m + e) - e) 0 in
  ∃ mrs, shr_fexp prec emax m e l = (mrs, e + n)
         ∧ shr_m mrs = m / 2 ^ n
         ∧ (n = 0 → loc_of_shr_record mrs = l).
Proof.
  intros Hm n. unfold shr_fexp, shr. subst n.
  destruct (loc_of_shr_record_of_loc m l) as [Hloc Hshr].
  destruct (fexp prec emax (Zdigits2 m + e) - e) as [|p|p] eqn:E.
  - eexists. split; [by rewrite Z.add_0_r|]. split; [|done].
    rewrite Hshr. cbn. by rewrite Z.div_1_r.
  - eexists. split; [by rewrite Z.max_l by lia|]. split; [|lia].
    rewrite iter_pos_shr_1 by (rewrite Hshr; lia).
    rewrite Hshr. by rewrite Z.max_l by lia.
  - eexists. split; [by rewrite Z.max_r, Z.add_0_r by lia|].
    split; [|done]. rewrite Hshr, Z.max_r by lia. cbn. by rewrite Z.div_1_r.
Qed.

Lemma round_nearest_even_cases (m : Z) (l : location) :
  round_nearest_even m l = m ∨ round_nearest_even m l = m + 1.
Proof. destruct l as [|[]]; cbn; try destruct (Z.even m); auto. Qed.

Lemma fexp_normal (e : Z) : -1021 ≤ e → fexp prec emax e = e - 53.
Proof. intros He. unfold fexp, SpecFloat.emin, prec, emax. lia. Qed.

Lemma div_pow2_bounds (m n t : Z) :
  0 ≤ n → 0 ≤ m → t = m / 2 ^ n → t * 2 ^ n ≤ m < (t + 1) * 2 ^ n.
Proof.
  intros Hn Hm ->. assert (0 < 2 ^ n) by (apply Z.pow_pos_nonneg; lia).
  pose proof (Z.div_mod m (2 ^ n) ltac:(lia)).
  pose proof (Z.mod_pos_bound m (2 ^ n) ltac:(lia)). lia.
Qed.

(** Rounding a mantissa of at least 53 digits to the format, in the normal
    range: the result has a 53-digit mantissa, its exponent is larger by the
    number of digits dropped, and its value is within one unit of the last
    place of the value rounded. *)
Lemma binary_round_aux_bounds (sx : bool) (mx ex : Z) (lx : location) :
  2 ^ 52 ≤ mx → -1074 ≤ ex → ex + Zdigits2 mx ≤ 1023 →
  ∃ (m : positive) (k : Z),
    binary_round_aux prec emax sx mx ex lx = S754_finite sx m (ex + k)
    ∧ Zdigits2 mx - 53 ≤ k ≤ Zdigits2 mx - 52
    ∧ 2 ^ 52 ≤ Zpos m < 2 ^ 53
    ∧ mx - 2 ^ k < Zpos m * 2 ^ k ≤ mx + 2 ^ k.
Proof.
  intros Hmx Hex Hmax.
  assert (0 < mx) as Hpos by lia.
  pose proof (Zdigits2_bounds mx Hpos) as [Hdlo Hdhi].
  set (d := Zdigits2 mx) in *.
  assert (53 ≤ d) as Hd.
  { destruct (Z.lt_ge_cases d 53) as [Hlt|]; [|done]. exfalso.
    assert (2 ^ d ≤ 2 ^ 52) by (apply Z.pow_le_mono_r; lia). lia. }
  set (n1 := d - 53).
  assert (0 < 2 ^ n1) as Hn1pos by (apply Z.pow_pos_nonneg; lia).
  assert (2 ^ (d - 1) = 2 ^ 52 * 2 ^ n1) as Hsplit1
    by (rewrite <- Z.pow_add_r by lia; f_equal; lia).
  assert (2 ^ d = 2 ^ 53 * 2 ^ n1) as Hsplit2
    by (rewrite <- Z.pow_add_r by lia; f_equal; lia).
  destruct (shr_fexp_spec mx ex lx ltac:(lia)) as (mrs1 & Hshr1 & Hm1 & _).
  fold d in Hshr1, Hm1.
  rewrite fexp_normal in Hshr1, Hm1 by lia.
  replace (Z.max (d + ex - 53 - ex) 0) with n1 in Hshr1, Hm1 by lia.
  set (t := mx / 2 ^ n1) in *.
  pose proof (div_pow2_bounds mx n1 t ltac:(lia) ltac:(lia) eq_refl)
    as [Htlo Hthi].
  assert (2 ^ 52 ≤ t < 2 ^ 53) as Ht by nia.
  unfold binary_round_aux. rewrite Hshr1. rewrite Hm1.
  set (m1 := round_nearest_even t (loc_of_shr_record mrs1)).
  assert (m1 = t ∨ m1 = t + 1) as Hm1cases
    by apply round_nearest_even_cases.
  clearbody m1.
  destruct (shr_fexp_spec m1 (ex + n1) loc_Exact ltac:(lia))
    as (mrs2 & Hshr2 & Hm2 & _).
  destruct (Z.eq_dec m1 (2 ^ 53)) as [Hover | Hnorm].
  - (* the mantissa overflows to 2^53 and is renormalized *)
    assert (Zdigits2 m1 = 54) as Hd1
      by (apply Zdigits2_unique; rewrite Hover; cbn; lia).
    rewrite Hd1, fexp_normal in Hshr2, Hm2 by lia.
    replace (Z.max (54 + (ex + n1) - 53 - (ex + n1)) 0) with 1
      in Hshr2, Hm2 by lia.
    rewrite Hshr2, Hm2, Hover. change (2 ^ 53 / 2 ^ 1) with (Zpos (2 ^ 52)).
    rewrite (proj2 (Z.leb_le _ _)) by (unfold emax, prec; lia).
    exists (2 ^ 52)%positive, (n1 + 1).
    split; [f_equal; lia|]. split; [lia|]. split; [cbn; lia|].
    rewrite Z.pow_add_r by lia. change (2 ^ 1) with 2.
    change (Zpos (2 ^ 52)) with (2 ^ 52). change (2 ^ 53) with (2 * 2 ^ 52) in *.
    nia.
  - assert (Zdigits2 m1 = 53) as Hd1
      by (apply Zdigits2_unique; [change (53 - 1) with 52|]; lia).
    rewrite Hd1, fexp_normal in Hshr2, Hm2 by lia.
    replace (Z.max (53 + (ex + n1) - 53 - (ex + n1)) 0) with 0
      in Hshr2, Hm2 by lia.
    rewrite Hshr2, Hm2. change (2 ^ 0) with 1. rewrite Z.div_1_r.
    destruct m1 as [|m|m]; [lia| |lia].
    rewrite (proj2 (Z.leb_le _ _)) by (unfold emax, prec; lia).
    exists m, n1.
    split; [f_equal; lia|]. split; [lia|]. split; [lia|]. nia.
Qed.

(** A mantissa of exactly 53 digits is not changed. *)
Lemma binary_round_aux_exact (sx : bool) (m : positive) (e : Z) :
  2 ^ 52 ≤ Zpos m < 2 ^ 53 → -1074 ≤ e ≤ 971 →
  binary_round_aux prec emax sx (Zpos m) e loc_Exact = S754_finite sx m e.
Proof.
  intros Hm He.
  assert (Zdigits2 (Zpos m) = 53) as Hd
    by (apply Zdigits2_unique; [change (53 - 1) with 52|]; lia).
  destruct (shr_fexp_spec (Zpos m) e loc_Exact ltac:(lia))
    as (mrs & Hshr & Hmrs & Hloc).
  rewrite Hd, fexp_normal in Hshr, Hmrs, Hloc by lia.
  replace (Z.max (53 + e - 53 - e) 0) with 0 in Hshr, Hmrs, Hloc by lia.
  change (2 ^ 0) with 1 in Hmrs. rewrite Z.div_1_r in Hmrs.
  rewrite Z.add_0_r in Hshr.
  unfold binary_round_aux. rewrite Hshr, Hmrs, Hloc by done.
  cbn [round_nearest_even]. rewrite Hshr, Hmrs.
  by rewrite (proj2 (Z.leb_le _ _)) by (unfold emax, prec; lia).
Qed.

Lemma Pos_iter_xO (p d : positive) :
  Zpos (Pos.iter xO p d) = Zpos p * 2 ^ Zpos d.
Proof.
  induction d as [|d IH] using Pos.peano_ind.
  - cbn [Pos.iter]. rewrite (Pos2Z.inj_xO p). cbn. lia.
  - rewrite Pos.iter_succ, (Pos2Z.inj_xO (Pos.iter xO p d)), IH.
    rewrite Pos2Z.inj_succ, Z.pow_succ_r by lia. lia.
Qed.

(** The Number of a positive integer below [2^53] is that integer, with a
    mantissa of 53 digits. *)
Lemma ofZ_pos (n : Z) :
  0 < n < 2 ^ 53 →
  ∃ m : positive,
    ofZ n = S754_finite false m (Zdigits2 n - 53)
    ∧ Zpos m = n * 2 ^ (53 - Zdigits2 n)
    ∧ 2 ^ 52 ≤ Zpos m < 2 ^ 53.
Proof.
  intros Hn. destruct n as [|p|p]; [lia| |lia].
  pose proof (Zdigits2_bounds (Zpos p) ltac:(lia)) as [Hlo Hhi].
  pose proof (Zdigits2_pos (Zpos p) ltac:(lia)) as Hdpos.
  cbn [Zdigits2] in *. set (d := Zpos (digits2_pos p)) in *.
  assert (d ≤ 53) as Hd.
  { destruct (Z.lt_ge_cases 53 d) as [Hlt|]; [|lia]. exfalso.
    assert (2 ^ 53 ≤ 2 ^ (d - 1)) by (apply Z.pow_le_mono_r; lia). lia. }
  unfold ofZ, binary_normalize, binary_round.
  fold d. rewrite Z.add_0_r, fexp_normal by lia.
  unfold shl_align. rewrite Z.sub_0_r.
  assert (2 ^ 52 = 2 ^ (d - 1) * 2 ^ (53 - d)) as Hs1
    by (rewrite <- Z.pow_add_r by lia; f_equal; lia).
  assert (2 ^ 53 = 2 ^ d * 2 ^ (53 - d)) as Hs2
    by (rewrite <- Z.pow_add_r by lia; f_equal; lia).
  assert (0 < 2 ^ (53 - d)) as Hpow by (apply Z.pow_pos_nonneg; lia).
  destruct (d - 53) as [|q|q] eqn:E; [|lia|].
  - assert (d = 53) as Hd53 by lia. rewrite Hd53 in *.
    change (2 ^ (53 - 53)) with 1 in *.
    exists p. rewrite binary_round_aux_exact by (cbn in *; lia).
    split; [done|]. split; lia.
  - assert (53 - d = Zpos q) as Hq by lia. rewrite Hq in *.
    exists (Pos.iter xO p q).
    pose proof (Pos_iter_xO p q) as Hiter.
    rewrite binary_round_aux_exact by (rewrite ?Hiter; nia).
    split; [done|]. split; [done|]. rewrite Hiter. nia.
Qed.

(** Division of two positive normal Numbers in the normal range. *)
Lemma div_bounds (m1 m2 : positive) (e1 e2 : Z) :
  2 ^ 52 ≤ Zpos m1 < 2 ^ 53 → 2 ^ 52 ≤ Zpos m2 < 2 ^ 53 →
  -1021 ≤ e1 - e2 ≤ 1020 →
  ∃ (ms : positive) (k : Z),
    div (S754_finite false m1 e1) (S754_finite false m2 e2)
    = S754_finite false ms (e1 - e2 - 53 + k)
    ∧ 0 ≤ k ≤ 2
    ∧ 2 ^ 52 ≤ Zpos ms < 2 ^ 53
    ∧ Zpos m1 * 2 ^ 53 - (1 + 2 ^ k) * Zpos m2
      < Zpos ms * 2 ^ k * Zpos m2
      ≤ Zpos m1 * 2 ^ 53 + 2 ^ k * Zpos m2.
Proof.
  intros Hm1 Hm2 He.
  assert (Zdigits2 (Zpos m1) = 53) as Hd1
    by (apply Zdigits2_unique; [change (53 - 1) with 52|]; lia).
  assert (Zdigits2 (Zpos m2) = 53) as Hd2
    by (apply Zdigits2_unique; [change (53 - 1) with 52|]; lia).
  unfold div, SFdiv, SFdiv_core_binary. rewrite Hd1, Hd2.
  replace (53 + e1 - (53 + e2)) with (e1 - e2) by lia.
  rewrite fexp_normal by lia.
  replace (Z.min (e1 - e2 - 53) (e1 - e2)) with (e1 - e2 - 53) by lia.
  replace (e1 - e2 - (e1 - e2 - 53)) with 53 by lia.
  rewrite Z.shiftl_mul_pow2 by lia.
  pose proof (Z.div_eucl_eq (Zpos m1 * 2 ^ 53) (Zpos m2) ltac:(lia)) as Heq.
  pose proof (Z.mod_pos_bound (Zpos m1 * 2 ^ 53) (Zpos m2) ltac:(lia)) as Hr.
  unfold Z.modulo in Hr.
  destruct (Z.div_eucl (Zpos m1 * 2 ^ 53) (Zpos m2)) as [q r].
  assert (2 ^ 52 ≤ q < 2 ^ 54) as Hq.
  { change (2 ^ 54) with (2 * 2 ^ 53). change (2 ^ 53) with (2 * 2 ^ 52) in *.
    nia. }
  assert (53 ≤ Zdigits2 q ≤ 54) as Hdq.
  { pose proof (Zdigits2_bounds q ltac:(lia)) as [Hlo Hhi].
    split.
    - destruct (Z.lt_ge_cases (Zdigits2 q) 53) as [Hlt|]; [|done]. exfalso.
      assert (2 ^ Zdigits2 q ≤ 2 ^ 52) by (apply Z.pow_le_mono_r; lia). lia.
    - destruct (Z.lt_ge_cases 54 (Zdigits2 q)) as [Hlt|]; [|lia]. exfalso.
      pose proof (Zdigits2_pos q ltac:(lia)).
      assert (2 ^ 54 ≤ 2 ^ (Zdigits2 q - 1))
        by (apply Z.pow_le_mono_r; lia). lia. }
  destruct (binary_round_aux_bounds (xorb false false) q (e1 - e2 - 53)
              (new_location (Zpos m2) r))
    as (ms & k & Hres & Hk & Hms & Hval); [lia|lia|lia|].
  rewrite Hres. exists ms, k.
  split; [done|]. split; [lia|]. split; [done|].
  assert (0 < 2 ^ k) by (apply Z.pow_pos_nonneg; lia).
  nia.
Qed.

(** Multiplication of two normal Numbers in the normal range. *)
Lemma mul_bounds (s1 s2 : bool) (m1 m2 : positive) (e1 e2 : Z) :
  2 ^ 52 ≤ Zpos m1 < 2 ^ 53 → 2 ^ 52 ≤ Zpos m2 < 2 ^ 53 →
  -1074 ≤ e1 + e2 ≤ 917 →
  ∃ (mx : positive) (k : Z),
    mul (S754_finite s1 m1 e1) (S754_finite s2 m2 e2)
    = S754_finite (xorb s1 s2) mx (e1 + e2 + k)
    ∧ 52 ≤ k ≤ 54
    ∧ 2 ^ 52 ≤ Zpos mx < 2 ^ 53
    ∧ Zpos m1 * Zpos m2 - 2 ^ k < Zpos mx * 2 ^ k
      ≤ Zpos m1 * Zpos m2 + 2 ^ k.
Proof.
  intros Hm1 Hm2 He. unfold mul, SFmul. rewrite Pos2Z.inj_mul.
  set (P := Zpos m1 * Zpos m2).
  assert (2 ^ 104 ≤ P < 2 ^ 106) as HP.
  { change (2 ^ 104) with (2 ^ 52 * 2 ^ 52).
    change (2 ^ 106) with (2 ^ 53 * 2 ^ 53). subst P. nia. }
  assert (105 ≤ Zdigits2 P ≤ 106) as Hd.
  { pose proof (Zdigits2_bounds P ltac:(lia)) as [Hlo Hhi].
    split.
    - destruct (Z.lt_ge_cases (Zdigits2 P) 105) as [Hlt|]; [|done]. exfalso.
      assert (2 ^ Zdigits2 P ≤ 2 ^ 104) by (apply Z.pow_le_mono_r; lia). lia.
    - destruct (Z.lt_ge_cases 106 (Zdigits2 P)) as [Hlt|]; [|lia]. exfalso.
      assert (2 ^ 106 ≤ 2 ^ (Zdigits2 P - 1))
        by (apply Z.pow_le_mono_r; lia). lia. }
  destruct (binary_round_aux_bounds (xorb s1 s2) P (e1 + e2) loc_Exact)
    as (mx & k & Hres & Hk & Hmx & Hval); [lia|lia|lia|].
  rewrite Hres. exists mx, k. split; [done|]. split; [lia|]. done.
Qed.

Lemma Zdigits2_mono (a b : Z) : 0 < a ≤ b → Zdigits2 a ≤ Zdigits2 b.
Proof.
  intros Hab.
  pose proof (Zdigits2_bounds a ltac:(lia)) as [Halo Hahi].
  pose proof (Zdigits2_bounds b ltac:(lia)) as [Hblo Hbhi].
  destruct (Z.lt_ge_cases (Zdigits2 b) (Zdigits2 a)) as [Hlt|]; [|lia].
  exfalso.
  assert (2 ^ Zdigits2 b ≤ 2 ^ (Zdigits2 a - 1))
    by (apply Z.pow_le_mono_r; lia).
  lia.
Qed.

(** Comparison of the Numbers of two positive integers is comparison of the
    integers. *)
Lemma compare_ofZ (a b : Z) :
  0 < a < 2 ^ 53 → 0 < b < 2 ^ 53 →
  SFcompare (ofZ a) (ofZ b) = Some (a ?= b).
Proof.
  intros Ha Hb.
  destruct (ofZ_pos a Ha) as (ma & -> & Hma & _).
  destruct (ofZ_pos b Hb) as (mb & -> & Hmb & _).
  pose proof (Zdigits2_bounds a ltac:(lia)) as [Halo Hahi].
  pose proof (Zdigits2_bounds b ltac:(lia)) as [Hblo Hbhi].
  cbn [SFcompare]. f_equal.
  destruct (Z.compare_spec (Zdigits2 a - 53) (Zdigits2 b - 53))
    as [Heq | Hlt | Hgt].
  - assert (Zdigits2 a = Zdigits2 b) as Hd by lia.
    rewrite Hd in Hma. change (Pos.compare_cont Eq ma mb) with (Zpos ma ?= Zpos mb).
    rewrite Hma, Hmb.
    assert (0 < 2 ^ (53 - Zdigits2 b)) as Hp.
    { apply Z.pow_pos_nonneg; [lia|].
      pose proof (Zdigits2_mono b (2 ^ 53 - 1) ltac:(lia)).
      change (Zdigits2 (2 ^ 53 - 1)) with 53 in *. lia. }
    destruct (Z.compare_spec a b) as [-> | H | H].
    + apply Z.compare_refl.
    + apply Z.compare_lt_iff. nia.
    + apply Z.compare_gt_iff. nia.
  - symmetry. apply Z.compare_lt_iff.
    assert (2 ^ Zdigits2 a ≤ 2 ^ (Zdigits2 b - 1))
      by (apply Z.pow_le_mono_r; lia). lia.
  - symmetry. apply Z.compare_gt_iff.
    assert (2 ^ Zdigits2 b ≤ 2 ^ (Zdigits2 a - 1))
      by (apply Z.pow_le_mono_r; lia). lia.
Qed.

Lemma gt_ofZ (a b : Z) :
  0 < a < 2 ^ 53 → 0 < b < 2 ^ 53 → gt (ofZ a) (ofZ b) = bool_decide (b < a).
Proof.
  intros Ha Hb. unfold gt, SFltb. rewrite compare_ofZ by done.
  destruct (Z.compare_spec b a); symmetry;
    [apply bool_decide_eq_false_2 | apply bool_decide_eq_true_2
    | apply bool_decide_eq_false_2]; lia.
Qed.

Lemma Math_max_ofZ (a b : Z) :
  0 < a < 2 ^ 53 → 0 < b < 2 ^ 53 →
  Math_max (ofZ a) (ofZ b) = ofZ (Z.max a b).
Proof.
  intros Ha Hb. unfold Math_max. rewrite compare_ofZ by done.
  destruct (Z.compare_spec a b) as [-> | H | H].
  - rewrite Z.max_id. destruct (ofZ_pos b Hb) as (m & -> & _). done.
  - by rewrite Z.max_r by lia.
  - by rewrite Z.max_l by lia.
Qed.

Lemma Math_min_ofZ (a b : Z) :
  0 < a < 2 ^ 53 → 0 < b < 2 ^ 53 →
  Math_min (ofZ a) (ofZ b) = ofZ (Z.min a b).
Proof.
  intros Ha Hb. unfold Math_min. rewrite compare_ofZ by done.
  destruct (Z.compare_spec a b) as [-> | H | H].
  - rewrite Z.min_id. destruct (ofZ_pos b Hb) as (m & -> & _). done.
  - by rewrite Z.min_l by lia.
  - by rewrite Z.min_r by lia.
Qed.

Lemma mul_le_scale (a b c : Z) : 0 ≤ c → a ≤ b → a * c ≤ b * c.
Proof. intros. by apply Z.mul_le_mono_nonneg_r. Qed.

Lemma mul_lt_scale (a b c : Z) : 0 < c → a < b → a * c < b * c.
Proof. intros. by apply Z.mul_lt_mono_pos_r. Qed.

(** The arithmetic core: from the error bounds of the division and of the
    product to the rounded result. *)
Lemma scaled_round_arith (w M A G K1 K2 T ms mx n : Z) :
  0 < w → 1024 < M < 2 ^ 32 → 1 ≤ A → 1 ≤ G →
  1 ≤ K1 ≤ 4 → 1 ≤ K2 ≤ 2 ^ 54 → 1 ≤ T →
  w * A * G < 2 ^ 53 →
  2 ^ 105 - (1 + K1) * (M * A) < ms * K1 * (M * A) ≤ 2 ^ 105 + K1 * (M * A) →
  w * A * G * ms - K2 < mx * K2 ≤ w * A * G * ms + K2 →
  T * K1 * K2 = 2 ^ 95 * G →
  2 * T * n ≤ 2 * mx + T < 2 * T * (n + 1) →
  (2 * n - 1) * M ≤ 2048 * w ≤ (2 * n + 1) * M.
Proof.
  intros Hw HM HA HG HK1 HK2 HT Hmw [Hslo Hshi] [Hxlo Hxhi] HZ [Hnlo Hnhi].
  change (2 ^ 32) with 4294967296 in HM.
  assert (0 < K1 * K2) as HKK by (apply Z.mul_pos_pos; lia).
  assert (0 < M * A) as HMA by (apply Z.mul_pos_pos; lia).
  assert (0 < K1 * (M * A)) as Hc by (apply Z.mul_pos_pos; lia).
  assert (0 < w * A * G) as Hmw0
    by (apply Z.mul_pos_pos; [apply Z.mul_pos_pos|]; lia).
  set (mw := w * A * G) in *.
  set (P := 2 ^ 105) in *.
  set (Z0 := T * K1 * K2) in *.
  assert (mw * P = A * (1024 * w * Z0)) as Hscale.
  { rewrite HZ. subst mw P. change (2 ^ 105) with (1024 * 2 ^ 95). ring. }
  (* upper bound on the product, scaled by K1 * M * A *)
  pose proof (mul_le_scale _ _ (K1 * (M * A)) ltac:(lia) Hxhi) as H1.
  pose proof (mul_le_scale _ _ mw ltac:(lia) Hshi) as H2.
  assert (A * (mx * K2 * K1 * M)
          ≤ A * (1024 * w * Z0 + mw * K1 * M + K2 * K1 * M)) as HI by lia.
  apply Z.mul_le_mono_pos_l in HI; [|lia].
  pose proof (mul_lt_scale _ _ (K1 * (M * A)) ltac:(lia) Hxlo) as H3.
  pose proof (mul_lt_scale _ _ mw ltac:(lia) Hslo) as H4.
  assert (A * (1024 * w * Z0 - mw * (1 + K1) * M - K2 * K1 * M)
          < A * (mx * K2 * K1 * M)) as HII by lia.
  apply Z.mul_lt_mono_pos_l in HII; [|lia].
  clear H1 H2 H3 H4 Hscale Hslo Hshi Hxlo Hxhi.
  (* the error term is small against [Z0] *)
  assert (2 ^ 95 ≤ Z0) as HZ0.
  { rewrite HZ. pose proof (mul_le_scale 1 G (2 ^ 95) ltac:(lia) HG). lia. }
  assert (mw * (1 + K1) * M + K2 * K1 * M < 2 ^ 93) as HE.
  { assert (mw * (1 + K1) ≤ 2 ^ 53 * 5) as Ha
      by (apply Z.mul_le_mono_nonneg; lia).
    assert (K2 * K1 ≤ 2 ^ 54 * 4) as Hb
      by (apply Z.mul_le_mono_nonneg; lia).
    assert ((mw * (1 + K1) + K2 * K1) * M
            ≤ (2 ^ 53 * 5 + 2 ^ 54 * 4) * 4294967296) as Hc'
      by (apply Z.mul_le_mono_nonneg; lia).
    lia. }
  assert (mw * K1 * M ≤ mw * (1 + K1) * M) as HE'.
  { apply mul_le_scale; [lia|]. apply Z.mul_le_mono_nonneg_l; lia. }
  assert (0 < K2 * K1 * M) as HKM
    by (apply Z.mul_pos_pos; [apply Z.mul_pos_pos|]; lia).
  split.
  - destruct (Z.le_gt_cases ((2 * n - 1) * M) (2048 * w)) as [|Hc']; [done|].
    exfalso.
    assert (2048 * w + 1 ≤ (2 * n - 1) * M) as Hc1 by lia.
    pose proof (mul_le_scale _ _ Z0 ltac:(lia) Hc1) as Hc2.
    assert ((2 * n - 1) * T ≤ 2 * mx) as Hr by lia.
    pose proof (mul_le_scale _ _ (K2 * K1 * M) ltac:(lia) Hr) as Hr2.
    assert ((2 * n - 1) * T * (K2 * K1 * M) = (2 * n - 1) * M * Z0) as Hr3
      by (subst Z0; ring).
    lia.
  - destruct (Z.le_gt_cases (2048 * w) ((2 * n + 1) * M)) as [|Hc']; [done|].
    exfalso.
    assert ((2 * n + 1) * M + 1 ≤ 2048 * w) as Hc1 by lia.
    pose proof (mul_le_scale _ _ Z0 ltac:(lia) Hc1) as Hc2.
    assert (2 * mx + 1 ≤ (2 * n + 1) * T) as Hr by lia.
    pose proof (mul_le_scale _ _ (K2 * K1 * M) ltac:(lia) Hr) as Hr2.
    assert ((2 * n + 1) * T * (K2 * K1 * M) = (2 * n + 1) * M * Z0) as Hr3
      by (subst Z0; ring).
    lia.
Qed.

Lemma pow2_bounds (k lo hi : Z) :
  0 ≤ lo ≤ k → k ≤ hi → 2 ^ lo ≤ 2 ^ k ≤ 2 ^ hi.
Proof. intros. split; apply Z.pow_le_mono_r; lia. Qed.

(** [Math.round(w * (1024 / M))] for integers [0 < w <= M], [1024 < M <
    2^32]: the result is an integer [n] nearest to [w * 1024 / M]. *)
Lemma scaled_round (w M : Z) :
  0 < w ≤ M → 1024 < M < 2 ^ 32 →
  ∃ n : Z,
    Math_round (mul (ofZ w) (div lit_1024 (ofZ M))) = ofZ n
    ∧ (2 * n - 1) * M ≤ 2048 * w ≤ (2 * n + 1) * M.
Proof.
  intros Hw HM.
  assert (2 ^ 32 < 2 ^ 53) as H3253 by done.
  destruct (ofZ_pos w ltac:(lia)) as (mw & -> & Hmw & Hmwb).
  destruct (ofZ_pos M ltac:(lia)) as (mM & -> & HmM & HmMb).
  pose proof (Zdigits2_pos w ltac:(lia)) as Hdw0.
  pose proof (Zdigits2_mono w M ltac:(lia)) as HdwM.
  pose proof (Zdigits2_mono 1024 M ltac:(lia)) as HdM1.
  pose proof (Zdigits2_mono M (2 ^ 32 - 1) ltac:(lia)) as HdM2.
  change (Zdigits2 1024) with 11 in HdM1.
  change (Zdigits2 (2 ^ 32 - 1)) with 32 in HdM2.
  set (dw := Zdigits2 w) in *. set (dM := Zdigits2 M) in *.
  change lit_1024 with (S754_finite false (2 ^ 52) (-42)).
  destruct (div_bounds (2 ^ 52) mM (-42) (dM - 53))
    as (ms & k1 & -> & Hk1 & Hms & Hsv); [done|done|lia|].
  destruct (mul_bounds false false mw ms (dw - 53)
              (-42 - (dM - 53) - 53 + k1))
    as (mx & k2 & -> & Hk2 & Hmx & Hxv); [done|done|lia|].
  set (ex := dw - 53 + (-42 - (dM - 53) - 53 + k1) + k2).
  assert (ex < 0) as Hex by (subst ex; lia).
  unfold Math_round. rewrite (proj2 (Z.leb_gt 0 ex)) by done.
  cbn [cond_Zopp xorb].
  replace (1 - ex) with (Z.succ (- ex)) by lia.
  rewrite Z.pow_succ_r by lia.
  set (T := 2 ^ (- ex)).
  assert (1 ≤ T) as HT
    by (subst T; pose proof (pow2_bounds (- ex) 0 (- ex)); lia).
  set (n := (2 * Zpos mx + T) / (2 * T)).
  exists n. split.
  { destruct (n =? 0) eqn:E; [|done]. apply Z.eqb_eq in E. by rewrite E. }
  pose proof (Z.div_mod (2 * Zpos mx + T) (2 * T) ltac:(lia)) as Hdm.
  pose proof (Z.mod_pos_bound (2 * Zpos mx + T) (2 * T) ltac:(lia)) as Hmb.
  fold n in Hdm.
  apply (scaled_round_arith w M (2 ^ (53 - dM)) (2 ^ (dM - dw))
           (2 ^ k1) (2 ^ k2) T (Zpos ms) (Zpos mx) n).
  - lia.
  - done.
  - pose proof (pow2_bounds (53 - dM) 0 (53 - dM)); lia.
  - pose proof (pow2_bounds (dM - dw) 0 (dM - dw)); lia.
  - pose proof (pow2_bounds k1 0 2); lia.
  - pose proof (pow2_bounds k2 0 54); lia.
  - done.
  - rewrite <- Z.mul_assoc, <- Z.pow_add_r by lia.
    replace (53 - dM + (dM - dw)) with (53 - dw) by lia.
    rewrite <- Hmw. lia.
  - rewrite <- HmM. change (2 ^ 105) with (Zpos (2 ^ 52) * 2 ^ 53). lia.
  - rewrite <- (Z.mul_assoc w), <- Z.pow_add_r by lia.
    replace (53 - dM + (dM - dw)) with (53 - dw) by lia.
    rewrite <- Hmw. lia.
  - subst T. rewrite <- !Z.pow_add_r by lia. f_equal. subst ex. lia.
  - lia.
Qed.

(** [ofZ 0] is [+0], so that [Math.round] returns [ofZ n] also for 0. *)
Lemma ofZ_0 : ofZ 0 = S754_zero false.
Proof. reflexivity. Qed.

Lemma roundHalfUp_unique (a d n : Z) :
  0 < d → (2 * n - 1) * d ≤ 2 * a < (2 * n + 1) * d → roundHalfUp a d = n.
Proof.
  intros Hd [Hlo Hhi]. unfold roundHalfUp.
  symmetry. apply (Z.div_unique _ _ n (2 * a + d - 2 * d * n)); lia.
Qed.

Lemma allTies_lookup (f : Z → Z → bool) :
  allTies f = true →
  ∀ j k, 1 ≤ j ≤ 48 → 0 ≤ k ≤ 1023 → f j k = true.
Proof.
  unfold allTies. intros Hall j k Hj Hk.
  rewrite forallb_forall in Hall.
  assert (In j (seqZ 1 48)) as Hin1
    by (apply list_elem_of_In, elem_of_seqZ; lia).
  specialize (Hall j Hin1). rewrite forallb_forall in Hall.
  apply Hall. apply list_elem_of_In, elem_of_seqZ. lia.
Qed.

Lemma allTies_roundUp : allTies tieRoundsUp = true.
Proof. vm_cast_no_check (eq_refl true). Qed.

Lemma tieTable_lookup (j k : Z) :
  1 ≤ j ≤ 48 → 0 ≤ k ≤ 1023 →
  Math_round (mul (ofZ ((2 * k + 1) * j)) (div lit_1024 (ofZ (2048 * j))))
  = ofZ (k + 1).
Proof.
  intros Hj Hk.
  apply (bool_decide_eq_true_1
           (Math_round
              (mul (ofZ ((2 * k + 1) * j)) (div lit_1024 (ofZ (2048 * j))))
            = ofZ (k + 1))).
  exact (allTies_lookup tieRoundsUp allTies_roundUp j k Hj Hk).
Qed.

(** An odd multiple of [M] that is a multiple of [2 c] makes [M] even. *)
Lemma tie_halve (c w k M : Z) :
  2 * c * w = (2 * k + 1) * M →
  ∃ M1, M = 2 * M1 ∧ c * w = (2 * k + 1) * M1.
Proof.
  intros H. exists (M / 2).
  assert (M mod 2 = 0) as Hm.
  { replace M with (0 + (c * w - k * M) * 2) at 1 by lia.
    by rewrite Z.mod_add. }
  pose proof (Z.div_mod M 2 ltac:(lia)) as Hd. rewrite Hm in Hd.
  generalize dependent (M / 2). intros M1 Hd.
  assert (M = 2 * M1) as -> by lia. split; [done|lia].
Qed.

Lemma tie_shape (w k M : Z) :
  2048 * w = (2 * k + 1) * M → ∃ j, M = 2048 * j ∧ w = (2 * k + 1) * j.
Proof.
  intros H.
  destruct (tie_halve 1024 w k M ltac:(lia)) as (M1 & -> & H1).
  destruct (tie_halve 512 w k M1 ltac:(lia)) as (M2 & -> & H2).
  destruct (tie_halve 256 w k M2 ltac:(lia)) as (M3 & -> & H3).
  destruct (tie_halve 128 w k M3 ltac:(lia)) as (M4 & -> & H4).
  destruct (tie_halve 64 w k M4 ltac:(lia)) as (M5 & -> & H5).
  destruct (tie_halve 32 w k M5 ltac:(lia)) as (M6 & -> & H6).
  destruct (tie_halve 16 w k M6 ltac:(lia)) as (M7 & -> & H7).
  destruct (tie_halve 8 w k M7 ltac:(lia)) as (M8 & -> & H8).
  destruct (tie_halve 4 w k M8 ltac:(lia)) as (M9 & -> & H9).
  destruct (tie_halve 2 w k M9 ltac:(lia)) as (M10 & -> & H10).
  destruct (tie_halve 1 w k M10 ltac:(lia)) as (M11 & -> & H11).
  exists M11. split; lia.
Qed.

(** Below a longer edge of 100352 pixels the result is [Math.round] of the
    exact quotient. *)
Lemma scaled_round_exact (w M : Z) :
  0 < w ≤ M → 1024 < M < 100352 →
  Math_round (mul (ofZ w) (div lit_1024 (ofZ M)))
  = ofZ (roundHalfUp (w * 1024) M).
Proof.
  intros Hw HM.
  destruct (scaled_round w M Hw ltac:(lia)) as (n & Hn & Hlo & Hhi).
  destruct (Z.eq_dec (2048 * w) ((2 * n + 1) * M)) as [Htie | Hne].
  - rewrite (roundHalfUp_unique _ _ (n + 1)) by lia.
    destruct (tie_shape w n M Htie) as (j & -> & ->).
    assert (0 < j) as Hj by lia.
    assert (0 < 2 * n + 1) as Hn0
      by (apply (proj1 (Z.mul_pos_cancel_r (2 * n + 1) j Hj)); lia).
    assert (2 * n + 1 ≤ 2048) as Hn1
      by (apply (Z.mul_le_mono_pos_r _ _ j); lia).
    apply tieTable_lookup; lia.
  - rewrite (roundHalfUp_unique _ _ n) by lia. exact Hn.
Qed.

Lemma roundHalfUp_bounds (a d : Z) :
  0 < d →
  (2 * roundHalfUp a d - 1) * d ≤ 2 * a < (2 * roundHalfUp a d + 1) * d.
Proof.
  intros Hd. unfold roundHalfUp.
  pose proof (Z.div_mod (2 * a + d) (2 * d) ltac:(lia)) as Hdm.
  pose proof (Z.mod_pos_bound (2 * a + d) (2 * d) ltac:(lia)) as Hmb.
  lia.
Qed.

Lemma nearest_full (n M : Z) :
  0 < M → (2 * n - 1) * M ≤ 2048 * M ≤ (2 * n + 1) * M → n = 1024.
Proof.
  intros HM [Ha Hb].
  apply Z.mul_le_mono_pos_r in Ha; [|done].
  apply Z.mul_le_mono_pos_r in Hb; [|done]. lia.
Qed.

Lemma nearest_le (n w M : Z) :
  0 < M → w ≤ M → (2 * n - 1) * M ≤ 2048 * w → n ≤ 1024.
Proof.
  intros HM Hw Ha.
  assert ((2 * n - 1) * M ≤ 2048 * M) as Hb by lia.
  apply Z.mul_le_mono_pos_r in Hb; [|done]. lia.
Qed.

(** The result of the resize step for one edge. *)
Lemma scaled_round_full (w M : Z) :
  0 < w ≤ M → 1024 < M < 2 ^ 32 →
  ∃ n : Z,
    Math_round (mul (ofZ w) (div lit_1024 (ofZ M))) = ofZ n
    ∧ (2 * n - 1) * M ≤ 2048 * w ≤ (2 * n + 1) * M
    ∧ ((2048 * w + M) mod (2 * M) ≠ 0 → n = roundHalfUp (w * 1024) M)
    ∧ (M < 100352 → n = roundHalfUp (w * 1024) M).
Proof.
  intros Hw HM. destruct (Z_lt_dec M 100352) as [Hsmall | Hlarge].
  - exists (roundHalfUp (w * 1024) M).
    split; [apply scaled_round_exact; lia|].
    pose proof (roundHalfUp_bounds (w * 1024) M ltac:(lia)).
    split; [lia|]. done.
  - destruct (scaled_round w M Hw HM) as (n & Hn & Hlo & Hhi).
    exists n. split; [done|]. split; [done|]. split; [|lia].
    intros Htie. symmetry. apply roundHalfUp_unique; [lia|].
    split; [lia|].
    destruct (Z.eq_dec (2048 * w) ((2 * n + 1) * M)) as [He|]; [|lia].
    exfalso. apply Htie.
    replace (2048 * w + M) with ((n + 1) * (2 * M)) by lia.
    apply Z.mod_mul. lia.
Qed.

(** C2 (as amended): for a bitmap of [w] by [h] pixels ([0 < w, h < 2^32])
    the resize step of [fileToGenerativePart] and of [removeObjectAtPoint]
    returns integer dimensions [w'], [h']. If both edges are at most 1024
    they are [w] and [h]. Otherwise, with [M] the longer edge, the longer
    output edge is exactly 1024; if [M < 100352] then [w'] and [h'] are
    [round(w * 1024 / M)] and [round(h * 1024 / M)], with [round] the
    rounding of [Math.round]; and for every [M], [w'] is an integer nearest
    to [w * 1024 / M] ([|w' - w * 1024 / M| <= 1/2]), equal to
    [round(w * 1024 / M)] unless that quotient lies exactly half-way
    between two integers, and the same holds for [h']. *)
Theorem resizeDimensions_nearest (w h : Z) :
  0 < w < 2 ^ 32 → 0 < h < 2 ^ 32 →
  let M := Z.max w h in
  ∃ w' h' : Z,
    resizeDimensions (ofZ w) (ofZ h) = (ofZ w', ofZ h')
    ∧ (M ≤ 1024 → w' = w ∧ h' = h)
    ∧ (1024 < M →
         Z.max w' h' = 1024
         ∧ (M < 100352 →
            w' = roundHalfUp (w * 1024) M ∧ h' = roundHalfUp (h * 1024) M)
         ∧ (2 * w' - 1) * M ≤ 2048 * w ≤ (2 * w' + 1) * M
         ∧ (2 * h' - 1) * M ≤ 2048 * h ≤ (2 * h' + 1) * M
         ∧ ((2048 * w + M) mod (2 * M) ≠ 0 →
            w' = roundHalfUp (w * 1024) M)
         ∧ ((2048 * h + M) mod (2 * M) ≠ 0 →
            h' = roundHalfUp (h * 1024) M)).
Proof.
  intros Hw Hh M.
  assert (2 ^ 32 < 2 ^ 53) as H3253 by done.
  assert (0 < 1024 < 2 ^ 53) as H1024 by done.
  unfold resizeDimensions.
  change lit_1024 with (ofZ 1024) at 1 2.
  rewrite !gt_ofZ by lia.
  destruct (Z_le_dec M 1024) as [Hle | Hgt].
  - rewrite !bool_decide_eq_false_2 by lia. cbn [orb].
    exists w, h. split; [done|]. split; [done|]. lia.
  - assert (bool_decide (1024 < w) || bool_decide (1024 < h) = true) as ->.
    { destruct (Z_lt_dec 1024 w) as [H|H].
      - by rewrite (bool_decide_eq_true_2 _ H).
      - rewrite (bool_decide_eq_false_2 _ H).
        rewrite bool_decide_eq_true_2 by lia. done. }
    rewrite Math_max_ofZ by lia. fold M.
    destruct (scaled_round_full w M ltac:(lia) ltac:(lia))
      as (w' & -> & Hw' & Hwtie & Hwsmall).
    destruct (scaled_round_full h M ltac:(lia) ltac:(lia))
      as (h' & -> & Hh' & Hhtie & Hhsmall).
    exists w', h'. split; [done|]. split; [lia|]. intros _.
    split; [|split; [by auto|done]].
    assert (0 < M) as HM0 by lia.
    destruct (Z.max_spec w h) as [[_ HMeq] | [_ HMeq]]; fold M in HMeq.
    + (* the longer edge is the height *)
      rewrite <- HMeq in Hh'.
      rewrite (nearest_full h' M HM0 Hh').
      pose proof (nearest_le w' w M HM0 ltac:(lia) (proj1 Hw')). lia.
    + rewrite <- HMeq in Hw'.
      rewrite (nearest_full w' M HM0 Hw').
      pose proof (nearest_le h' h M HM0 ltac:(lia) (proj1 Hh')). lia.
Qed.

Lemma resizeDimensions_nearest_witness :
  ∃ w' h' : Z,
    resizeDimensions (ofZ 4000) (ofZ 3000) = (ofZ w', ofZ h')
    ∧ (4000 ≤ 1024 → w' = 4000 ∧ h' = 3000)
    ∧ (1024 < 4000 →
         Z.max w' h' = 1024
         ∧ (4000 < 100352 →
            w' = roundHalfUp (4000 * 1024) 4000
            ∧ h' = roundHalfUp (3000 * 1024) 4000)
         ∧ (2 * w' - 1) * 4000 ≤ 2048 * 4000 ≤ (2 * w' + 1) * 4000
         ∧ (2 * h' - 1) * 4000 ≤ 2048 * 3000 ≤ (2 * h' + 1) * 4000
         ∧ ((2048 * 4000 + 4000) mod (2 * 4000) ≠ 0 →
            w' = roundHalfUp (4000 * 1024) 4000)
         ∧ ((2048 * 3000 + 4000) mod (2 * 4000) ≠ 0 →
            h' = roundHalfUp (3000 * 1024) 4000)).
Proof. apply (resizeDimensions_nearest 4000 3000); done. Defined.

(** C2 (as stated) fails: for a bitmap of 49 by 100352 pixels the quotient
    [49 * 1024 / 100352] is exactly 1/2, which [Math.round] would take to
    1, but the binary64 product [49 * (1024 / 100352)] is just below 1/2
    and the output width is 0. *)
Lemma resizeRule_counterexample : ¬ resizeRule 49 100352.
Proof. unfold resizeRule. vm_compute. discriminate. Qed.

(** No rounding rule on the exact quotient describes the result: the bitmaps
    3 by 2048 and 147 by 100352 have the same quotient 3/2 and get the
    widths 2 and 1. *)
Lemma resizeDimensions_tie_both_ways :
  resizeDimensions (ofZ 3) (ofZ 2048) = (ofZ 2, ofZ 1024)
  ∧ resizeDimensions (ofZ 147) (ofZ 100352) = (ofZ 1, ofZ 1024)
  ∧ 3 * 1024 * 100352 = 147 * 1024 * 2048.
Proof. by vm_compute. Qed.

(** *** The radius of the marker

    No operation of the resize step or of the marker produces NaN from
    numbers, and [Math.max(20, v)] is at least 20 for every number [v]. *)

Lemma binary_round_aux_not_nan (sx : bool) (mx ex : Z) (lx : location) :
  0 ≤ mx → binary_round_aux prec emax sx mx ex lx ≠ S754_nan.
Proof.
  intros Hmx. unfold binary_round_aux.
  destruct (shr_fexp_spec mx ex lx Hmx) as (mrs1 & -> & Hm1 & _).
  assert (0 ≤ shr_m mrs1) as H1.
  { rewrite Hm1. apply Z.div_pos; [done|]. apply Z.pow_pos_nonneg; lia. }
  set (m1 := round_nearest_even (shr_m mrs1) (loc_of_shr_record mrs1)).
  assert (0 ≤ m1) as Hm1'
    by (destruct (round_nearest_even_cases (shr_m mrs1)
                    (loc_of_shr_record mrs1)); subst m1; lia).
  destruct (shr_fexp_spec m1
              (ex + Z.max (fexp prec emax (Zdigits2 mx + ex) - ex) 0)
              loc_Exact Hm1') as (mrs2 & -> & Hm2 & _).
  assert (0 ≤ shr_m mrs2) as H2.
  { rewrite Hm2. apply Z.div_pos; [done|]. apply Z.pow_pos_nonneg; lia. }
  destruct (shr_m mrs2); [done| |lia].
  by destruct (_ <=? _).
Qed.

Lemma mul_finite_not_nan (x : spec_float) (s : bool) (m : positive) (e : Z) :
  x ≠ S754_nan → mul x (S754_finite s m e) ≠ S754_nan.
Proof.
  intros Hx. destruct x as [sx|sx| |sx mx ex]; cbn; try done.
  by apply binary_round_aux_not_nan.
Qed.

Lemma compare_not_nan (a b : spec_float) :
  a ≠ S754_nan → b ≠ S754_nan → SFcompare a b ≠ None.
Proof.
  intros Ha Hb.
  destruct a as [sa|sa| |sa ma ea], b as [sb|sb| |sb mb eb]; cbn; done.
Qed.

Lemma Math_min_not_nan (a b : spec_float) :
  a ≠ S754_nan → b ≠ S754_nan → Math_min a b ≠ S754_nan.
Proof.
  intros Ha Hb. unfold Math_min.
  pose proof (compare_not_nan a b Ha Hb) as Hc.
  destruct (SFcompare a b) as [[]|]; try done.
  by destruct a as [[]| | |].
Qed.

Lemma Math_max_20 (v : spec_float) :
  v ≠ S754_nan → SFleb (ofZ 20) (Math_max (ofZ 20) v) = true.
Proof.
  intros Hv. unfold Math_max, SFleb.
  pose proof (compare_not_nan (ofZ 20) v ltac:(done) Hv) as Hc.
  destruct (SFcompare (ofZ 20) v) as [[]|] eqn:E; try done.
  by rewrite E.
Qed.

(** The radius of the marker is at least 20 on every canvas, whatever its
    dimensions. *)
Lemma radius_at_least_20 (width height x y : spec_float) :
  width ≠ S754_nan → height ≠ S754_nan →
  SFleb (ofZ 20) (radius (markerAt width height x y)) = true.
Proof.
  intros Hw Hh. unfold markerAt. cbn [radius].
  apply Math_max_20, mul_finite_not_nan. by apply Math_min_not_nan.
Qed.

Lemma ofZ_not_nan (n : Z) : ofZ n ≠ S754_nan.
Proof.
  unfold ofZ, binary_normalize, binary_round.
  destruct n as [|p|p]; [done| |];
    destruct (shl_align _ _ _) as [mz ez];
    by apply binary_round_aux_not_nan.
Qed.

End NumberFacts.

(** ** The photo store *)

Section StoreFacts.
Import Store.

Lemma idIs_true (i : string) (p : Photo) : idIs i p = true ↔ id p = i.
Proof. unfold idIs. apply bool_decide_eq_true. Qed.

Lemma idIs_false (i : string) (p : Photo) : idIs i p = false ↔ id p ≠ i.
Proof. unfold idIs. apply bool_decide_eq_false. Qed.

(** [findIndex] either finds nothing and answers [-1], or answers the first
    position of an element that satisfies the predicate. *)
Lemma findIndexFrom_spec {A} (pred : A → bool) (arr : list A) (i : Z) :
  0 ≤ i →
  (findIndexFrom pred arr i = -1 ∧ Forall (λ x, pred x = false) arr)
  ∨ (∃ (k : nat) (x : A),
        findIndexFrom pred arr i = i + Z.of_nat k
        ∧ arr !! k = Some x ∧ pred x = true
        ∧ Forall (λ y, pred y = false) (take k arr)).
Proof.
  revert i. induction arr as [|a arr IH]; intros i Hi; cbn [findIndexFrom].
  - left. split; [done | constructor].
  - destruct (pred a) eqn:Ha.
    + right. exists 0%nat, a. cbn. repeat split; [lia | done | constructor].
    + destruct (IH (i + 1) ltac:(lia)) as [[H1 H2] | (k & x & H1 & H2 & H3 & H4)].
      * left. split; [done | by constructor].
      * right. exists (S k), x. cbn. repeat split; [lia | done | done |].
        by constructor.
Qed.

Lemma findIndex_spec {A} (pred : A → bool) (arr : list A) :
  (findIndex pred arr = -1 ∧ Forall (λ x, pred x = false) arr)
  ∨ (∃ (k : nat) (x : A),
        findIndex pred arr = Z.of_nat k
        ∧ arr !! k = Some x ∧ pred x = true
        ∧ Forall (λ y, pred y = false) (take k arr)).
Proof.
  unfold findIndex.
  destruct (findIndexFrom_spec pred arr 0 ltac:(lia))
    as [H | (k & x & H1 & H)]; [by left|].
  right. exists k, x. by rewrite H1, Z.add_0_l.
Qed.

Lemma findIndex_absent (i : string) (arr : list Photo) :
  i ∉ id <$> arr → findIndex (idIs i) arr = -1.
Proof.
  intros Hi.
  destruct (findIndex_spec (idIs i) arr) as [[H _] | (k & x & _ & Hk & Hx & _)];
    [done|].
  exfalso. apply Hi. apply idIs_true in Hx. subst i.
  apply list_elem_of_fmap. exists x. split; [done|].
  by eapply list_elem_of_lookup_2.
Qed.

Lemma splice_insert {A} (arr : list A) (start : Z) (items : list A) :
  ∃ n : nat, splice arr start 0 items = ([], take n arr ++ items ++ drop n arr).
Proof.
  unfold splice. set (len := Z.of_nat (length arr)).
  exists (spliceStart len start).
  assert (Z.of_nat (spliceStart len start) ≤ len) as Hle.
  { unfold spliceStart. subst len. destruct (start <? 0) eqn:E; lia. }
  replace (Z.to_nat (Z.min (Z.max 0 0) (len - Z.of_nat (spliceStart len start))))
    with 0%nat by lia.
  by rewrite Nat.add_0_r.
Qed.

Lemma splice_remove_one {A} (arr : list A) (k : nat) (x : A) :
  arr !! k = Some x →
  splice arr (Z.of_nat k) 1 [] = ([x], take k arr ++ drop (S k) arr).
Proof.
  intros Hk. pose proof (lookup_lt_Some _ _ _ Hk) as Hlt.
  unfold splice. set (len := Z.of_nat (length arr)).
  assert (spliceStart len (Z.of_nat k) = k) as ->.
  { unfold spliceStart. subst len. destruct (Z.of_nat k <? 0) eqn:E; lia. }
  replace (Z.to_nat (Z.min (Z.max 1 0) (len - Z.of_nat k))) with 1%nat
    by (subst len; lia).
  rewrite Nat.add_1_r. cbn [app]. f_equal.
  erewrite drop_S by done. reflexivity.
Qed.

(** [handleReorder] moves one record and changes nothing else. *)
Lemma handleReorder_spec (fromId toId : string) (prev : AppState) :
  ∃ next,
    handleReorder fromId toId prev = Some next
    ∧ photos next ≡ₚ photos prev
    ∧ next = with_photos prev (photos next)
    ∧ (fromId = toId ∨ fromId ∉ id <$> photos prev ∨ toId ∉ id <$> photos prev
       → next = prev).
Proof.
  unfold handleReorder.
  destruct (bool_decide_reflect
              (findIndex (idIs fromId) (photos prev) = -1
               ∨ findIndex (idIs toId) (photos prev) = -1
               ∨ findIndex (idIs fromId) (photos prev)
                 = findIndex (idIs toId) (photos prev))) as [Hg | Hg].
  - exists prev.
    split; [done|]. split; [done|]. split; [by destruct prev | done].
  - destruct (findIndex_spec (idIs fromId) (photos prev))
      as [[H _] | (k & x & Hfrom & Hk & _ & _)]; [tauto|].
    rewrite Hfrom, (splice_remove_one _ _ _ Hk).
    destruct (splice_insert (take k (photos prev) ++ drop (S k) (photos prev))
                (findIndex (idIs toId)
                   (take k (photos prev) ++ drop (S k) (photos prev))) [x])
      as [n ->].
    eexists. split; [done|]. cbn [photos with_photos].
    split; [|split; [done|]].
    + cbn [app]. rewrite <- Permutation_middle, take_drop.
      rewrite Permutation_middle.
      by rewrite (take_drop_middle _ _ _ Hk).
    + intros [-> | [H | H]]; exfalso; apply Hg.
      * tauto.
      * left. by apply findIndex_absent.
      * right; left. by apply findIndex_absent.
Qed.

(** C10: [handleReorder] always returns a state; its photos are a
    permutation of the photos before, each record as it was, and no other
    field of the state changes; the state is returned as it was when the two
    identifiers are equal or one of them is not the identifier of a photo. *)
Theorem handleReorder_permutation (fromId toId : string) (prev : AppState) :
  ∃ next,
    handleReorder fromId toId prev = Some next
    ∧ photos next ≡ₚ photos prev
    ∧ next = with_photos prev (photos next)
    ∧ (fromId = toId ∨ fromId ∉ id <$> photos prev ∨ toId ∉ id <$> photos prev
       → next = prev).
Proof. apply handleReorder_spec. Qed.

Lemma map_by_id_absent (j : string) (f : Photo → Photo) (l : list Photo) :
  j ∉ id <$> l → (λ p, if idIs j p then f p else p) <$> l = l.
Proof.
  induction l as [|p l IH]; [done|].
  rewrite fmap_cons, not_elem_of_cons. intros [Hp Hl].
  cbn. rewrite IH by done.
  destruct (idIs j p) eqn:E; [|done].
  apply idIs_true in E. congruence.
Qed.

(** C7: an update by an identifier that no photo of the state has leaves the
    photos as they were, for each updater that addresses a photo by its
    identifier: the category update of the queue and of [onUpdateCategory]
    returns the state itself, and [saveEditedPhoto] returns a state with the
    same photos. The updaters are total functions: nothing is raised. *)
Theorem update_missing_id_noop (prev : AppState) (i cat : string)
    (updatedPhoto : Photo) :
  i ∉ id <$> photos prev →
  id updatedPhoto = i →
  setCategoryById i cat prev = prev
  ∧ photos (saveEditedPhoto updatedPhoto prev) = photos prev.
Proof.
  intros Hi Hid. split.
  - unfold setCategoryById.
    rewrite (map_by_id_absent i (λ p, with_category p cat)) by done.
    by destruct prev.
  - unfold saveEditedPhoto. cbn [photos with_view with_photos].
    rewrite Hid. by rewrite (map_by_id_absent i (λ _, updatedPhoto)).
Qed.

(** The photo "p0o9i8u7y" is deleted while a call for it is in flight:
    the store still holds the photo "k3j9x0q1z", and neither update
    changes it. *)
Lemma update_missing_id_noop_witness :
  let late :=
    Ui.uploadedPhoto
      ("p0o9i8u7y", "data:image/jpeg;base64,BBBB", "hill.jpg") in
  let prev :=
    deletePhoto "p0o9i8u7y"
      (appendPhotos [late] (Ui.app Ui.sampleState)) in
  let updated := with_url late "data:image/png;base64,CCCC" in
  photos prev = [Ui.samplePhoto]
  ∧ setCategoryById "p0o9i8u7y" "People" prev = prev
  ∧ photos (saveEditedPhoto updated prev) = photos prev.
Proof.
  intros late prev updated. split; [vm_compute; reflexivity|].
  apply (update_missing_id_noop prev "p0o9i8u7y" "People" updated).
  - apply (bool_decide_unpack _). vm_compute. exact I.
  - reflexivity.
Defined.

(** C8: deleting the custom category [c] removes [c] from the list of custom
    categories and keeps every other label of the list; every photo whose
    category is [c] gets the category "Uncategorized" and is otherwise as it
    was, every other photo is as it was, and the photos keep their number
    and order. *)
Theorem handleDeleteCustomCategory_reassigns (c : string)
    (cats : list string) (prev : AppState) :
  let next := handleDeleteCustomCategory c (cats, prev) in
  (c ∉ next.1)
  ∧ (∀ c', c' ≠ c → c' ∈ next.1 ↔ c' ∈ cats)
  ∧ length (photos next.2) = length (photos prev)
  ∧ (∀ (k : nat) (p : Photo), photos prev !! k = Some p →
       (category p = c →
        photos next.2 !! k = Some (with_category p "Uncategorized"))
       ∧ (category p ≠ c → photos next.2 !! k = Some p))
  ∧ next.2 = with_photos prev (photos next.2).
Proof.
  cbn [handleDeleteCustomCategory fst snd].
  unfold deleteCustomCategory_list, deleteCustomCategory_state.
  cbn [photos with_photos].
  split; [|split; [|split; [|split]]].
  - rewrite list_elem_of_filter. tauto.
  - intros c' Hc'. rewrite list_elem_of_filter. tauto.
  - apply length_fmap.
  - intros k p Hk. rewrite list_lookup_fmap, Hk. cbn [fmap option_fmap option_map].
    split; intros Hc.
    + by rewrite bool_decide_eq_true_2.
    + by rewrite bool_decide_eq_false_2.
  - reflexivity.
Qed.

(** After the deletion no photo is labelled [c], unless [c] is the label
    "Uncategorized" itself (which the interface never offers as a custom
    category). *)
Lemma handleDeleteCustomCategory_no_label (c : string) (cats : list string)
    (prev : AppState) (p : Photo) :
  c ≠ UNCATEGORIZED →
  p ∈ photos (handleDeleteCustomCategory c (cats, prev)).2 →
  category p ≠ c.
Proof.
  intros Hc. cbn [handleDeleteCustomCategory snd].
  unfold deleteCustomCategory_state. cbn [photos with_photos].
  rewrite list_elem_of_fmap. intros (q & -> & _).
  destruct (bool_decide_reflect (category q = c)); cbn; congruence.
Qed.

End StoreFacts.

(** ** The original image of a photo *)

Section UiFacts.
Import Store Ui.

Lemma find_idIs_Some (i : string) (l : list Photo) (p : Photo) :
  find (idIs i) l = Some p → p ∈ l ∧ id p = i.
Proof.
  induction l as [|q l IH]; cbn [find]; [done|].
  destruct (idIs i q) eqn:E.
  - intros [= ->]. split; [left | by apply idIs_true].
  - intros H. destruct (IH H). split; [by right | done].
Qed.

Lemma find_idIs_elem (i : string) (l : list Photo) :
  i ∈ id <$> l → is_Some (find (idIs i) l).
Proof.
  induction l as [|q l IH]; cbn [find fmap list_fmap].
  - by intros ?%elem_of_nil.
  - destruct (idIs i q) eqn:E; [by eexists|].
    apply idIs_false in E. rewrite elem_of_cons. intros [->|H]; [done|].
    by apply IH.
Qed.

Lemma NoDup_id_inj (l : list Photo) (p q : Photo) :
  NoDup (id <$> l) → p ∈ l → q ∈ l → id p = id q → p = q.
Proof.
  induction l as [|a l IH]; [by intros _ ?%elem_of_nil|].
  rewrite fmap_cons, NoDup_cons, !elem_of_cons.
  intros [Ha Hl] [->|Hp] [->|Hq] Hid; [done| | |by apply IH].
  - exfalso. apply Ha. rewrite Hid. by apply list_elem_of_fmap_2.
  - exfalso. apply Ha. rewrite <- Hid. by apply list_elem_of_fmap_2.
Qed.

(** A [map] that keeps identifier and original image of every photo keeps
    the identifiers of the array, and every photo has its image under it. *)
Lemma map_keeps (f : Photo → Photo) (l : list Photo) :
  (∀ p, p ∈ l → id (f p) = id p ∧ originalUrl (f p) = originalUrl p) →
  id <$> (f <$> l) = id <$> l
  ∧ ∀ p, p ∈ l →
      ∃ p', p' ∈ f <$> l ∧ id p' = id p ∧ originalUrl p' = originalUrl p.
Proof.
  intros Hf. split.
  - rewrite <- list_fmap_compose. apply Forall_fmap_ext_1, Forall_forall.
    intros p Hp. by destruct (Hf p Hp).
  - intros p Hp. exists (f p). destruct (Hf p Hp).
    split; [by apply list_elem_of_fmap_2 | done].
Qed.

Lemma with_category_keeps (p : Photo) (c : string) :
  id (with_category p c) = id p
  ∧ originalUrl (with_category p c) = originalUrl p.
Proof. done. Qed.

(** Every editor handler keeps the identifier of the photo under edit, and
    keeps its original image when the [photo] property has the same. *)
Lemma editorStep_keeps (op : EditorOp) (photo prev : Photo) :
  id photo = id prev → originalUrl photo = originalUrl prev →
  id (editorStep op photo prev) = id prev
  ∧ originalUrl (editorStep op photo prev) = originalUrl prev.
Proof.
  intros Hid Horig.
  destruct op as [| | | |[]| | |[a|]|[a|]|[a|]|[a|]| |]; cbn;
    unfold speechResolved, imageResolved, transcribeResolved; cbn;
    repeat match goal with |- context [if ?b then _ else _] => destruct b end;
    done.
Qed.

(** A successful stylization or object removal changes the [url] of the
    photo under edit and no other field. *)
Lemma imageResolved_only_url (u : string) (prev : Photo) :
  u ≠ "" →
  imageResolved (Some u) prev = with_url prev u.
Proof.
  intros Hu. unfold imageResolved, truthy.
  by rewrite bool_decide_eq_false_2.
Qed.

Lemma uploadedPhoto_ids (files : list (string * string * string)) :
  id <$> (uploadedPhoto <$> files) = files.*1.*1.
Proof.
  induction files as [|[[i u] n] files IH]; [done|].
  cbn. f_equal. exact IH.
Qed.

Lemma imap_ids {A} (g : nat → A * string → Photo) (l : list (A * string)) :
  (∀ i x, id (g i x) = x.2) → id <$> imap g l = l.*2.
Proof.
  revert g. induction l as [|x l IH]; intros g Hg; [done|].
  rewrite imap_cons, !fmap_cons. f_equal; [apply Hg|].
  apply IH. intros i y. apply Hg.
Qed.

Lemma demoPhotos_ids (ids : list string) :
  length ids = length demoData → id <$> demoPhotos ids = ids.
Proof.
  intros Hlen. unfold demoPhotos. rewrite imap_ids.
  - apply snd_zip. lia.
  - by intros i [[[u c] t] newId].
Qed.

Lemma wf_gallery_no_editor (s : State) :
  wf s → inGallery s → editedPhoto s = None.
Proof.
  intros [_ Hed] Hg. destruct (editedPhoto s) as [e|] eqn:E; [|done].
  destruct (Hed e eq_refl) as (Hview & _). unfold inGallery in Hg. congruence.
Qed.

Lemma wf_no_editor (s : State) :
  NoDup (id <$> photos (app s)) → editedPhoto s = None → wf s.
Proof. intros Hnd Hed. split; [done|]. intros e. by rewrite Hed. Qed.

(** The photos change under a mounted editor: the state stays well formed
    when identifiers stay unique and every photo keeps identifier and
    original image. *)
Lemma wf_with_app (s : State) (a' : AppState) :
  wf s →
  currentView a' = currentView (app s) →
  editingPhotoId a' = editingPhotoId (app s) →
  NoDup (id <$> photos a') →
  (∀ p, p ∈ photos (app s) →
     ∃ p', p' ∈ photos a' ∧ id p' = id p ∧ originalUrl p' = originalUrl p) →
  wf (with_app s a').
Proof.
  intros [_ Hed] Hview Hedit Hnd Hkeep. split; [done|].
  cbn [with_app app editedPhoto]. intros e He.
  destruct (Hed e He) as (Hv & Hi & p & Hp & Hpid & Hporig).
  split; [congruence|]. split; [congruence|].
  destruct (Hkeep p Hp) as (p' & Hp' & Hid' & Horig').
  exists p'. split; [done|]. split; congruence.
Qed.

Lemma append_fresh (ids : list string) (s : State) (new : list Photo) :
  wf s → freshIds ids s → id <$> new = ids →
  wf (with_app s (appendPhotos new (app s))).
Proof.
  intros Hwf [Hnd Hfresh] Hids.
  rewrite Forall_forall in Hfresh.
  apply wf_with_app; [done|done|done| |].
  - cbn [appendPhotos photos with_photos]. rewrite fmap_app, Hids.
    apply NoDup_app. split; [apply Hwf|]. split; [|done].
    intros i Hi Hi'. by destruct (Hfresh i Hi').
  - intros p Hp. exists p. cbn [appendPhotos photos with_photos].
    rewrite elem_of_app. auto.
Qed.

(** One action keeps the state well formed, and every photo that the action
    does not delete is still in the store, with its identifier and its
    original image. *)
Lemma step_preserves (act : Action) (s s' : State) :
  wf s → freshIds (drawnIds act) s → step act s = Some s' →
  wf s'
  ∧ ∀ p, p ∈ photos (app s) → act ≠ DeletePhoto (id p) →
      ∃ p', p' ∈ photos (app s') ∧ id p' = id p
            ∧ originalUrl p' = originalUrl p.
Proof.
  intros Hwf Hfresh Hstep. pose proof Hwf as [Hnd Hed].
  assert (∀ p, p ∈ photos (app s) →
            ∃ p', p' ∈ photos (app s) ∧ id p' = id p
                  ∧ originalUrl p' = originalUrl p) as Hsame by eauto.
  destruct act as [files|ids|i cat|fromId toId|i|i cat|i|c|c| | |audioUrl|v
                  | | |op]; cbn [step] in Hstep; cbn [drawnIds] in Hfresh.
  - (* Upload *)
    injection Hstep as <-.
    split; [by eapply append_fresh, uploadedPhoto_ids|].
    intros p Hp _. exists p. cbn. rewrite elem_of_app. auto.
  - (* AddDemo *)
    destruct (decide _) as [Hlen|]; [|done].
    injection Hstep as <-.
    split; [by eapply append_fresh, demoPhotos_ids|].
    intros p Hp _. exists p. cbn. rewrite elem_of_app. auto.
  - (* CategoryResolved *)
    injection Hstep as <-.
    destruct (map_keeps (λ existing, if idIs i existing
                                     then with_category existing cat
                                     else existing) (photos (app s)))
      as [Hids Hkeep].
    { intros p _. by destruct (idIs i p). }
    split; [|by intros p Hp _; apply Hkeep].
    apply wf_with_app; [done|done|done| |done].
    cbn [setCategoryById photos with_photos]. by rewrite Hids.
  - (* Reorder *)
    destruct (decide (inGallery s)) as [Hg|]; [|done].
    destruct (handleReorder_spec fromId toId (app s))
      as (next & Hnext & Hperm & Hrest & _).
    rewrite Hnext in Hstep. injection Hstep as <-.
    assert (∀ p, p ∈ photos (app s) →
              ∃ p', p' ∈ photos next ∧ id p' = id p
                    ∧ originalUrl p' = originalUrl p) as Hkeep.
    { intros p Hp. exists p. by rewrite Hperm. }
    split; [|by intros p Hp _; apply Hkeep].
    apply wf_with_app; [done|by rewrite Hrest|by rewrite Hrest| |done].
    by rewrite Hperm.
  - (* EditPhoto *)
    destruct (decide _) as [[Hg Hi]|]; [|done].
    unfold mountEditor in Hstep.
    cbn [currentView with_view editingPhotoId photos] in Hstep.
    destruct (truthy (Some i)).
    + destruct (find_idIs_elem i _ Hi) as [p Hfind].
      cbv [from_option Datatypes.id] in Hstep. rewrite Hfind in Hstep.
      injection Hstep as <-.
      apply find_idIs_Some in Hfind as [Hp Hpid].
      split; [|by intros q Hq _; apply Hsame].
      split; [done|]. cbn. intros e [= <-].
      split; [done|]. split; [by rewrite Hpid|]. by exists p.
    + injection Hstep as <-.
      split; [by apply wf_no_editor | by intros q Hq _; apply Hsame].
  - (* UpdateCategory *)
    destruct (decide (inGallery s)) as [Hg|]; [|done].
    injection Hstep as <-.
    destruct (map_keeps (λ existing, if idIs i existing
                                     then with_category existing cat
                                     else existing) (photos (app s)))
      as [Hids Hkeep].
    { intros p _. by destruct (idIs i p). }
    split; [|by intros p Hp _; apply Hkeep].
    apply wf_with_app; [done|done|done| |done].
    cbn [setCategoryById photos with_photos]. by rewrite Hids.
  - (* DeletePhoto *)
    destruct (decide (inGallery s)) as [Hg|]; [|done].
    injection Hstep as <-. split.
    + apply wf_no_editor; [|exact (wf_gallery_no_editor s Hwf Hg)].
      cbn [with_app app deletePhoto photos with_photos].
      eapply sublist_NoDup; [exact Hnd|].
      apply fmap_sublist, sublist_filter.
    + intros p Hp Hne. exists p. split; [|done].
      cbn [with_app app deletePhoto photos with_photos].
      apply list_elem_of_filter. split; [congruence|done].
  - (* AddCustomCategory *)
    destruct (decide (inGallery s)) as [Hg|]; [|done].
    injection Hstep as <-.
    split; [|by intros p Hp _; apply Hsame].
    apply wf_no_editor; [done|]. exact (wf_gallery_no_editor s Hwf Hg).
  - (* DeleteCustomCategory *)
    destruct (decide (inGallery s)) as [Hg|]; [|done].
    cbn in Hstep. injection Hstep as <-.
    destruct (map_keeps (λ p, if bool_decide (category p = c)
                              then with_category p UNCATEGORIZED else p)
                (photos (app s))) as [Hids Hkeep].
    { intros p _. by destruct (bool_decide (category p = c)). }
    split; [|by intros p Hp _; apply Hkeep].
    apply wf_no_editor; [|exact (wf_gallery_no_editor s Hwf Hg)].
    cbn. by rewrite Hids.
  - (* StartSlideshow *)
    destruct (decide _); [|done]. injection Hstep as <-.
    split; [by apply wf_no_editor | by intros p Hp _; apply Hsame].
  - (* CloseSlideshow *)
    destruct (decide _); [|done]. injection Hstep as <-.
    split; [by apply wf_no_editor | by intros p Hp _; apply Hsame].
  - (* SelectAudio *)
    injection Hstep as <-.
    split; [|by intros p Hp _; apply Hsame].
    by apply wf_with_app.
  - (* SetVolume *)
    injection Hstep as <-.
    split; [|by intros p Hp _; apply Hsame].
    by apply wf_with_app.
  - (* Save *)
    destruct (editedPhoto s) as [e|] eqn:He; [|done].
    cbn in Hstep. injection Hstep as <-.
    destruct (Hed _ eq_refl) as (_ & _ & q & Hq & Hqid & Hqorig).
    destruct (map_keeps (λ p, if idIs (id e) p then e else p)
                (photos (app s))) as [Hids Hkeep].
    { intros p Hp. destruct (idIs (id e) p) eqn:E; [|done].
      apply idIs_true in E.
      assert (p = q) as -> by (eapply NoDup_id_inj; eauto; congruence).
      done. }
    split; [|by intros p Hp _; apply Hkeep].
    apply wf_no_editor; [|done]. cbn. by rewrite Hids.
  - (* Cancel *)
    destruct (editedPhoto s) as [e|] eqn:He; [|done].
    cbn in Hstep. injection Hstep as <-.
    split; [by apply wf_no_editor | by intros p Hp _; apply Hsame].
  - (* InEditor *)
    destruct (editedPhoto s) as [e|] eqn:He.
    2:{ destruct (isResolution op); [|done]. injection Hstep as <-.
        split; [done | by intros p' Hp' _; apply Hsame]. }
    destruct (Hed _ eq_refl) as (Hview & Hedit & q & Hq & Hqid & Hqorig).
    cbn in Hstep. rewrite Hedit in Hstep. cbn in Hstep.
    destruct (find (idIs (id e)) (photos (app s))) as [photo|] eqn:Hfind;
      [|done].
    cbn in Hstep. injection Hstep as <-.
    apply find_idIs_Some in Hfind as [Hp Hpid].
    assert (photo = q) as -> by (eapply NoDup_id_inj; eauto; congruence).
    destruct (editorStep_keeps op q e Hqid Hqorig) as [Hid' Horig'].
    split; [|by intros p' Hp' _; apply Hsame].
    split; [done|]. cbn. intros e' [= <-].
    split; [done|]. split; [congruence|].
    exists q. split; [done|]. split; congruence.
Qed.

Lemma wf_initial : wf initial.
Proof. apply wf_no_editor; [constructor | done]. Qed.

(** *** The editor and the store agree in every state *)

Lemma find_app_Some {A} (pred : A → bool) (l l' : list A) (x : A) :
  find pred l = Some x → find pred (l ++ l') = Some x.
Proof.
  induction l as [|y l IH]; simpl; [by intros [=]|].
  destruct (pred y); [done|exact IH].
Qed.

Lemma find_fmap_keeps (i : string) (f : Photo → Photo) (l : list Photo) :
  (∀ p, id (f p) = id p) →
  find (idIs i) (f <$> l) = f <$> find (idIs i) l.
Proof.
  intros Hf. induction l as [|q l IH]; [done|].
  cbn [fmap list_fmap find]. unfold idIs at 1. rewrite Hf.
  fold (idIs i q). by destruct (idIs i q).
Qed.

Lemma consistent_no_editor (s : State) :
  currentView (app s) ≠ editor → editedPhoto s = None → consistent s.
Proof. intros Hview Hed. split; [intros e; by rewrite Hed | done]. Qed.

Lemma consistent_gallery (s : State) :
  consistent s → inGallery s → editedPhoto s = None.
Proof.
  intros [Hed _] Hg. destruct (editedPhoto s) as [e|] eqn:E; [|done].
  destruct (Hed e eq_refl) as (Hview & _). unfold inGallery in Hg. congruence.
Qed.

(** The photos change under a mounted editor, and [find] still returns a
    photo with the same original image for every identifier. *)
Lemma consistent_with_app (s : State) (a' : AppState) :
  consistent s →
  currentView a' = currentView (app s) →
  editingPhotoId a' = editingPhotoId (app s) →
  (∀ i p, find (idIs i) (photos (app s)) = Some p →
     ∃ p', find (idIs i) (photos a') = Some p'
           ∧ originalUrl p' = originalUrl p) →
  consistent (with_app s a').
Proof.
  intros [Hed Hopen] Hview Hedit Hkeep. split.
  - cbn [with_app app editedPhoto]. intros e He.
    destruct (Hed e He) as (Hv & Hi & Hne & p & Hp & Horig).
    split; [congruence|]. split; [congruence|]. split; [done|].
    destruct (Hkeep _ _ Hp) as (p' & Hp' & Horig').
    exists p'. split; [done|congruence].
  - cbn [with_app app editedPhoto]. rewrite Hview, Hedit. exact Hopen.
Qed.

Lemma consistent_append (s : State) (new : list Photo) :
  consistent s → consistent (with_app s (appendPhotos new (app s))).
Proof.
  intros Hs. apply consistent_with_app; [done..|].
  intros i p Hp. exists p. split; [|done].
  cbn [appendPhotos photos with_photos]. by apply find_app_Some.
Qed.

Lemma consistent_setCategory (s : State) (i cat : string) :
  consistent s → consistent (with_app s (setCategoryById i cat (app s))).
Proof.
  intros Hs. apply consistent_with_app; [done..|].
  intros j p Hp. cbn [setCategoryById photos with_photos].
  rewrite find_fmap_keeps by (intros q; by destruct (idIs i q)).
  rewrite Hp. eexists. split; [reflexivity|]. by destruct (idIs i p).
Qed.

(** Every action keeps the agreement, whatever identifiers it draws. *)
Lemma consistent_step (act : Action) (s s' : State) :
  consistent s → step act s = Some s' → consistent s'.
Proof.
  intros Hs Hstep. pose proof Hs as [Hed Hopen].
  destruct act as [files|ids|i cat|fromId toId|i|i cat|i|c|c| | |audioUrl|v
                  | | |op]; cbn [step] in Hstep.
  - (* Upload *)
    injection Hstep as <-. by apply consistent_append.
  - (* AddDemo *)
    destruct (decide _); [|done]. injection Hstep as <-.
    by apply consistent_append.
  - (* CategoryResolved *)
    injection Hstep as <-. by apply consistent_setCategory.
  - (* Reorder *)
    destruct (decide (inGallery s)) as [Hg|]; [|done].
    destruct (handleReorder_spec fromId toId (app s))
      as (next & Hnext & _ & Hrest & _).
    rewrite Hnext in Hstep. injection Hstep as <-.
    apply consistent_no_editor; [|exact (consistent_gallery s Hs Hg)].
    cbn [with_app app]. rewrite Hrest. cbn [currentView with_photos].
    unfold inGallery in Hg. by rewrite Hg.
  - (* EditPhoto *)
    destruct (decide _) as [[Hg Hi]|]; [|done].
    unfold mountEditor in Hstep.
    cbn [currentView with_view editingPhotoId photos] in Hstep.
    destruct (truthy (Some i)) eqn:Htruthy.
    + destruct (find_idIs_elem i _ Hi) as [p Hfind].
      cbv [from_option Datatypes.id] in Hstep. rewrite Hfind in Hstep.
      injection Hstep as <-.
      destruct (find_idIs_Some _ _ _ Hfind) as [Hp Hpid].
      split; [|by eexists]. cbn. intros e [= <-].
      split; [done|]. split; [by rewrite Hpid|]. split.
      * rewrite Hpid. intros ->. discriminate Htruthy.
      * exists p. by rewrite Hpid.
    + injection Hstep as <-. split; [by intros e [=]|].
      cbn. intros _ Ht. change (truthy (Some i) = true) in Ht.
      congruence.
  - (* UpdateCategory *)
    destruct (decide (inGallery s)) as [Hg|]; [|done].
    injection Hstep as <-. by apply consistent_setCategory.
  - (* DeletePhoto *)
    destruct (decide (inGallery s)) as [Hg|]; [|done].
    injection Hstep as <-.
    apply consistent_no_editor; [|exact (consistent_gallery s Hs Hg)].
    cbn. unfold inGallery in Hg. by rewrite Hg.
  - (* AddCustomCategory *)
    destruct (decide (inGallery s)) as [Hg|]; [|done].
    injection Hstep as <-.
    apply consistent_no_editor; [|exact (consistent_gallery s Hs Hg)].
    cbn. unfold inGallery in Hg. by rewrite Hg.
  - (* DeleteCustomCategory *)
    destruct (decide (inGallery s)) as [Hg|]; [|done].
    cbn in Hstep. injection Hstep as <-.
    apply consistent_no_editor; [|exact (consistent_gallery s Hs Hg)].
    cbn. unfold inGallery in Hg. by rewrite Hg.
  - (* StartSlideshow *)
    destruct (decide _); [|done]. injection Hstep as <-.
    by apply consistent_no_editor.
  - (* CloseSlideshow *)
    destruct (decide _); [|done]. injection Hstep as <-.
    by apply consistent_no_editor.
  - (* SelectAudio *)
    injection Hstep as <-. apply consistent_with_app; [done..|]. eauto.
  - (* SetVolume *)
    injection Hstep as <-. apply consistent_with_app; [done..|]. eauto.
  - (* Save *)
    destruct (editedPhoto s) as [e|] eqn:He; [|done].
    cbn in Hstep. injection Hstep as <-. by apply consistent_no_editor.
  - (* Cancel *)
    destruct (editedPhoto s) as [e|] eqn:He; [|done].
    cbn in Hstep. injection Hstep as <-. by apply consistent_no_editor.
  - (* InEditor *)
    destruct (editedPhoto s) as [e|] eqn:He.
    2:{ destruct (isResolution op); [|done]. by injection Hstep as <-. }
    destruct (Hed _ eq_refl) as (Hview & Hedit & Hne & q & Hq & Hqorig).
    cbn in Hstep. rewrite Hedit in Hstep. cbn in Hstep.
    rewrite Hq in Hstep. cbn in Hstep. injection Hstep as <-.
    destruct (find_idIs_Some _ _ _ Hq) as [_ Hqid].
    destruct (editorStep_keeps op q e Hqid Hqorig) as [Hid' Horig'].
    split; [|by eexists]. cbn. intros e' [= <-].
    split; [done|]. split; [congruence|]. split; [congruence|].
    exists q. rewrite Hid'. split; [done|congruence].
Qed.

Lemma consistent_run (acts : list Action) (s s' : State) :
  consistent s → run acts s = Some s' → consistent s'.
Proof.
  revert s. induction acts as [|act acts IH]; intros s Hs Hrun.
  - by injection Hrun as <-.
  - cbn [run] in Hrun. destruct (step act s) as [s1|] eqn:Hstep; [|done].
    cbn in Hrun. eapply IH; [|exact Hrun]. by eapply consistent_step.
Qed.

(** *** The original image under one identifier *)

Lemma keeps_fmap (i o : string) (f : Photo → Photo) (l : list Photo) :
  i ∈ id <$> l →
  (∀ p, p ∈ l → id (f p) = id p ∧ (id p = i → originalUrl (f p) = o)) →
  i ∈ id <$> (f <$> l)
  ∧ ∀ q, q ∈ f <$> l → id q = i → originalUrl q = o.
Proof.
  intros Hi Hf. split.
  - apply list_elem_of_fmap in Hi as (p & -> & Hp).
    apply list_elem_of_fmap. exists (f p).
    split; [by destruct (Hf p Hp)|by apply list_elem_of_fmap_2].
  - intros q Hq Hid. apply list_elem_of_fmap in Hq as (p & -> & Hp).
    destruct (Hf p Hp) as [Hpid Horig]. apply Horig. congruence.
Qed.

Lemma keeps_append (i o : string) (l new : list Photo) :
  i ∈ id <$> l → (i ∉ id <$> new) →
  (∀ q, q ∈ l → id q = i → originalUrl q = o) →
  i ∈ id <$> (l ++ new)
  ∧ ∀ q, q ∈ l ++ new → id q = i → originalUrl q = o.
Proof.
  intros Hi Hnew Hl. split.
  - rewrite fmap_app, elem_of_app. by left.
  - intros q Hq Hid. apply elem_of_app in Hq as [Hq|Hq]; [by apply Hl|].
    exfalso. apply Hnew. rewrite <- Hid. by apply list_elem_of_fmap_2.
Qed.

(** An action that neither deletes the photos with the identifier [i] nor
    draws [i] for a new photo keeps the original image under [i]. *)
Lemma keepsOriginal_step (i o : string) (act : Action) (s s' : State) :
  consistent s → keepsOriginal i o s →
  act ≠ DeletePhoto i → (i ∉ drawnIds act) →
  step act s = Some s' →
  keepsOriginal i o s'.
Proof.
  intros Hs (Hi & Hstore & Hcopy) Hdel Hdraw Hstep.
  pose proof Hs as [Hed _].
  assert (∀ (f : Photo → Photo) (a : AppState),
            (∀ p, id (f p) = id p ∧ originalUrl (f p) = originalUrl p) →
            photos a = f <$> photos (app s) →
            keepsOriginal i o (with_app s a)) as Hmap.
  { intros f a Hf Ha.
    destruct (keeps_fmap i o f (photos (app s)) Hi) as [Hi' Hstore'].
    { intros p Hp. destruct (Hf p) as [Hfid Hforig]. split; [done|].
      intros Hpid. rewrite Hforig. by apply Hstore. }
    split; [|split]; cbn [with_app app editedPhoto]; by rewrite ?Ha. }
  destruct act as [files|ids|j cat|fromId toId|j|j cat|j|c|c| | |audioUrl|v
                  | | |op]; cbn [step] in Hstep; cbn [drawnIds] in Hdraw.
  - (* Upload *)
    injection Hstep as <-.
    destruct (keeps_append i o (photos (app s)) (uploadedPhoto <$> files))
      as [Hi' Hstore']; [done|by rewrite uploadedPhoto_ids|done|].
    by split; [|split].
  - (* AddDemo *)
    destruct (decide _) as [Hlen|]; [|done]. injection Hstep as <-.
    destruct (keeps_append i o (photos (app s)) (demoPhotos ids))
      as [Hi' Hstore']; [done|by rewrite demoPhotos_ids|done|].
    by split; [|split].
  - (* CategoryResolved *)
    injection Hstep as <-.
    apply (Hmap (λ existing, if idIs j existing
                             then with_category existing cat else existing));
      [|done].
    intros p. by destruct (idIs j p).
  - (* Reorder *)
    destruct (decide (inGallery s)) as [Hg|]; [|done].
    destruct (handleReorder_spec fromId toId (app s))
      as (next & Hnext & Hperm & _).
    rewrite Hnext in Hstep. injection Hstep as <-.
    split; [|split]; cbn [with_app app editedPhoto]; [| |done].
    + by rewrite Hperm.
    + intros q Hq. apply Hstore. by rewrite <- Hperm.
  - (* EditPhoto *)
    destruct (decide _) as [[Hg Hj]|]; [|done].
    unfold mountEditor in Hstep.
    cbn [currentView with_view editingPhotoId photos] in Hstep.
    destruct (truthy (Some j)).
    + destruct (find_idIs_elem j _ Hj) as [p Hfind].
      cbv [from_option Datatypes.id] in Hstep. rewrite Hfind in Hstep.
      injection Hstep as <-.
      destruct (find_idIs_Some _ _ _ Hfind) as [Hp _].
      split; [done|]. split; [done|]. cbn. intros e0 [= <-]. by apply Hstore.
    + injection Hstep as <-. split; [done|]. split; [done|]. by intros e0 [=].
  - (* UpdateCategory *)
    destruct (decide (inGallery s)) as [Hg|]; [|done].
    injection Hstep as <-.
    apply (Hmap (λ existing, if idIs j existing
                             then with_category existing cat else existing));
      [|done].
    intros p. by destruct (idIs j p).
  - (* DeletePhoto *)
    destruct (decide (inGallery s)) as [Hg|]; [|done].
    injection Hstep as <-.
    assert (j ≠ i) as Hji by congruence.
    split; [|split]; cbn [with_app app editedPhoto deletePhoto photos
                            with_photos]; [| |done].
    + apply list_elem_of_fmap in Hi as (p & -> & Hp).
      apply list_elem_of_fmap. exists p. split; [done|].
      apply list_elem_of_filter. split; [congruence|done].
    + intros q Hq. apply list_elem_of_filter in Hq as [_ Hq].
      by apply Hstore.
  - (* AddCustomCategory *)
    destruct (decide (inGallery s)) as [Hg|]; [|done].
    injection Hstep as <-. by split; [|split].
  - (* DeleteCustomCategory *)
    destruct (decide (inGallery s)) as [Hg|]; [|done].
    cbn in Hstep. injection Hstep as <-.
    destruct (keeps_fmap i o
                (λ p, if bool_decide (category p = c)
                      then with_category p UNCATEGORIZED else p)
                (photos (app s)) Hi) as [Hi' Hstore'].
    { intros p Hp. destruct (bool_decide (category p = c)); cbn;
        (split; [done|]); intros Hpid; by apply Hstore. }
    by split; [|split].
  - (* StartSlideshow *)
    destruct (decide _); [|done]. injection Hstep as <-.
    split; [done|]. split; [done|]. by intros e0 [=].
  - (* CloseSlideshow *)
    destruct (decide _); [|done]. injection Hstep as <-.
    split; [done|]. split; [done|]. by intros e0 [=].
  - (* SelectAudio *)
    injection Hstep as <-. by split; [|split].
  - (* SetVolume *)
    injection Hstep as <-. by split; [|split].
  - (* Save *)
    destruct (editedPhoto s) as [e|] eqn:He; [|done].
    cbn in Hstep. injection Hstep as <-.
    destruct (keeps_fmap i o (λ p, if idIs (id e) p then e else p)
                (photos (app s)) Hi) as [Hi' Hstore'].
    { intros p Hp. destruct (idIs (id e) p) eqn:E.
      - apply idIs_true in E. split; [done|].
        intros Hpid. apply (Hcopy e eq_refl). congruence.
      - split; [done|]. intros Hpid. by apply Hstore. }
    split; [done|]. split; [done|]. by intros e0 [=].
  - (* Cancel *)
    destruct (editedPhoto s) as [e|] eqn:He; [|done].
    cbn in Hstep. injection Hstep as <-.
    split; [done|]. split; [done|]. by intros e0 [=].
  - (* InEditor *)
    destruct (editedPhoto s) as [e|] eqn:He.
    2:{ destruct (isResolution op); [|done]. injection Hstep as <-.
        split; [done|]. split; [done|]. intros e0. by rewrite He. }
    destruct (Hed _ eq_refl) as (Hview & Hedit & Hne & q & Hq & Hqorig).
    cbn in Hstep. rewrite Hedit in Hstep. cbn in Hstep.
    rewrite Hq in Hstep. cbn in Hstep. injection Hstep as <-.
    destruct (find_idIs_Some _ _ _ Hq) as [_ Hqid].
    destruct (editorStep_keeps op q e Hqid Hqorig) as [Hid' Horig'].
    split; [done|]. split; [done|]. cbn. intros e' [= <-] Hid.
    rewrite Horig'. apply (Hcopy e eq_refl). congruence.
Qed.

Lemma keepsOriginal_run (i o : string) (acts : list Action)
    (s s' : State) :
  consistent s → keepsOriginal i o s →
  Forall (λ act, act ≠ DeletePhoto i ∧ i ∉ drawnIds act) acts →
  run acts s = Some s' →
  keepsOriginal i o s'.
Proof.
  revert s. induction acts as [|act acts IH]; intros s Hs Hk Hacts Hrun.
  - by injection Hrun as <-.
  - cbn [run] in Hrun. destruct (step act s) as [s1|] eqn:Hstep; [|done].
    cbn in Hrun. apply Forall_cons in Hacts as [[Hdel Hdraw] Hacts].
    eapply IH; [| |exact Hacts|exact Hrun].
    + by eapply consistent_step.
    + by eapply keepsOriginal_step.
Qed.

(** C9: a photo whose identifier no other photo has, at the start or by a
    later upload or demo seed, keeps its original image. From a state in
    which the editor and the store agree, through every sequence of
    actions (upload, demo seed, categorization, category reassignment,
    reorder, deletion of other photos or of categories, opening the editor,
    every editor handler, save, cancel, slideshow, audio settings) that
    neither deletes the photo nor draws its identifier again, the photo
    stays in the store under its identifier with the [originalUrl] it had;
    and a successful stylization or object removal (described or pointed)
    changes the [url] of the photo under edit and nothing else. *)
Theorem originalUrl_never_changes (acts : list Action) (s s' : State)
    (p : Photo) :
  consistent s → run acts s = Some s' →
  p ∈ photos (app s) →
  (∀ q, q ∈ photos (app s) → id q = id p → q = p) →
  Forall (λ act, act ≠ DeletePhoto (id p) ∧ id p ∉ drawnIds act) acts →
  originalUrl <$> find (idIs (id p)) (photos (app s'))
    = Some (originalUrl p)
  ∧ (∀ p', p' ∈ photos (app s') → id p' = id p →
       originalUrl p' = originalUrl p)
  ∧ (∀ (u : string) (photo prev : Photo) (op : EditorOp),
       u ≠ "" →
       op ∈ [StylizeResolved (Some u); RemoveObjectResolved (Some u);
             RemoveObjectAtPointResolved (Some u)] →
       editorStep op photo prev = with_url prev u
       ∧ originalUrl (editorStep op photo prev) = originalUrl prev).
Proof.
  intros Hs Hrun Hp Hunique Hacts.
  assert (keepsOriginal (id p) (originalUrl p) s) as Hk.
  { split; [by apply list_elem_of_fmap_2|]. split.
    - intros q Hq Hid. by rewrite (Hunique q Hq Hid).
    - intros e He Hid. destruct Hs as [Hed _].
      destruct (Hed e He) as (_ & _ & _ & q & Hq & Hqorig).
      destruct (find_idIs_Some _ _ _ Hq) as [Hqin Hqid].
      rewrite <- Hqorig. rewrite (Hunique q Hqin); [done|congruence]. }
  destruct (keepsOriginal_run _ _ acts s s' Hs Hk Hacts Hrun)
    as (Hi & Hall & _).
  split; [|split; [exact Hall|]].
  - destruct (find_idIs_elem (id p) (photos (app s')) Hi) as [r Hr].
    rewrite Hr. cbn. f_equal.
    apply find_idIs_Some in Hr as [Hr Hrid]. by apply Hall.
  - intros u photo prev op Hu Hop.
    assert (editorStep op photo prev = with_url prev u) as ->; [|done].
    rewrite !elem_of_cons in Hop.
    destruct Hop as [-> | [-> | [-> | []%elem_of_nil]]];
      by apply imageResolved_only_url.
Qed.

Lemma originalUrl_never_changes_witness :
  ∃ s', run sampleSession sampleState = Some s'
    ∧ originalUrl <$> find (idIs "k3j9x0q1z") (photos (app s'))
      = Some "data:image/jpeg;base64,AAAA"
    ∧ url <$> find (idIs "k3j9x0q1z") (photos (app s'))
      = Some "data:image/png;base64,DDDD".
Proof.
  eexists. split; [vm_compute; reflexivity|].
  split; [|vm_compute; reflexivity].
  refine (proj1 (originalUrl_never_changes sampleSession sampleState _
                   samplePhoto _ _ _ _ _)).
  - by apply consistent_no_editor.
  - vm_compute. reflexivity.
  - left.
  - intros q Hq _. by apply list_elem_of_singleton in Hq.
  - repeat constructor; try discriminate; cbn [drawnIds];
      try apply not_elem_of_nil.
    intros Hin. apply list_elem_of_singleton in Hin. discriminate Hin.
Defined.

(** The claim without the condition on the identifiers fails: when
    [generateId()] returns the same text for two uploads, the editor opens
    the first of the two photos, and [saveEditedPhoto] puts its copy in the
    place of both, so that the second photo gets the original image of the
    first. *)
Lemma originalUrl_twin_counterexample : ¬ originalUrlFixed.
Proof.
  intros H.
  pose (s0 := default initial (run twinUploads initial)).
  discriminate
    (H [EditPhoto "k3j9x0q1z"; Save] s0 _ 1%nat _ _
       eq_refl eq_refl eq_refl eq_refl).
Qed.

End UiFacts.

(** ** The gateway *)

Section GatewayFacts.
Import Number Canvas Gateway.

Lemma quiet_ret {A} (v : A) (log : list Event) : quiet (ret v) log v.
Proof. exists []. by rewrite app_nil_r. Qed.

Lemma quiet_console {A} (message : string) (v : A) (log : list Event) :
  quiet (let* _ := emit (EvConsoleError message) in ret v) log v.
Proof. by exists [EvConsoleError message]. Qed.

(** *** [trim] is the trim of ECMAScript on code units below 256 *)

Lemma isWhiteSpaceUnit_ascii (c : ascii) :
  isWhiteSpaceUnit (N_of_ascii c) = isWhiteSpace c.
Proof. by destruct c as [[] [] [] [] [] [] [] []]. Qed.

Lemma codeUnits_String (c : ascii) (s : string) :
  codeUnits (String c s) = N_of_ascii c :: codeUnits s.
Proof. done. Qed.

Lemma trimStart_codeUnits (s : string) :
  codeUnits (trimStart s) = trimStartUnits (codeUnits s).
Proof.
  induction s as [|c s IH]; [done|].
  rewrite codeUnits_String. cbn [trimStart trimStartUnits].
  rewrite isWhiteSpaceUnit_ascii.
  destruct (isWhiteSpace c); [exact IH|by rewrite codeUnits_String].
Qed.

Lemma fmap_rev {A B} (f : A → B) (l : list A) :
  f <$> rev l = rev (f <$> l).
Proof.
  induction l as [|x l IH]; [done|].
  simpl. by rewrite fmap_app, IH.
Qed.

Lemma reverse_codeUnits (s : string) :
  codeUnits (reverse_string s) = rev (codeUnits s).
Proof.
  unfold codeUnits, reverse_string.
  by rewrite list_ascii_of_string_of_list_ascii, fmap_rev.
Qed.

Lemma trim_codeUnits (s : string) :
  codeUnits (trim s) = trimUnits (codeUnits s).
Proof.
  unfold trim, trimUnits.
  by rewrite reverse_codeUnits, trimStart_codeUnits, reverse_codeUnits,
    trimStart_codeUnits.
Qed.

(** C4 (as amended): without a credential no function of the gateway calls
    the transport, and each returns its fallback: "Uncategorized" for the
    categorization, a placeholder text for the narration, the text
    "API Key missing." for the transcription, and null for the
    stylization, both object removals, the speech and the track. *)
Theorem noCredential_fallbacks : noCredentialFallbacks "API Key missing.".
Proof.
  intros W log u t x y.
  repeat split; first [apply quiet_ret | apply quiet_console].
Qed.

(** C4 (as stated) fails for the transcription: its fallback without a
    credential is not the empty string. *)
Lemma noCredentialFallbacks_counterexample : ¬ noCredentialFallbacks "".
Proof.
  intros H.
  destruct (H sampleWorld [] "blob:audio" "" half half)
    as (_ & _ & (evs & Hrun & _) & _).
  discriminate Hrun.
Qed.

(** *** Rules of the specifications *)

Lemma sat_ret {A} (v : A) (P : Event → Prop) (Q : A → Prop)
    (T : JsError → Prop) :
  Q v → sat (ret v) P Q T.
Proof. intros Hv log. exists []. by rewrite app_nil_r. Qed.

Lemma sat_throw {A} (e : JsError) (P : Event → Prop) (Q : A → Prop)
    (T : JsError → Prop) :
  T e → sat (throw e) P Q T.
Proof. intros He log. exists []. by rewrite app_nil_r. Qed.

Lemma sat_lift {A} (r : Result A) (P : Event → Prop) (Q : A → Prop)
    (T : JsError → Prop) :
  (∀ v, r = Ok v → Q v) → (∀ e, r = Throw e → T e) → sat (lift r) P Q T.
Proof.
  intros Hv He log. exists []. rewrite app_nil_r. cbn.
  split; [done|]. split; [done|]. destruct r; auto.
Qed.

Lemma sat_perform {A} (ev : Event) (answer : list Event → Result A)
    (P : Event → Prop) (Q : A → Prop) (T : JsError → Prop) :
  P ev →
  (∀ log v, answer log = Ok v → Q v) →
  (∀ log e, answer log = Throw e → T e) →
  sat (perform ev answer) P Q T.
Proof.
  intros Hev Hv He log. exists [ev]. cbn.
  split; [done|]. split; [by constructor|].
  destruct (answer log) eqn:E; eauto.
Qed.

Lemma sat_emit (ev : Event) (P : Event → Prop) (Q : unit → Prop)
    (T : JsError → Prop) :
  P ev → Q tt → sat (emit ev) P Q T.
Proof. intros Hev Hq. apply sat_perform; [done| |done]. by intros _ [] _. Qed.

Lemma sat_bind {A B} (m : M A) (k : A → M B) (P : Event → Prop)
    (Q1 : A → Prop) (Q : B → Prop) (T : JsError → Prop) :
  sat m P Q1 T → (∀ a, Q1 a → sat (k a) P Q T) → sat (bind m k) P Q T.
Proof.
  intros Hm Hk log. unfold bind.
  destruct (Hm log) as (evs1 & Hlog1 & Hevs1 & Hres1).
  destruct (m log) as [[a|e] log1]; cbn in *; subst log1.
  - destruct (Hk a Hres1 (log ++ evs1)) as (evs2 & Hlog2 & Hevs2 & Hres2).
    exists (evs1 ++ evs2). rewrite Hlog2, app_assoc.
    split; [done|]. split; [by apply Forall_app|done].
  - by exists evs1.
Qed.

Lemma sat_tryCatch {A} (body : M A) (handler : JsError → M A)
    (P : Event → Prop) (Q : A → Prop) (T1 T : JsError → Prop) :
  sat body P Q T1 → (∀ e, T1 e → sat (handler e) P Q T) →
  sat (tryCatch body handler) P Q T.
Proof.
  intros Hb Hh log. unfold tryCatch.
  destruct (Hb log) as (evs1 & Hlog1 & Hevs1 & Hres1).
  destruct (body log) as [[a|e] log1]; cbn in *; subst log1.
  - by exists evs1.
  - destruct (Hh e Hres1 (log ++ evs1)) as (evs2 & Hlog2 & Hevs2 & Hres2).
    exists (evs1 ++ evs2). rewrite Hlog2, app_assoc.
    split; [done|]. split; [by apply Forall_app|done].
Qed.

Lemma sat_weaken {A} (m : M A) (P : Event → Prop) (Q Q' : A → Prop)
    (T T' : JsError → Prop) :
  sat m P Q T → (∀ v, Q v → Q' v) → (∀ e, T e → T' e) → sat m P Q' T'.
Proof.
  intros Hm HQ HT log. destruct (Hm log) as (evs & Hlog & Hevs & Hres).
  exists evs. split; [done|]. split; [done|].
  destruct (m log).1; auto.
Qed.

(** A computation that cannot throw returns a value. *)
Lemma sat_returns {A} (m : M A) (P : Event → Prop) (Q : A → Prop)
    (log : list Event) :
  sat m P Q (λ _, False) →
  ∃ v evs, m log = (Ok v, log ++ evs) ∧ Forall P evs ∧ Q v.
Proof.
  intros Hm. destruct (Hm log) as (evs & Hlog & Hevs & Hres).
  destruct (m log) as [[v|e] log'] eqn:E; cbn in *; [|done].
  exists v, evs. by subst log'.
Qed.

(** *** The functions of the gateway *)


Lemma handleGeminiError_sat (error : JsError) (context : string)
    (Q : unit → Prop) (T : JsError → Prop) :
  Q tt → sat (handleGeminiError error context) isGatewayEvent Q T.
Proof.
  intros HQ. unfold handleGeminiError.
  destruct (isQuotaError error); (apply sat_emit; [done|assumption]).
Qed.

Lemma drawResized_sat (W : World) (bitmap : ImageBitmap) (T : JsError → Prop) :
  sat (drawResized W bitmap) isGatewayEvent (λ _, True) T.
Proof.
  unfold drawResized. destruct (resizeDimensions _ _) as [width height].
  eapply (sat_bind _ _ _ (λ _, True)); [apply sat_emit; [done|done]|]. intros _ _.
  eapply (sat_bind _ _ _ (λ _, True)); [apply sat_perform; [done|done|done]|].
  intros [] _; [|by apply sat_ret].
  eapply (sat_bind _ _ _ (λ _, True)); [apply sat_emit; [done|done]|]. intros _ _. by apply sat_ret.
Qed.

(** [fileToGenerativePart] never throws. *)
Lemma fileToGenerativePart_sat (W : World) (u : string) :
  sat (fileToGenerativePart W u) isGatewayEvent (λ _, True) (λ _, False).
Proof.
  unfold fileToGenerativePart.
  eapply (sat_tryCatch _ _ _ _ (λ _, True)).
  - eapply (sat_bind _ _ _ (λ _, True)); [apply sat_perform; [done|done|done]|].
    intros blob _.
    eapply (sat_bind _ _ _ (λ _, True)); [apply sat_perform; [done|done|done]|].
    intros bitmap _.
    eapply sat_bind; [apply drawResized_sat|].
    intros [canvas|] _; [|by apply sat_ret].
    eapply (sat_bind _ _ _ (λ _, True)); [apply sat_perform; [done|done|done]|].
    intros base64Url _. by apply sat_ret.
  - intros e _. eapply (sat_bind _ _ _ (λ _, True)); [apply sat_emit; [done|done]|].
    intros _ _. by apply sat_ret.
Qed.

Lemma orElse_cases (a : option string) (b : string) :
  orElse a b = b ∨ ∃ s, a = Some s ∧ orElse a b = s ∧ s ≠ "".
Proof.
  unfold orElse, nonEmpty. destruct a as [s|]; [|by left].
  destruct (bool_decide_reflect (s = "")); cbn; [by left|].
  right. by exists s.
Qed.

Lemma suggestCategory_sat (W : World) (key u : string) :
  sat (suggestCategory key W u) isGatewayEvent (categoryOfModel W)
      (λ _, False).
Proof.
  unfold suggestCategory.
  destruct (negb (nonEmpty key)); [apply sat_ret; by left|].
  eapply (sat_tryCatch _ _ _ _ (λ _, True)).
  - eapply sat_bind.
    { eapply sat_weaken; [apply fileToGenerativePart_sat|done|done]. }
    intros [imageData|] _; [|apply sat_ret; by left].
    eapply (sat_bind _ _ _
              (λ response, ∃ log0 request,
                 w_generateContent W log0 request = Ok response
                 ∧ model request = "gemini-2.5-flash")).
    { apply sat_perform; [done| |done]. intros log0 v Hv. by eexists _, _. }
    intros response (log0 & request & Hresp & Hmodel).
    apply sat_ret. unfold trimmedText.
    destruct (orElse_cases (trim <$> r_text response) "Uncategorized")
      as [-> | (s & Hs & -> & Hne)]; [by left|].
    right. destruct (r_text response) as [t|] eqn:Ht; [|done].
    injection Hs as <-. by exists log0, request, response, t.
  - intros e _. eapply (sat_bind _ _ _ (λ _, True)); [by apply handleGeminiError_sat|].
    intros _ _. apply sat_ret. by left.
Qed.


Lemma suggestCategory_returns (key : string) (W : World) (u : string)
    (log : list Event) :
  ∃ c evs,
    suggestCategory key W u log = (Ok c, log ++ evs)
    ∧ categoryOfModel W c
    ∧ Forall isGatewayEvent evs.
Proof.
  destruct (sat_returns _ _ _ log (suggestCategory_sat W key u))
    as (c & evs & Hrun & Hevs & Hc).
  by exists c, evs.
Qed.

Lemma fileToGenerativePart_returns (W : World) (u : string)
    (log : list Event) :
  ∃ r evs, fileToGenerativePart W u log = (Ok r, log ++ evs).
Proof.
  destruct (sat_returns _ _ _ log (fileToGenerativePart_sat W u))
    as (r & evs & Hrun & _).
  by exists r, evs.
Qed.

Lemma orElse_trimmed (response : Response) :
  orElse (trimmedText response) "Uncategorized"
  = categoryOfAnswer (Ok response).
Proof.
  unfold trimmedText, categoryOfAnswer, orElse, nonEmpty.
  destruct (r_text response) as [t|]; [|done]. cbn.
  destruct (decide (trim t = "")) as [E|E].
  - by rewrite bool_decide_eq_true_2.
  - by rewrite bool_decide_eq_false_2.
Qed.

(** The categorization with a credential, step by step: the encoding of
    the image, then one request, whose answer decides the category. *)
Lemma suggestCategory_run (key : string) (W : World) (u : string)
    (log : list Event) :
  key ≠ "" →
  ∃ imageData log1,
    fileToGenerativePart W u log = (Ok imageData, log1)
    ∧ match imageData with
      | None => suggestCategory key W u log = (Ok "Uncategorized", log1)
      | Some imageData =>
          ∃ rest,
            suggestCategory key W u log
            = (Ok (categoryOfAnswer
                     (w_generateContent W log1 (categoryRequest imageData))),
               log1 ++ EvGenerateContent (categoryRequest imageData) :: rest)
      end.
Proof.
  intros Hkey.
  destruct (fileToGenerativePart_returns W u log) as (r & evs & Hpart).
  exists r, (log ++ evs). split; [done|].
  unfold suggestCategory, nonEmpty.
  rewrite bool_decide_eq_false_2 by done. cbn [negb].
  unfold tryCatch, bind. rewrite Hpart.
  destruct r as [imageData|]; [|done].
  unfold generateContent, perform. fold (categoryRequest imageData).
  destruct (w_generateContent W (log ++ evs) (categoryRequest imageData))
    as [response|e] eqn:Hanswer.
  - exists []. unfold ret. by rewrite orElse_trimmed.
  - unfold handleGeminiError. cbn [categoryOfAnswer].
    destruct (isQuotaError e); unfold emit, perform, ret; eexists;
      by rewrite <- app_assoc.
Qed.

(** C5 (as amended): the categorization never raises; it returns
    "Uncategorized" or the trimmed text of the answer of the model when
    that text is not empty, whatever that text is; without a credential it
    returns "Uncategorized" and does nothing. With a credential it encodes
    the image and, when that gives an image, sends one request with the
    image and the prompt: the category is the trimmed text of the answer
    to that request when the text is not empty, and "Uncategorized" when
    the encoding gives no image, the request fails, or the text is empty
    or missing. The texts are those of the model, of code units below 256,
    on which [trim] is the trim of ECMAScript. *)
Theorem suggestCategory_result (key : string) (W : World) (u : string)
    (log : list Event) :
  ∃ c evs,
    suggestCategory key W u log = (Ok c, log ++ evs)
    ∧ categoryOfModel W c
    ∧ Forall isGatewayEvent evs
    ∧ (key = "" → c = "Uncategorized" ∧ evs = [])
    ∧ (key ≠ "" →
       ∃ imageData log1,
         fileToGenerativePart W u log = (Ok imageData, log1)
         ∧ match imageData with
           | None => c = "Uncategorized" ∧ log ++ evs = log1
           | Some imageData =>
               c = categoryOfAnswer
                     (w_generateContent W log1 (categoryRequest imageData))
               ∧ ∃ rest,
                   log ++ evs
                   = log1 ++ EvGenerateContent (categoryRequest imageData)
                            :: rest
           end)
    ∧ (∀ s, codeUnits (trim s) = trimUnits (codeUnits s)).
Proof.
  destruct (suggestCategory_returns key W u log)
    as (c & evs & Hrun & Hc & Hevs).
  exists c, evs. split; [done|]. split; [done|]. split; [done|].
  split; [|split; [|apply trim_codeUnits]].
  - intros ->. cbn in Hrun. injection Hrun as <- Hlog.
    split; [done|]. symmetry. by apply (app_inv_head log), symmetry;
      rewrite app_nil_r.
  - intros Hkey.
    destruct (suggestCategory_run key W u log Hkey)
      as (imageData & log1 & Hpart & Hcase).
    exists imageData, log1. split; [done|].
    destruct imageData as [imageData|].
    + destruct Hcase as (rest & Hcase). rewrite Hcase in Hrun.
      injection Hrun as <- <-. split; [done|]. by exists rest.
    + rewrite Hcase in Hrun. by injection Hrun as <- <-.
Qed.

(** C5 (as stated) fails: the answer of the model is returned as it is,
    also when it is none of the labels. *)
Lemma categorizeClosed_counterexample : ¬ categorizeClosed.
Proof.
  intros H. destruct (H "key" sampleWorld "blob:photo" [])
    as (c & log' & Hrun & Hc).
  vm_compute in Hrun. injection Hrun as <- _.
  unfold Store.ImageCategory_values in Hc.
  repeat (apply elem_of_cons in Hc as [Hc|Hc]; [discriminate Hc|]).
  by apply elem_of_nil in Hc.
Qed.

(** An answer that is one of the labels is returned as that label. *)
Lemma suggestCategory_sample :
  (suggestCategory "key" sampleWorld "blob:photo" []).1 = Ok "Sunset"
  ∧ (suggestCategory "key" failingWorld "blob:photo" []).1
    = Ok "Uncategorized".
Proof. by vm_compute. Qed.

(** *** The categorization queue *)

Lemma processCategoriesQueue_cons (key : string) (W : World)
    (p : Store.Photo) (rest : list Store.Photo) (log evs : list Event)
    (cat : string) :
  suggestCategory key W (Store.url p) log = (Ok cat, log ++ evs) →
  processCategoriesQueue key W (p :: rest) log
  = processCategoriesQueue key W rest
      (log ++ evs ++ [EvSetCategory (Store.id p) cat; EvSleep 1000]).
Proof.
  intros Hcat. cbn [processCategoriesQueue].
  unfold bind at 1. unfold tryCatch. unfold bind at 1. rewrite Hcat.
  unfold bind, emit, perform. cbn.
  by rewrite <- !app_assoc.
Qed.

Lemma schedule_gateway (evs : list Event) :
  Forall isGatewayEvent evs → schedule evs = [].
Proof.
  induction 1 as [|ev evs [Hev _] _ IH]; [done|].
  unfold schedule in *. cbn. by rewrite Hev.
Qed.

Lemma schedule_app (evs1 evs2 : list Event) :
  schedule (evs1 ++ evs2) = schedule evs1 ++ schedule evs2.
Proof. apply omap_app. Qed.

(** C6: the queue takes the photos of a batch one at a time, in their
    order: the categorization of a photo returns (with the answer of the
    model or, when anything fails, with the fallback), then the category
    of the photo is updated, then the queue sleeps 1000 ms, and only then
    the next photo is taken. Nothing that happens to one photo keeps the
    queue from the later ones: every photo of the batch gets its update and
    its delay, and the [catch] of the queue is never entered. *)
Theorem processCategoriesQueue_sequential (key : string) (W : World)
    (newPhotos : list Store.Photo) (log : list Event) :
  ∃ evs,
    processCategoriesQueue key W newPhotos log = (Ok tt, log ++ evs)
    ∧ QueueRun key W newPhotos log (log ++ evs)
    ∧ schedule evs
      = flat_map (λ p, [inl (Store.id p); inr 1000]) newPhotos
    ∧ Forall (λ ev, isSkipWarning ev = false) evs.
Proof.
  revert log. induction newPhotos as [|p rest IH]; intros log.
  - exists []. rewrite app_nil_r.
    split; [done|]. split; [constructor|]. by split.
  - destruct (suggestCategory_returns key W (Store.url p) log)
      as (cat & evs1 & Hcat & _ & Hgw).
    destruct (IH (log ++ evs1
                  ++ [EvSetCategory (Store.id p) cat; EvSleep 1000]))
      as (evs2 & Hrun & Hq & Hsched & Hwarn).
    exists (evs1 ++ [EvSetCategory (Store.id p) cat; EvSleep 1000] ++ evs2).
    assert (log ++ evs1 ++ [EvSetCategory (Store.id p) cat; EvSleep 1000]
              ++ evs2
            = (log ++ evs1 ++ [EvSetCategory (Store.id p) cat; EvSleep 1000])
              ++ evs2) as Hassoc by (by rewrite <- !app_assoc).
    rewrite Hassoc.
    split; [by rewrite (processCategoriesQueue_cons _ _ _ _ _ _ _ Hcat)|].
    split; [by econstructor|]. split.
    + rewrite !schedule_app, (schedule_gateway evs1 Hgw), Hsched. done.
    + apply Forall_app. split.
      * eapply Forall_impl; [exact Hgw|]. by intros ev [_ ?].
      * by repeat constructor.
Qed.

(** A batch of three photos in a world where the model rejects every
    request: each photo is categorized as "Uncategorized", 1000 ms apart. *)
Lemma processCategoriesQueue_failing_sample :
  let batch := Ui.uploadedPhoto <$>
                 [("a", "data:a", "a.jpg"); ("b", "data:b", "b.jpg");
                  ("c", "data:c", "c.jpg")] in
  schedule (processCategoriesQueue "key" failingWorld batch []).2
  = [inl "a"; inr 1000; inl "b"; inr 1000; inl "c"; inr 1000]
  ∧ Store.category
      <$> Store.photos
            (applyUpdates (processCategoriesQueue "key" failingWorld batch []).2
               (Store.appendPhotos batch (Ui.app Ui.initial)))
    = ["Uncategorized"; "Uncategorized"; "Uncategorized"].
Proof. by vm_compute. Qed.

(** *** The marker of the pointed object removal *)

Lemma mul_comm (x y : spec_float) : mul x y = mul y x.
Proof.
  unfold mul. destruct x as [sx|sx| |sx mx ex], y as [sy|sy| |sy my ey];
    cbn [SFmul]; rewrite ?(xorb_comm sx sy); try reflexivity.
  by rewrite (Pos.mul_comm mx my), (Z.add_comm ex ey).
Qed.

Lemma pointRequest_sat (W : World) :
  sat (tryCatch
         (let* base64Url := toDataURL W "image/jpeg" 85 in
          let* apiResponse :=
            generateContent W
              (mediaRequest "gemini-2.5-flash-image"
                 {| mimeType := "image/jpeg";
                    data := splitComma1 base64Url |}
                 "Remove the object covered by the red circle and the red circle itself. Fill in the background naturally to match the surroundings.") in
          ret (imageOfResponse apiResponse))
         (λ error,
            let* _ := handleGeminiError error "object removal at point" in
            ret None))
      (λ _, True) (λ _, True) (λ _, False).
Proof.
  eapply (sat_tryCatch _ _ _ _ (λ _, True)).
  - eapply (sat_bind _ _ _ (λ _, True)); [by apply sat_perform|].
    intros base64Url _.
    eapply (sat_bind _ _ _ (λ _, True)); [by apply sat_perform|].
    intros apiResponse _. by apply sat_ret.
  - intros e _. eapply (sat_bind _ _ _ (λ _, True)).
    + unfold handleGeminiError. destruct (isQuotaError e); by apply sat_emit.
    + intros _ _. by apply sat_ret.
Qed.

Lemma encodeRequest_sat (W : World) :
  sat (tryCatch
         (let* base64Url := toDataURL W "image/jpeg" 80 in
          ret (Some {| mimeType := "image/jpeg";
                       data := splitComma1 base64Url |}))
         (λ error,
            let* _ :=
              emit (EvConsoleError "Error processing image for Gemini:") in
            ret None))
      (λ _, True) (λ _, True) (λ _, False).
Proof.
  eapply (sat_tryCatch _ _ _ _ (λ _, True)).
  - eapply (sat_bind _ _ _ (λ _, True)); [by apply sat_perform|].
    intros base64Url _. by apply sat_ret.
  - intros e _. eapply (sat_bind _ _ _ (λ _, True)); [by apply sat_emit|].
    intros _ _. by apply sat_ret.
Qed.

(** The canvas of [fileToGenerativePart] has the resized dimensions of the
    bitmap, and so has the canvas of [removeObjectAtPoint] (see below). *)
Lemma fileToGenerativePart_canvas (W : World) (url : string)
    (log : list Event) (blob : FetchedBlob) (bitmap : ImageBitmap) :
  (∀ l, w_fetch W l url = Ok blob) →
  (∀ l, w_createImageBitmap W l blob = Ok bitmap) →
  (∀ l, w_getContext W l = true) →
  let dims :=
    resizeDimensions (ofZ (bitmap_width bitmap))
                     (ofZ (bitmap_height bitmap)) in
  ∃ rest,
    (fileToGenerativePart W url log).2
    = log ++ [EvFetch url; EvCreateImageBitmap blob;
              EvCanvas dims.1 dims.2; EvGetContext;
              EvDrawImage dims.1 dims.2] ++ rest.
Proof.
  intros Hfetch Hbitmap Hctx dims.
  unfold fileToGenerativePart.
  unfold tryCatch, bind at 1, fetchBlob, perform at 1. rewrite Hfetch.
  unfold bind at 1, perform at 1. rewrite Hbitmap.
  unfold bind at 1, drawResized.
  subst dims. destruct (resizeDimensions _ _) as [width height].
  cbn [fst snd].
  unfold bind at 1, emit at 1, perform at 1.
  unfold bind at 1, perform at 1. rewrite Hctx.
  unfold bind at 1, emit at 1, perform at 1. unfold ret at 1.
  match goal with
  | |- context [bind ?m ?k ?l] =>
      destruct (encodeRequest_sat W l) as (evs & Hevs & _)
  end.
  unfold tryCatch in Hevs. exists evs.
  etrans; [exact Hevs|]. by rewrite <- !app_assoc.
Qed.

(** C3: when the image is fetched and decoded and the canvas has a 2D
    context, [removeObjectAtPoint] draws the bitmap on a canvas of the
    resized dimensions [width] by [height] and then fills, in pure red, a
    full circle with centre [(x * width, y * height)] and radius
    [max(20, 0.05 * min(width, height))], for every [x] and [y], inside
    [[0,1]] or not; on an image of 1000 by 1000 pixels with [x = y = 0.5]
    the centre is (500, 500) and the radius is 50, which is at least 20. *)
Theorem removeObjectAtPoint_marker (key : string) (W : World)
    (photoUrl : string) (x y : spec_float) (log : list Event)
    (blob : FetchedBlob) (bitmap : ImageBitmap) :
  nonEmpty key = true →
  (∀ l, w_fetch W l photoUrl = Ok blob) →
  (∀ l, w_createImageBitmap W l blob = Ok bitmap) →
  (∀ l, w_getContext W l = true) →
  let width :=
    (resizeDimensions (ofZ (bitmap_width bitmap))
                      (ofZ (bitmap_height bitmap))).1 in
  let height :=
    (resizeDimensions (ofZ (bitmap_width bitmap))
                      (ofZ (bitmap_height bitmap))).2 in
  (∃ rest,
     (removeObjectAtPoint key W photoUrl x y log).2
     = log ++ [EvFetch photoUrl; EvCreateImageBitmap blob;
               EvCanvas width height; EvGetContext;
               EvDrawImage width height;
               EvArc (mul x width) (mul y height)
                     (Math_max (ofZ 20)
                        (mul lit_0_05 (Math_min width height)))
                     (ofZ 0) (mul (ofZ 2) Math_PI);
               EvFill "#FF0000"] ++ rest)
  ∧ markerAt (ofZ 1000) (ofZ 1000) half half
    = {| centerX := ofZ 500; centerY := ofZ 500; radius := ofZ 50 |}
  ∧ SFleb (ofZ 20) (ofZ 50) = true.
Proof.
  intros Hkey Hfetch Hbitmap Hctx width height.
  split; [|by vm_compute].
  unfold removeObjectAtPoint. rewrite Hkey. cbn [negb].
  unfold tryCatch, bind at 1, fetchBlob, perform at 1. rewrite Hfetch.
  unfold bind at 1, perform at 1. rewrite Hbitmap.
  unfold bind at 1, drawResized.
  subst width height.
  destruct (resizeDimensions _ _) as [width height]. cbn [fst snd].
  unfold bind at 1, emit at 1, perform at 1.
  unfold bind at 1, perform at 1. rewrite Hctx.
  unfold bind at 1, emit at 1, perform at 1. unfold ret at 1.
  unfold bind at 1, drawMarker, bind at 1, emit, perform at 1.
  unfold perform at 1. unfold markerAt. cbn [centerX centerY radius].
  rewrite (mul_comm (Math_min width height) lit_0_05).
  change lit_20 with (ofZ 20).
  match goal with
  | |- context [bind ?m ?k ?l] =>
      destruct (pointRequest_sat W l) as (evs & Hevs & _)
  end.
  unfold tryCatch in Hevs. exists evs.
  etrans; [exact Hevs|]. by rewrite <- !app_assoc.
Qed.

Lemma removeObjectAtPoint_marker_witness :
  ∃ rest,
    (removeObjectAtPoint "key" sampleWorld "blob:photo" half half []).2
    = [EvFetch "blob:photo";
       EvCreateImageBitmap {| fb_type := "image/jpeg"; fb_id := 1 |};
       EvCanvas (ofZ 1000) (ofZ 1000); EvGetContext;
       EvDrawImage (ofZ 1000) (ofZ 1000);
       EvArc (ofZ 500) (ofZ 500) (ofZ 50) (ofZ 0) (mul (ofZ 2) Math_PI);
       EvFill "#FF0000"] ++ rest.
Proof.
  destruct (removeObjectAtPoint_marker "key" sampleWorld "blob:photo"
              half half [] {| fb_type := "image/jpeg"; fb_id := 1 |}
              {| bitmap_width := 1000; bitmap_height := 1000 |}
              eq_refl (λ _, eq_refl) (λ _, eq_refl) (λ _, eq_refl))
    as [[rest Hrest] _].
  exists rest. exact Hrest.
Defined.

(** The coordinates are not clamped: a click at [x = 2], [y = -1] on an
    image of 1000 by 1000 pixels puts the centre at (2000, -1000), outside
    the canvas. *)
Lemma markerAt_not_clamped :
  markerAt (ofZ 1000) (ofZ 1000) (ofZ 2) (ofZ (-1))
  = {| centerX := ofZ 2000; centerY := ofZ (-1000); radius := ofZ 50 |}.
Proof. by vm_compute. Qed.

End GatewayFacts.

(** ** The calls of the gateway *)

Section GatewayCallFacts.
Import Number Canvas Gateway GatewayCalls.

(** *** Counting rules *)

Lemma count_app (which : Event → bool) (evs1 evs2 : list Event) :
  count which (evs1 ++ evs2) = (count which evs1 + count which evs2)%nat.
Proof. unfold count. by rewrite List.filter_app, length_app. Qed.

Lemma atMost_ret {A} (which : Event → bool) (n : nat) (v : A) :
  atMost which n (ret v).
Proof. intros log. exists []. rewrite app_nil_r. split; [done|]. cbn. lia. Qed.

Lemma atMost_throw {A} (which : Event → bool) (n : nat) (e : JsError) :
  atMost which n (throw e : M A).
Proof. intros log. exists []. rewrite app_nil_r. split; [done|]. cbn. lia. Qed.

Lemma atMost_lift {A} (which : Event → bool) (n : nat) (r : Result A) :
  atMost which n (lift r).
Proof. intros log. exists []. rewrite app_nil_r. split; [done|]. cbn. lia. Qed.

Lemma atMost_perform {A} (which : Event → bool) (n : nat) (ev : Event)
    (answer : list Event → Result A) :
  (count which [ev] ≤ n)%nat → atMost which n (perform ev answer).
Proof. intros Hn log. by exists [ev]. Qed.

Lemma atMost_bind {A B} (which : Event → bool) (n1 n2 n : nat) (m : M A)
    (k : A → M B) :
  atMost which n1 m → (∀ a, atMost which n2 (k a)) → (n1 + n2 ≤ n)%nat →
  atMost which n (bind m k).
Proof.
  intros Hm Hk Hn log. unfold bind.
  destruct (Hm log) as (evs1 & Hlog1 & Hc1).
  destruct (m log) as [[a|e] log1]; cbn in *; subst log1.
  - destruct (Hk a (log ++ evs1)) as (evs2 & Hlog2 & Hc2).
    exists (evs1 ++ evs2). rewrite Hlog2, app_assoc. split; [done|].
    rewrite count_app. lia.
  - exists evs1. split; [done|]. lia.
Qed.

Lemma atMost_tryCatch {A} (which : Event → bool) (n1 n2 n : nat)
    (body : M A) (handler : JsError → M A) :
  atMost which n1 body → (∀ e, atMost which n2 (handler e)) →
  (n1 + n2 ≤ n)%nat →
  atMost which n (tryCatch body handler).
Proof.
  intros Hb Hh Hn log. unfold tryCatch.
  destruct (Hb log) as (evs1 & Hlog1 & Hc1).
  destruct (body log) as [[a|e] log1]; cbn in *; subst log1.
  - exists evs1. split; [done|]. lia.
  - destruct (Hh e (log ++ evs1)) as (evs2 & Hlog2 & Hc2).
    exists (evs1 ++ evs2). rewrite Hlog2, app_assoc. split; [done|].
    rewrite count_app. lia.
Qed.

End GatewayCallFacts.

(** ** The image functions of the gateway *)

Section ImageFacts.
Import Number Canvas Gateway GatewayCalls.

(** The loop over the parts returns the first part that carries data. *)
Lemma firstInlineImage_head (ps : list ResponsePart) :
  firstInlineImage ps
  = (λ d, "data:image/png;base64," +:+ d) <$> head (omap inlineImage ps).
Proof.
  induction ps as [|part ps IH]; [done|].
  cbn [firstInlineImage omap list_omap]. unfold inlineImage at 1.
  destruct (r_inlineData part ≫= r_data) as [d|]; [|exact IH].
  destruct (nonEmpty d); [done|exact IH].
Qed.

Lemma inlineImage_nonEmpty (part : ResponsePart) (d : string) :
  inlineImage part = Some d → d ≠ "".
Proof.
  unfold inlineImage, nonEmpty.
  destruct (r_inlineData part ≫= r_data) as [d'|]; [|done].
  destruct (bool_decide_reflect (d' = "")); cbn; [done|].
  by intros [= <-].
Qed.

Lemma head_omap_nonEmpty (ps : list ResponsePart) (d : string) :
  head (omap inlineImage ps) = Some d → d ≠ "".
Proof.
  induction ps as [|part ps IH]; [done|]. cbn [omap list_omap].
  destruct (inlineImage part) as [d'|] eqn:E; [|exact IH].
  intros [= <-]. by eapply inlineImage_nonEmpty.
Qed.

Lemma imageOfResponse_model (W : World) (log0 : list Event)
    (request : Request) (response : Response) :
  w_generateContent W log0 request = Ok response →
  model request = "gemini-2.5-flash-image" →
  imageOfModel W (imageOfResponse response).
Proof.
  intros Hresp Hmodel. unfold imageOfResponse.
  destruct (firstCandidateParts response) as [ps|] eqn:Hps; [|by left].
  rewrite firstInlineImage_head.
  destruct (head (omap inlineImage ps)) as [d|] eqn:Hd; [|by left].
  right. exists log0, request, response, ps, d.
  repeat (split; [done|]). split; [by eapply head_omap_nonEmpty|done].
Qed.

Lemma imageRequest_sat (W : World) (media : InlineData) (prompt : string)
    (T : JsError → Prop) :
  (∀ e, T e) →
  sat (let* response :=
         generateContent W
           (mediaRequest "gemini-2.5-flash-image" media prompt) in
       ret (imageOfResponse response))
      isGatewayEvent (imageOfModel W) T.
Proof.
  intros HT.
  eapply (sat_bind _ _ _
            (λ response, ∃ log0 request,
               w_generateContent W log0 request = Ok response
               ∧ model request = "gemini-2.5-flash-image")).
  { apply sat_perform; [done| |by intros]. intros log0 v Hv. by eexists _, _. }
  intros response (log0 & request & Hresp & Hmodel).
  apply sat_ret. by eapply imageOfResponse_model.
Qed.

Lemma describedImage_sat (W : World) (u context : string)
    (prompt : string) :
  sat (tryCatch
         (let* imageData := fileToGenerativePart W u in
          match imageData with
          | None => ret None
          | Some imageData =>
              let* response :=
                generateContent W
                  (mediaRequest "gemini-2.5-flash-image" imageData prompt) in
              ret (imageOfResponse response)
          end)
         (λ error,
            let* _ := handleGeminiError error context in
            ret None))
      isGatewayEvent (imageOfModel W) (λ _, False).
Proof.
  eapply (sat_tryCatch _ _ _ _ (λ _, True)).
  - eapply sat_bind.
    { eapply sat_weaken; [apply fileToGenerativePart_sat|done|done]. }
    intros [imageData|] _; [|apply sat_ret; by left].
    by apply imageRequest_sat.
  - intros e _.
    eapply (sat_bind _ _ _ (λ _, True)); [by apply handleGeminiError_sat|].
    intros _ _. apply sat_ret. by left.
Qed.

Lemma stylizeImage_sat (W : World) (key u style : string) :
  sat (stylizeImage key W u style) isGatewayEvent (imageOfModel W)
      (λ _, False).
Proof.
  unfold stylizeImage. destruct (negb (nonEmpty key)).
  - eapply (sat_bind _ _ _ (λ _, True)); [by apply sat_emit|].
    intros _ _. apply sat_ret. by left.
  - by apply describedImage_sat.
Qed.

Lemma removeObject_sat (W : World) (key u objectDescription : string) :
  sat (removeObject key W u objectDescription) isGatewayEvent
      (imageOfModel W) (λ _, False).
Proof.
  unfold removeObject. destruct (negb (nonEmpty key)).
  - eapply (sat_bind _ _ _ (λ _, True)); [by apply sat_emit|].
    intros _ _. apply sat_ret. by left.
  - by apply describedImage_sat.
Qed.

Lemma drawMarker_sat (width height x y : spec_float) (T : JsError → Prop) :
  sat (drawMarker width height x y) isGatewayEvent (λ _, True) T.
Proof.
  unfold drawMarker.
  eapply (sat_bind _ _ _ (λ _, True)); [by apply sat_emit|].
  intros _ _. by apply sat_emit.
Qed.

Lemma removeObjectAtPoint_sat (W : World) (key u : string)
    (x y : spec_float) :
  sat (removeObjectAtPoint key W u x y) isGatewayEvent (imageOfModel W)
      (λ _, False).
Proof.
  unfold removeObjectAtPoint. destruct (negb (nonEmpty key)).
  - eapply (sat_bind _ _ _ (λ _, True)); [by apply sat_emit|].
    intros _ _. apply sat_ret. by left.
  - eapply (sat_tryCatch _ _ _ _ (λ _, True)).
    + eapply (sat_bind _ _ _ (λ _, True));
        [apply sat_perform; [done|done|done]|].
      intros blob _.
      eapply (sat_bind _ _ _ (λ _, True));
        [apply sat_perform; [done|done|done]|].
      intros bitmap _.
      eapply sat_bind; [apply drawResized_sat|].
      intros [[width height]|] _; [|apply sat_ret; by left].
      eapply sat_bind; [apply drawMarker_sat|]. intros _ _.
      eapply (sat_bind _ _ _ (λ _, True));
        [apply sat_perform; [done|done|done]|].
      intros base64Url _. by apply imageRequest_sat.
    + intros e _.
      eapply (sat_bind _ _ _ (λ _, True)); [by apply handleGeminiError_sat|].
      intros _ _. apply sat_ret. by left.
Qed.

(** X1: the stylization and both object removals never raise, whatever the
    world answers (a failed download, an undecodable image, a rejected
    request): each returns null, or the data URL
    [data:image/png;base64,<d>] where [<d>] is the data, not empty, of the
    first part with inline data among the parts of the first candidate of
    an answer of the image model (as in the sample world, where the answer
    carries the data [BBBB]). *)
Theorem image_functions_result (key : string) (W : World)
    (photoUrl text : string) (x y : spec_float) (log : list Event) :
  (∃ r evs, stylizeImage key W photoUrl text log = (Ok r, log ++ evs)
            ∧ imageOfModel W r)
  ∧ (∃ r evs, removeObject key W photoUrl text log = (Ok r, log ++ evs)
              ∧ imageOfModel W r)
  ∧ (∃ r evs, removeObjectAtPoint key W photoUrl x y log
              = (Ok r, log ++ evs)
              ∧ imageOfModel W r)
  ∧ (stylizeImage "key" sampleWorld "blob:photo" "Anime" []).1
    = Ok (Some "data:image/png;base64,BBBB").
Proof.
  split; [|split; [|split; [|by vm_compute]]].
  - destruct (sat_returns _ _ _ log (stylizeImage_sat W key photoUrl text))
      as (r & evs & Hrun & _ & Hr). by exists r, evs.
  - destruct (sat_returns _ _ _ log (removeObject_sat W key photoUrl text))
      as (r & evs & Hrun & _ & Hr). by exists r, evs.
  - destruct (sat_returns _ _ _ log
                (removeObjectAtPoint_sat W key photoUrl x y))
      as (r & evs & Hrun & _ & Hr). by exists r, evs.
Qed.

End ImageFacts.

(** ** Failures and the number of requests *)

Section RequestFacts.
Import Number Canvas Gateway GatewayCalls.

Lemma fileToGenerativePart_offline (W : World) (u : string)
    (log : list Event) (e : JsError) :
  w_fetch W log u = Throw e →
  fileToGenerativePart W u log
  = (Ok None,
     log ++ [EvFetch u; EvConsoleError "Error processing image for Gemini:"]).
Proof.
  intros Hfetch. unfold fileToGenerativePart, tryCatch, bind at 1, fetchBlob,
    perform at 1.
  rewrite Hfetch. cbn. by rewrite <- app_assoc.
Qed.

Lemma audioToGenerativePart_offline (W : World) (u : string)
    (log : list Event) (e : JsError) :
  w_fetch W log u = Throw e →
  audioToGenerativePart W u log
  = (Ok None,
     log ++ [EvFetch u; EvConsoleError "Error processing audio for Gemini:"]).
Proof.
  intros Hfetch. unfold audioToGenerativePart, tryCatch, bind at 1,
    fetchBlob, perform at 1.
  rewrite Hfetch. cbn. by rewrite <- app_assoc.
Qed.

Lemma transcribeAudio_offline (key : string) (W : World) (u : string)
    (log : list Event) (e : JsError) :
  key ≠ "" → w_fetch W log u = Throw e →
  transcribeAudio key W u log
  = (Ok "Could not process audio data.",
     log ++ [EvFetch u; EvConsoleError "Error processing audio for Gemini:"]).
Proof.
  intros Hkey Hfetch. unfold transcribeAudio, nonEmpty.
  rewrite bool_decide_eq_false_2 by done. cbn [negb].
  unfold tryCatch, bind.
  by rewrite (audioToGenerativePart_offline W u log e Hfetch).
Qed.

(** X2: when the download of the image (or of the recording) fails, no
    request goes to the model; the download error is written to the console
    and each function returns its fallback: "Uncategorized" for the
    categorization, "Could not process image." for the narration,
    "Could not process audio data." for the transcription and null for the
    stylization and the object removal by description; the object removal
    at a point hands the error to [handleGeminiError] and returns null. *)
Theorem download_failure_fallbacks (key : string) (W : World)
    (u text : string) (log : list Event) (e : JsError) :
  key ≠ "" →
  w_fetch W log u = Throw e →
  let imageLog :=
    log ++ [EvFetch u; EvConsoleError "Error processing image for Gemini:"] in
  let audioLog :=
    log ++ [EvFetch u; EvConsoleError "Error processing audio for Gemini:"] in
  suggestCategory key W u log = (Ok "Uncategorized", imageLog)
  ∧ generateAutoNarration key W u text log
    = (Ok "Could not process image.", imageLog)
  ∧ stylizeImage key W u text log = (Ok None, imageLog)
  ∧ removeObject key W u text log = (Ok None, imageLog)
  ∧ transcribeAudio key W u log
    = (Ok "Could not process audio data.", audioLog)
  ∧ ∀ x y, removeObjectAtPoint key W u x y log
           = (Ok None,
              (handleGeminiError e "object removal at point"
                 (log ++ [EvFetch u])).2).
Proof.
  intros Hkey Hfetch imageLog audioLog.
  assert (negb (nonEmpty key) = false) as Hk.
  { unfold nonEmpty. by rewrite bool_decide_eq_false_2. }
  pose proof (fileToGenerativePart_offline W u log e Hfetch) as Himg.
  pose proof (audioToGenerativePart_offline W u log e Hfetch) as Haud.
  unfold suggestCategory, generateAutoNarration, stylizeImage, removeObject,
    transcribeAudio, removeObjectAtPoint.
  rewrite Hk.
  split; [unfold tryCatch, bind; by rewrite Himg|].
  split; [unfold tryCatch, bind; by rewrite Himg|].
  split; [unfold tryCatch, bind; by rewrite Himg|].
  split; [unfold tryCatch, bind; by rewrite Himg|].
  split; [unfold tryCatch, bind; by rewrite Haud|].
  intros x y.
  unfold tryCatch, bind at 1, fetchBlob, perform at 1. rewrite Hfetch.
  unfold bind, ret, handleGeminiError. by destruct (isQuotaError e).
Qed.

Lemma download_failure_fallbacks_witness :
  stylizeImage "key" offlineWorld "blob:photo" "Anime" []
  = (Ok None, [EvFetch "blob:photo";
               EvConsoleError "Error processing image for Gemini:"]).
Proof.
  destruct (download_failure_fallbacks "key" offlineWorld "blob:photo"
              "Anime" []
              {| err_status := VUndefined; err_code := VUndefined;
                 err_message := Some "Failed to fetch" |}
              ltac:(discriminate) eq_refl)
    as (_ & _ & H & _).
  exact H.
Defined.

(** *** At most one download and one request *)

Lemma atMost_bind0l {A B} (which : Event → bool) (n : nat) (m : M A)
    (k : A → M B) :
  atMost which 0 m → (∀ a, atMost which n (k a)) → atMost which n (bind m k).
Proof. intros Hm Hk. by eapply atMost_bind. Qed.

Lemma atMost_bind0r {A B} (which : Event → bool) (n : nat) (m : M A)
    (k : A → M B) :
  atMost which n m → (∀ a, atMost which 0 (k a)) → atMost which n (bind m k).
Proof. intros Hm Hk. eapply atMost_bind; [done|done|lia]. Qed.

Lemma atMost_try0 {A} (which : Event → bool) (n : nat) (body : M A)
    (handler : JsError → M A) :
  atMost which n body → (∀ e, atMost which 0 (handler e)) →
  atMost which n (tryCatch body handler).
Proof. intros Hb Hh. eapply atMost_tryCatch; [done|done|lia]. Qed.

Ltac calls :=
  lazymatch goal with
  | |- atMost _ _ (ret _) => apply atMost_ret
  | |- atMost _ _ (throw _) => apply atMost_throw
  | |- atMost _ _ (lift _) => apply atMost_lift
  | |- atMost _ _ (perform _ _) =>
      apply atMost_perform; unfold count; cbn; lia
  | |- atMost _ _ (emit _) =>
      apply atMost_perform; unfold count; cbn; lia
  | |- atMost _ _ (bind _ _) =>
      first [ apply atMost_bind0l; [solve [calls] | intros ?; calls]
            | apply atMost_bind0r; [calls | intros ?; solve [calls]] ]
  | |- atMost _ _ (tryCatch _ _) =>
      apply atMost_try0; [calls | intros ?; solve [calls]]
  | |- atMost _ _ (match ?x with _ => _ end) => destruct x; calls
  | |- atMost _ _ (fetchBlob _ _) => unfold fetchBlob; calls
  | |- atMost _ _ (toDataURL _ _ _) => unfold toDataURL; calls
  | |- atMost _ _ (generateContent _ _) => unfold generateContent; calls
  | |- atMost _ _ (drawResized _ _) => unfold drawResized; calls
  | |- atMost _ _ (drawMarker _ _ _ _) => unfold drawMarker; calls
  | |- atMost _ _ (handleGeminiError _ _) => unfold handleGeminiError; calls
  | |- atMost _ _ (fileToGenerativePart _ _) =>
      unfold fileToGenerativePart; calls
  | |- atMost _ _ (audioToGenerativePart _ _) =>
      unfold audioToGenerativePart; calls
  | |- atMost _ _ (audioUrlOfResponse _ _) =>
      unfold audioUrlOfResponse; calls
  end.

(** X3: one call of a function of the gateway sends at most one request to
    the model and downloads at most one file, whatever the world answers:
    nothing is retried. The speech and the track functions download
    nothing. *)
Theorem one_request_per_call (key : string) (W : World)
    (u text : string) (x y : spec_float) :
  (atMost isModelCall 1 (suggestCategory key W u)
   ∧ atMost isFetch 1 (suggestCategory key W u))
  ∧ (atMost isModelCall 1 (generateAutoNarration key W u text)
     ∧ atMost isFetch 1 (generateAutoNarration key W u text))
  ∧ (atMost isModelCall 1 (transcribeAudio key W u)
     ∧ atMost isFetch 1 (transcribeAudio key W u))
  ∧ (atMost isModelCall 1 (stylizeImage key W u text)
     ∧ atMost isFetch 1 (stylizeImage key W u text))
  ∧ (atMost isModelCall 1 (removeObject key W u text)
     ∧ atMost isFetch 1 (removeObject key W u text))
  ∧ (atMost isModelCall 1 (removeObjectAtPoint key W u x y)
     ∧ atMost isFetch 1 (removeObjectAtPoint key W u x y))
  ∧ (atMost isModelCall 1 (generateSpeech key W text)
     ∧ atMost isFetch 0 (generateSpeech key W text))
  ∧ (atMost isModelCall 1 (generateAiTrack key W text)
     ∧ atMost isFetch 0 (generateAiTrack key W text)).
Proof.
  unfold suggestCategory, generateAutoNarration, transcribeAudio,
    stylizeImage, removeObject, removeObjectAtPoint, generateSpeech,
    generateAiTrack.
  destruct (trackPreset text) as [[prompt voice] trackName].
  repeat split; calls.
Qed.

End RequestFacts.

(** ** The audio functions of the gateway *)

Section SpeechFacts.
Import Number Canvas Gateway GatewayCalls.

Lemma length_list_ascii_of_string (s : string) :
  length (list_ascii_of_string s) = String.length s.
Proof. induction s as [|c s IH]; [done|]. cbn. by rewrite IH. Qed.

Lemma audioUrlOfResponse_sat (W : World) (log0 : list Event)
    (request : Request) (response : Response) :
  w_generateContent W log0 request = Ok response →
  model request = "gemini-2.5-flash-preview-tts" →
  sat (audioUrlOfResponse W response) isGatewayEvent
      (λ r, ∀ u, r = Some u → wavOfModel W u) (λ _, True).
Proof.
  intros Hresp Hmodel. unfold audioUrlOfResponse.
  destruct (firstInlineAudio response) as [base64Audio|] eqn:Haudio;
    [|by apply sat_ret].
  destruct (nonEmpty base64Audio) eqn:Hne; [|by apply sat_ret].
  eapply (sat_bind _ _ _ (λ bin, w_atob W base64Audio = Ok bin)).
  { by apply sat_lift. }
  intros binaryString Hbin.
  unfold Wav.pcmToWav_default. rewrite pcmToWav_layout.
  set (pcm := Wav.charCodeAt <$> list_ascii_of_string binaryString).
  set (blob := {| Wav.blob_bytes := _; Wav.blob_type := _ |}).
  eapply (sat_bind _ _ _ (λ u, ∃ log1, u = w_createObjectURL W log1 blob)).
  { apply sat_perform; [done| |done]. intros log1 v [= <-]. by exists log1. }
  intros u [log1 ->]. apply sat_ret. intros u' [= <-].
  destruct (pcmToWav_length pcm 24000 blob (pcmToWav_layout _ _))
    as (Hlen & Hdrop & Htype).
  exists log0, log1, request, response, base64Audio, binaryString, blob.
  split; [done|]. split; [done|]. split; [done|].
  split.
  { unfold nonEmpty in Hne. intros ->. done. }
  split; [done|]. split; [apply pcmToWav_layout|]. split; [done|].
  split.
  { rewrite Hlen. subst pcm.
    by rewrite length_fmap, length_list_ascii_of_string. }
  split; [done|]. split; [|done].
  subst blob. cbn [Wav.blob_bytes]. by rewrite readWavHeader_wrapped.
Qed.

Lemma generateSpeech_sat (W : World) (key text : string) :
  sat (generateSpeech key W text) isGatewayEvent
      (λ r, ∀ u, r = Some u → wavOfModel W u) (λ _, False).
Proof.
  unfold generateSpeech. destruct (negb (nonEmpty key)); [by apply sat_ret|].
  eapply (sat_tryCatch _ _ _ _ (λ _, True)).
  - eapply (sat_bind _ _ _
              (λ response, ∃ log0 request,
                 w_generateContent W log0 request = Ok response
                 ∧ model request = "gemini-2.5-flash-preview-tts")).
    { apply sat_perform; [done| |done]. intros log0 v Hv. by eexists _, _. }
    intros response (log0 & request & Hresp & Hmodel).
    by eapply audioUrlOfResponse_sat.
  - intros e _.
    eapply (sat_bind _ _ _ (λ _, True)); [by apply handleGeminiError_sat|].
    intros _ _. by apply sat_ret.
Qed.

Lemma generateAiTrack_sat (W : World) (key category : string) :
  sat (generateAiTrack key W category) isGatewayEvent
      (λ r, ∀ u n, r = Some (u, n) →
                   wavOfModel W u ∧ n = (trackPreset category).2)
      (λ _, False).
Proof.
  unfold generateAiTrack. destruct (negb (nonEmpty key)); [by apply sat_ret|].
  destruct (trackPreset category) as [[prompt voice] trackName].
  eapply (sat_tryCatch _ _ _ _ (λ _, True)).
  - eapply (sat_bind _ _ _
              (λ response, ∃ log0 request,
                 w_generateContent W log0 request = Ok response
                 ∧ model request = "gemini-2.5-flash-preview-tts")).
    { apply sat_perform; [done| |done]. intros log0 v Hv. by eexists _, _. }
    intros response (log0 & request & Hresp & Hmodel).
    eapply sat_bind; [by eapply audioUrlOfResponse_sat|].
    intros [u|] Hu; apply sat_ret; [|done].
    intros u' n [= <- <-]. split; [by apply Hu|done].
  - intros e _.
    eapply (sat_bind _ _ _ (λ _, True)); [by apply handleGeminiError_sat|].
    intros _ _. by apply sat_ret.
Qed.

(** X4: the speech and the track functions never raise, also when the
    answer of the model is rejected or its audio is not valid base64 and
    [atob] throws: each returns null, or an object URL of a WAV blob of type
    [audio/wav] that holds the 44 bytes of the header, with the sample rate
    24000, followed by the bytes that [atob] decoded from the first part of
    the answer of the speech model. The name of a track is the one of the
    preset of its category, as "Rhythm Burst (AI)" for "Upbeat" in the
    sample world. *)
Theorem audio_functions_result (key : string) (W : World)
    (text category : string) (log : list Event) :
  (∃ r evs, generateSpeech key W text log = (Ok r, log ++ evs)
            ∧ ∀ u, r = Some u → wavOfModel W u)
  ∧ (∃ r evs, generateAiTrack key W category log = (Ok r, log ++ evs)
              ∧ ∀ u n, r = Some (u, n) →
                       wavOfModel W u ∧ n = (trackPreset category).2)
  ∧ (generateAiTrack "key" sampleWorld "Upbeat" []).1
    = Ok (Some ("blob:1", "Rhythm Burst (AI)")).
Proof.
  split; [|split; [|by vm_compute]].
  - destruct (sat_returns _ _ _ log (generateSpeech_sat W key text))
      as (r & evs & Hrun & _ & Hr). by exists r, evs.
  - destruct (sat_returns _ _ _ log (generateAiTrack_sat W key category))
      as (r & evs & Hrun & _ & Hr). by exists r, evs.
Qed.

End SpeechFacts.

(** ** The media parts of a request *)

Section PartFacts.
Import Number Canvas Gateway GatewayCalls.

Lemma append_String (c : ascii) (s1 s2 : string) :
  String c s1 +:+ s2 = String c (s1 +:+ s2).
Proof. reflexivity. Qed.

Lemma untilComma_app (payload rest : string) :
  Forall (λ c, c ≠ ","%char) (list_ascii_of_string payload) →
  untilComma (payload +:+ String "," rest) = payload
  ∧ untilComma payload = payload.
Proof.
  induction payload as [|c payload IH].
  - intros _. split; [|done].
    change ("" +:+ String "," rest) with (String "," rest).
    cbn [untilComma]. by rewrite bool_decide_eq_true_2.
  - cbn [list_ascii_of_string]. intros H. apply Forall_cons in H as [Hc H].
    rewrite append_String. cbn [untilComma].
    rewrite bool_decide_eq_false_2 by done.
    destruct (IH H) as [-> ->]. done.
Qed.

Lemma splitComma1_app (prefix s : string) :
  Forall (λ c, c ≠ ","%char) (list_ascii_of_string prefix) →
  splitComma1 (prefix +:+ String "," s) = Some (untilComma s).
Proof.
  induction prefix as [|c prefix IH].
  - intros _. change ("" +:+ String "," s) with (String "," s).
    cbn [splitComma1]. by rewrite bool_decide_eq_true_2.
  - cbn [list_ascii_of_string]. intros H. apply Forall_cons in H as [Hc H].
    rewrite append_String. cbn [splitComma1].
    rewrite bool_decide_eq_false_2 by done. by apply IH.
Qed.

Lemma splitComma1_none (s : string) :
  Forall (λ c, c ≠ ","%char) (list_ascii_of_string s) →
  splitComma1 s = None.
Proof.
  induction s as [|c s IH]; cbn; [done|].
  intros H. apply Forall_cons in H as [Hc H].
  rewrite bool_decide_eq_false_2 by done. by apply IH.
Qed.

Lemma fileToGenerativePart_part_sat (W : World) (u : string) :
  sat (fileToGenerativePart W u) isGatewayEvent
      (λ r, ∀ img, r = Some img →
              mimeType img = "image/jpeg"
              ∧ ∃ log0 dataUrl, w_toDataURL W log0 = Ok dataUrl
                                ∧ data img = splitComma1 dataUrl)
      (λ _, False).
Proof.
  unfold fileToGenerativePart.
  eapply (sat_tryCatch _ _ _ _ (λ _, True)).
  - eapply (sat_bind _ _ _ (λ _, True)); [apply sat_perform; [done|done|done]|].
    intros blob _.
    eapply (sat_bind _ _ _ (λ _, True)); [apply sat_perform; [done|done|done]|].
    intros bitmap _.
    eapply sat_bind; [apply drawResized_sat|].
    intros [canvas|] _; [|by apply sat_ret].
    eapply (sat_bind _ _ _
              (λ dataUrl, ∃ log0, w_toDataURL W log0 = Ok dataUrl)).
    { apply sat_perform; [done| |done]. intros log0 v Hv. by exists log0. }
    intros base64Url [log0 Hurl]. apply sat_ret.
    intros img [= <-]. split; [done|]. by exists log0, base64Url.
  - intros e _.
    eapply (sat_bind _ _ _ (λ _, True)); [apply sat_emit; [done|done]|].
    intros _ _. by apply sat_ret.
Qed.

Lemma audioToGenerativePart_part_sat (W : World) (u : string) :
  sat (audioToGenerativePart W u) isGatewayEvent
      (λ r, ∀ aud, r = Some aud →
              ∃ log0 log1 blob dataUrl,
                w_fetch W log0 u = Ok blob
                ∧ w_readAsDataURL W log1 blob = Ok dataUrl
                ∧ mimeType aud
                  = (if decide (fb_type blob = "") then "audio/wav"
                     else fb_type blob)
                ∧ data aud = splitComma1 dataUrl)
      (λ _, False).
Proof.
  unfold audioToGenerativePart.
  eapply (sat_tryCatch _ _ _ _ (λ _, True)).
  - eapply (sat_bind _ _ _ (λ blob, ∃ log0, w_fetch W log0 u = Ok blob)).
    { apply sat_perform; [done| |done]. intros log0 v Hv. by exists log0. }
    intros blob [log0 Hblob].
    eapply (sat_bind _ _ _
              (λ dataUrl, ∃ log1, w_readAsDataURL W log1 blob = Ok dataUrl)).
    { apply sat_perform; [done| |done]. intros log1 v Hv. by exists log1. }
    intros base64String [log1 Hurl]. apply sat_ret.
    intros aud [= <-]. exists log0, log1, blob, base64String.
    split; [done|]. split; [done|]. split; [|done].
    cbn [mimeType]. unfold orElse, nonEmpty.
    destruct (decide (fb_type blob = "")) as [->|Hne]; [done|].
    by rewrite bool_decide_eq_false_2.
  - intros e _.
    eapply (sat_bind _ _ _ (λ _, True)); [apply sat_emit; [done|done]|].
    intros _ _. by apply sat_ret.
Qed.

(** X5: the two encoders of media never raise. [fileToGenerativePart]
    returns null or a part of type [image/jpeg] whose data is what follows
    the first comma of the data URL of the canvas; [audioToGenerativePart]
    returns null or a part with the type of the downloaded blob, or
    [audio/wav] when the blob has no type, and the data after the first
    comma of what the reader gave. For a data URL [<prefix>,<payload>] with
    no comma in the prefix nor in the payload, that data is the payload;
    for a text without a comma it is undefined. *)
Theorem media_parts_result (W : World) (u : string) (log : list Event) :
  (∃ r evs, fileToGenerativePart W u log = (Ok r, log ++ evs)
     ∧ ∀ img, r = Some img →
         mimeType img = "image/jpeg"
         ∧ ∃ log0 dataUrl, w_toDataURL W log0 = Ok dataUrl
                           ∧ data img = splitComma1 dataUrl)
  ∧ (∃ r evs, audioToGenerativePart W u log = (Ok r, log ++ evs)
       ∧ ∀ aud, r = Some aud →
           ∃ log0 log1 blob dataUrl,
             w_fetch W log0 u = Ok blob
             ∧ w_readAsDataURL W log1 blob = Ok dataUrl
             ∧ mimeType aud
               = (if decide (fb_type blob = "") then "audio/wav"
                  else fb_type blob)
             ∧ data aud = splitComma1 dataUrl)
  ∧ (∀ prefix payload : string,
       Forall (λ c, c ≠ ","%char) (list_ascii_of_string prefix) →
       Forall (λ c, c ≠ ","%char) (list_ascii_of_string payload) →
       splitComma1 (prefix +:+ String "," payload) = Some payload
       ∧ splitComma1 prefix = None).
Proof.
  split; [|split].
  - destruct (sat_returns _ _ _ log (fileToGenerativePart_part_sat W u))
      as (r & evs & Hrun & _ & Hr). by exists r, evs.
  - destruct (sat_returns _ _ _ log (audioToGenerativePart_part_sat W u))
      as (r & evs & Hrun & _ & Hr). by exists r, evs.
  - intros prefix payload Hprefix Hpayload.
    rewrite splitComma1_app by done.
    destruct (untilComma_app payload "" Hpayload) as [_ ->].
    split; [done|]. by apply splitComma1_none.
Qed.

End PartFacts.

(** ** The categorization queue and the store *)

Section QueueFacts.
Import Number Canvas Gateway GatewayCalls.

Lemma processCategoriesQueue_quiet (W : World)
    (newPhotos : list Store.Photo) (log : list Event) :
  processCategoriesQueue "" W newPhotos log
  = (Ok tt,
     log ++ flat_map (λ p, [EvSetCategory (Store.id p) "Uncategorized";
                            EvSleep 1000]) newPhotos).
Proof.
  revert log. induction newPhotos as [|p rest IH]; intros log.
  - cbn. by rewrite app_nil_r.
  - rewrite (processCategoriesQueue_cons "" W p rest log [] "Uncategorized")
      by (cbn; by rewrite app_nil_r).
    rewrite IH. cbn [flat_map app]. by rewrite <- !app_assoc.
Qed.

(** X6: without a credential the queue sends nothing, and still gives
    every photo of the batch the category "Uncategorized" and waits 1000 ms
    after each: a batch of [n] photos takes [n] seconds. *)
Theorem processCategoriesQueue_no_credential (W : World)
    (newPhotos : list Store.Photo) (log : list Event) :
  processCategoriesQueue "" W newPhotos log
  = (Ok tt,
     log ++ flat_map (λ p, [EvSetCategory (Store.id p) "Uncategorized";
                            EvSleep 1000]) newPhotos).
Proof. apply processCategoriesQueue_quiet. Qed.

Lemma applyUpdates_app (evs1 evs2 : list Event) (s : Store.AppState) :
  applyUpdates (evs1 ++ evs2) s = applyUpdates evs2 (applyUpdates evs1 s).
Proof.
  revert s. induction evs1 as [|ev evs1 IH]; intros s; [done|].
  destruct ev; cbn; apply IH.
Qed.

Lemma applyUpdates_gateway (evs : list Event) (s : Store.AppState) :
  Forall isGatewayEvent evs → applyUpdates evs s = s.
Proof.
  induction 1 as [|ev evs [Hev _] _ IH]; [done|].
  destruct ev; cbn; try exact IH. discriminate Hev.
Qed.

Lemma onlyCategories_refl (ids : list string) (s : Store.AppState) :
  onlyCategories ids s s.
Proof.
  split; [by destruct s|]. intros k.
  destruct (Store.photos s !! k) as [p|]; [|done].
  split; [by destruct p|done].
Qed.

Lemma onlyCategories_trans (ids : list string) (s1 s2 s3 : Store.AppState) :
  onlyCategories ids s1 s2 → onlyCategories ids s2 s3 →
  onlyCategories ids s1 s3.
Proof.
  intros [H12 K12] [H23 K23]. split.
  { rewrite H23 at 1. rewrite H12. by destruct s1. }
  intros k. specialize (K12 k). specialize (K23 k).
  destruct (Store.photos s1 !! k) as [p1|],
    (Store.photos s2 !! k) as [p2|], (Store.photos s3 !! k) as [p3|];
    try done.
  destruct K12 as [E12 F12], K23 as [E23 F23]. split.
  - rewrite <- E12, <- E23. by destruct p3.
  - intros Hid. rewrite <- (F12 Hid). apply F23.
    by rewrite (F12 Hid).
Qed.

Lemma onlyCategories_set (ids : list string) (i cat : string)
    (s : Store.AppState) :
  i ∈ ids → onlyCategories ids s (Store.setCategoryById i cat s).
Proof.
  intros Hi. split; [done|]. intros k.
  unfold Store.setCategoryById. cbn [Store.photos Store.with_photos].
  rewrite list_lookup_fmap.
  destruct (Store.photos s !! k) as [p|]; [|done]. cbn.
  destruct (Store.idIs i p) eqn:E.
  - split; [by destruct p|]. apply idIs_true in E. intros Hid. congruence.
  - split; [by destruct p|done].
Qed.

Lemma onlyCategories_mono (ids ids' : list string) (s s' : Store.AppState) :
  ids ⊆ ids' → onlyCategories ids s s' → onlyCategories ids' s s'.
Proof.
  intros Hsub [H K]. split; [done|]. intros k. specialize (K k).
  destruct (Store.photos s !! k) as [p|], (Store.photos s' !! k) as [p'|];
    try done.
  destruct K as [E F]. split; [done|]. intros Hid. apply F.
  intros Hin. by apply Hid, Hsub.
Qed.

(** X7: whatever the world answers, the updates that the queue issues for a
    batch change nothing but the categories of the photos of the batch. In
    the state after the updates of a run of the queue the photos have the
    same number and order, every photo is as before up to its category,
    every photo whose identifier is not in the batch is as before, and the
    view, the photo under edit and the audio settings are as before. *)
Theorem processCategoriesQueue_only_categories (key : string) (W : World)
    (newPhotos : list Store.Photo) (log : list Event)
    (s : Store.AppState) :
  ∃ evs,
    processCategoriesQueue key W newPhotos log = (Ok tt, log ++ evs)
    ∧ onlyCategories (Store.id <$> newPhotos) s (applyUpdates evs s).
Proof.
  revert log s. induction newPhotos as [|p rest IH]; intros log s.
  - exists []. rewrite app_nil_r. split; [done|]. apply onlyCategories_refl.
  - destruct (suggestCategory_returns key W (Store.url p) log)
      as (cat & evs1 & Hcat & _ & Hgw).
    set (s1 := Store.setCategoryById (Store.id p) cat s).
    destruct (IH (log ++ evs1
                  ++ [EvSetCategory (Store.id p) cat; EvSleep 1000]) s1)
      as (evs2 & Hrun & Hs).
    exists (evs1 ++ [EvSetCategory (Store.id p) cat; EvSleep 1000] ++ evs2).
    split.
    + rewrite (processCategoriesQueue_cons _ _ _ _ _ _ _ Hcat), Hrun.
      by rewrite <- !app_assoc.
    + rewrite applyUpdates_app, (applyUpdates_gateway evs1 s Hgw).
      cbn [app applyUpdates]. fold s1.
      eapply onlyCategories_trans.
      * apply (onlyCategories_set (Store.id <$> p :: rest) (Store.id p) cat).
        rewrite fmap_cons. apply elem_of_cons. by left.
      * eapply onlyCategories_mono; [|exact Hs].
        rewrite fmap_cons. intros x Hx. apply elem_of_cons. by right.
Qed.

Lemma setCategoryById_same (i cat : string) (s : Store.AppState) :
  (∀ p, p ∈ Store.photos s → Store.id p = i → Store.category p = cat) →
  Store.setCategoryById i cat s = s.
Proof.
  intros H. unfold Store.setCategoryById.
  replace ((λ existing, if Store.idIs i existing
                        then Store.with_category existing cat
                        else existing) <$> Store.photos s)
    with (Store.photos s); [by destruct s|].
  symmetry. rewrite <- (list_fmap_id (Store.photos s)) at 2.
  apply list_fmap_ext. intros k p Hp. cbn.
  destruct (Store.idIs i p) eqn:E; [|done].
  apply idIs_true in E.
  rewrite <- (H p (list_elem_of_lookup_2 _ _ _ Hp) E). by destruct p.
Qed.

Lemma applyUpdates_quiet (batch : list Store.Photo) (a : Store.AppState) :
  (∀ p q, p ∈ batch → q ∈ Store.photos a → Store.id q = Store.id p →
          Store.category q = "Uncategorized") →
  applyUpdates
    (flat_map (λ p, [EvSetCategory (Store.id p) "Uncategorized";
                     EvSleep 1000]) batch) a = a.
Proof.
  induction batch as [|p rest IH]; intros Hown; [done|].
  cbn [flat_map app applyUpdates].
  rewrite setCategoryById_same.
  - apply IH. intros p' q Hp'. apply Hown. apply elem_of_cons. by right.
  - intros q Hq Hid. apply (Hown p q); [apply list_elem_of_here|done|done].
Qed.

(** X27: an upload without a credential. The photos of an upload start
    with the category "Uncategorized"; when their identifiers are new, the
    updates that the queue then issues without a credential leave the store
    exactly as the upload made it. *)
Theorem upload_without_credential (W : World)
    (files : list (string * string * string)) (s : Ui.State)
    (log : list Event) :
  Ui.freshIds (files.*1.*1) s →
  let batch := Ui.uploadedPhoto <$> files in
  let uploaded := Store.appendPhotos batch (Ui.app s) in
  ∃ evs,
    processCategoriesQueue "" W batch log = (Ok tt, log ++ evs)
    ∧ applyUpdates evs uploaded = uploaded
    ∧ Forall (λ p, Store.category p = "Uncategorized") batch.
Proof.
  intros [_ Hfresh] batch uploaded.
  eexists. split; [apply processCategoriesQueue_quiet|].
  assert (Forall (λ p, Store.category p = "Uncategorized") batch) as Hcat.
  { apply Forall_fmap, Forall_forall. by intros [[i u] n] _. }
  split; [|done].
  assert (∀ p q, p ∈ batch → q ∈ Store.photos uploaded →
                 Store.id q = Store.id p →
                 Store.category q = "Uncategorized") as Hown.
  { intros p q Hp Hq Hid. cbn in Hq. apply elem_of_app in Hq as [Hq|Hq].
    - exfalso.
      assert (Store.id p ∈ files.*1.*1) as Hin.
      { rewrite <- uploadedPhoto_ids. apply list_elem_of_fmap. by exists p. }
      rewrite Forall_forall in Hfresh. destruct (Hfresh _ Hin) as [Hnew _].
      apply Hnew. rewrite <- Hid. apply list_elem_of_fmap. by exists q.
    - by apply (proj1 (Forall_forall _ _) Hcat). }
  by apply applyUpdates_quiet.
Qed.

Lemma upload_without_credential_witness :
  let files := [("a", "data:a", "a.jpg"); ("b", "data:b", "b.jpg")] in
  let batch := Ui.uploadedPhoto <$> files in
  let uploaded := Store.appendPhotos batch (Ui.app Ui.sampleState) in
  ∃ evs,
    processCategoriesQueue "" sampleWorld batch [] = (Ok tt, [] ++ evs)
    ∧ applyUpdates evs uploaded = uploaded
    ∧ Forall (λ p, Store.category p = "Uncategorized") batch.
Proof.
  intros files.
  apply (upload_without_credential sampleWorld files Ui.sampleState []).
  apply (bool_decide_unpack _). vm_compute. exact I.
Defined.

End QueueFacts.

(** ** The canvas: edges of the resized image and the marker *)

Section CanvasFacts.
Import Number Canvas MarkerRadius.

Lemma resized_edge_bounds (n w M : Z) :
  0 < w ≤ M → 1024 < M →
  (2 * n - 1) * M ≤ 2048 * w ≤ (2 * n + 1) * M →
  0 ≤ n ≤ Z.min w 1024
  ∧ (2048 * w < M → n = 0) ∧ (M < 2048 * w → 1 ≤ n).
Proof.
  intros Hw HM [Hlo Hhi].
  assert (0 ≤ n) as Hn0.
  { destruct (Z_lt_dec n 0) as [Hneg|]; [|lia]. exfalso.
    assert ((2 * n + 1) * M ≤ (-1) * M) as H
      by (apply Z.mul_le_mono_nonneg_r; lia).
    lia. }
  assert (n ≤ 1024) as Hn1.
  { destruct (Z_le_dec n 1024) as [|Hbig]; [done|]. exfalso.
    assert (2049 * M ≤ (2 * n - 1) * M) as H
      by (apply Z.mul_le_mono_nonneg_r; lia).
    lia. }
  assert (n ≤ w) as Hn2.
  { destruct (Z_le_dec n w) as [|Hbig]; [done|]. exfalso.
    assert ((2 * w + 1) * M ≤ (2 * n - 1) * M) as H
      by (apply Z.mul_le_mono_nonneg_r; lia).
    assert ((2 * w + 1) * 1024 < (2 * w + 1) * M) as H'
      by (apply Z.mul_lt_mono_pos_l; lia).
    lia. }
  split; [lia|]. split.
  - intros Hsmall. destruct (Z.eq_dec n 0) as [|Hne]; [done|]. exfalso.
    assert (1 * M ≤ (2 * n - 1) * M) as H
      by (apply Z.mul_le_mono_nonneg_r; lia).
    lia.
  - intros Hbig. destruct (Z_le_dec 1 n) as [|Hz]; [done|]. exfalso.
    assert (n = 0) as -> by lia. lia.
Qed.

(** X8: the resize step never enlarges an image and can make an edge
    vanish. For a bitmap of [w] by [h] pixels the output edges are integers
    with [0 <= w' <= min(w, 1024)] and [0 <= h' <= min(h, 1024)]; an edge
    that is more than 2048 times shorter than the longer edge becomes 0 (the
    canvas is then empty), and an edge that is less than 2048 times shorter
    stays at least 1. *)
Theorem resizeDimensions_edges (w h : Z) :
  0 < w < 2 ^ 32 → 0 < h < 2 ^ 32 →
  let M := Z.max w h in
  ∃ w' h' : Z,
    resizeDimensions (ofZ w) (ofZ h) = (ofZ w', ofZ h')
    ∧ 0 ≤ w' ≤ Z.min w 1024 ∧ 0 ≤ h' ≤ Z.min h 1024
    ∧ (2048 * w < M → w' = 0) ∧ (M < 2048 * w → 1 ≤ w')
    ∧ (2048 * h < M → h' = 0) ∧ (M < 2048 * h → 1 ≤ h').
Proof.
  intros Hw Hh M.
  assert (2 ^ 32 < 2 ^ 53) as H3253 by done.
  assert (0 < 1024 < 2 ^ 53) as H1024 by done.
  unfold resizeDimensions.
  change lit_1024 with (ofZ 1024) at 1 2.
  rewrite !gt_ofZ by lia.
  destruct (Z_le_dec M 1024) as [Hle | Hgt].
  - rewrite !bool_decide_eq_false_2 by lia. cbn [orb].
    exists w, h. split; [done|]. lia.
  - assert (bool_decide (1024 < w) || bool_decide (1024 < h) = true) as ->.
    { destruct (Z_lt_dec 1024 w) as [H|H].
      - by rewrite (bool_decide_eq_true_2 _ H).
      - rewrite (bool_decide_eq_false_2 _ H).
        rewrite bool_decide_eq_true_2 by lia. done. }
    rewrite Math_max_ofZ by lia. fold M.
    destruct (scaled_round_full w M ltac:(lia) ltac:(lia))
      as (w' & -> & Hw' & _).
    destruct (scaled_round_full h M ltac:(lia) ltac:(lia))
      as (h' & -> & Hh' & _).
    exists w', h'. split; [done|].
    destruct (resized_edge_bounds w' w M ltac:(lia) ltac:(lia) Hw')
      as (? & ? & ?).
    destruct (resized_edge_bounds h' h M ltac:(lia) ltac:(lia) Hh')
      as (? & ? & ?).
    tauto.
Qed.

Lemma resizeDimensions_edges_witness :
  ∃ w' h' : Z,
    resizeDimensions (ofZ 1) (ofZ 4000) = (ofZ w', ofZ h')
    ∧ 0 ≤ w' ≤ Z.min 1 1024 ∧ 0 ≤ h' ≤ Z.min 4000 1024
    ∧ (2048 * 1 < 4000 → w' = 0) ∧ (4000 < 2048 * 1 → 1 ≤ w')
    ∧ (2048 * 4000 < 4000 → h' = 0) ∧ (4000 < 2048 * 4000 → 1 ≤ h').
Proof. apply (resizeDimensions_edges 1 4000); done. Defined.

(** *** The radius of the marker *)

Lemma allEdges_lookup (f : Z → bool) (m : Z) :
  allEdges f = true → 0 ≤ m ≤ 1024 → f m = true.
Proof.
  unfold allEdges. rewrite forallb_forall. intros H Hm. apply H.
  apply list_elem_of_In, elem_of_seqZ. lia.
Qed.

Lemma allEdges_radiusRule : allEdges radiusRule = true.
Proof. vm_cast_no_check (eq_refl true). Qed.

Lemma Math_min_edges (w h : Z) :
  0 ≤ w < 2 ^ 53 → 0 ≤ h < 2 ^ 53 →
  Math_min (ofZ w) (ofZ h) = ofZ (Z.min w h).
Proof.
  intros Hw Hh.
  destruct (Z.eq_dec w 0) as [-> | Hw0], (Z.eq_dec h 0) as [-> | Hh0].
  - done.
  - rewrite Z.min_l by lia. rewrite ofZ_0.
    destruct (ofZ_pos h ltac:(lia)) as (m & -> & _). done.
  - rewrite Z.min_r by lia. rewrite ofZ_0.
    destruct (ofZ_pos w ltac:(lia)) as (m & -> & _). done.
  - apply Math_min_ofZ; lia.
Qed.

(** X9: on a canvas with integer edges of at most 1024 pixels, as the
    resize step makes them, the radius of the marker is exactly 20 pixels
    when the shorter edge has at most 400 pixels, and the binary64 product
    of the shorter edge and 0.05, which is more than 20, when it has more;
    in both cases it lies between 20 and 52. *)
Theorem marker_radius (w h : Z) (x y : spec_float) :
  0 ≤ w ≤ 1024 → 0 ≤ h ≤ 1024 →
  let m := Z.min w h in
  let r := radius (markerAt (ofZ w) (ofZ h) x y) in
  (m ≤ 400 → r = ofZ 20)
  ∧ (400 < m → r = mul (ofZ m) lit_0_05 ∧ SFltb (ofZ 20) r = true)
  ∧ SFleb (ofZ 20) r = true ∧ SFleb r (ofZ 52) = true.
Proof.
  intros Hw Hh m r. subst r. unfold markerAt. cbn [radius].
  rewrite Math_min_edges by lia. fold m.
  pose proof (allEdges_lookup radiusRule m allEdges_radiusRule
                ltac:(lia)) as Hrule.
  unfold radiusRule in Hrule. fold (radiusOf m).
  apply andb_prop in Hrule as [Hrule Hgt].
  apply andb_prop in Hrule as [Hrule Hhi].
  apply andb_prop in Hrule as [Hval Hlo].
  apply bool_decide_eq_true_1 in Hval.
  split; [|split; [|by split]].
  - intros Hm. rewrite Hval. by rewrite (proj2 (Z.leb_le m 400) Hm).
  - intros Hm. rewrite (proj2 (Z.leb_gt m 400) Hm) in Hval, Hgt.
    by split.
Qed.

Lemma marker_radius_witness :
  radius (markerAt (ofZ 1024) (ofZ 768) Gateway.half Gateway.half)
  = mul (ofZ 768) lit_0_05
  ∧ radius (markerAt (ofZ 300) (ofZ 1024) Gateway.half Gateway.half) = ofZ 20.
Proof.
  split.
  - apply (marker_radius 1024 768 Gateway.half Gateway.half); done.
  - apply (marker_radius 300 1024 Gateway.half Gateway.half); done.
Defined.

End CanvasFacts.

(** ** The store: reordering, deletion and category updates *)

Section StoreMoreFacts.
Import Store.

Lemma findIndexFrom_here {A} (pred : A → bool) (pre : list A) (x : A)
    (post : list A) (i : Z) :
  Forall (λ y, pred y = false) pre → pred x = true →
  findIndexFrom pred (pre ++ x :: post) i = i + Z.of_nat (length pre).
Proof.
  intros Hpre Hx. revert i.
  induction Hpre as [|y pre Hy _ IH]; intros i; cbn [app findIndexFrom].
  - rewrite Hx. cbn. lia.
  - rewrite Hy, IH. cbn [length]. lia.
Qed.

Lemma findIndex_here (i : string) (pre : list Photo) (x : Photo)
    (post : list Photo) :
  i ∉ id <$> pre → id x = i →
  findIndex (idIs i) (pre ++ x :: post) = Z.of_nat (length pre).
Proof.
  intros Hpre Hx. unfold findIndex.
  rewrite findIndexFrom_here; [lia| |by apply idIs_true].
  apply Forall_forall. intros y Hy. apply idIs_false. intros Hid.
  apply Hpre. apply list_elem_of_fmap. by exists y.
Qed.

Lemma splice_insert_at {A} (arr : list A) (n : nat) (items : list A) :
  (n ≤ length arr)%nat →
  splice arr (Z.of_nat n) 0 items = ([], take n arr ++ items ++ drop n arr).
Proof.
  intros Hn. unfold splice. set (len := Z.of_nat (length arr)).
  assert (spliceStart len (Z.of_nat n) = n) as ->.
  { unfold spliceStart. subst len. destruct (Z.of_nat n <? 0) eqn:E; lia. }
  replace (Z.to_nat (Z.min (Z.max 0 0) (len - Z.of_nat n))) with 0%nat
    by (subst len; lia).
  by rewrite Nat.add_0_r.
Qed.

Lemma handleReorder_run (prev : AppState) (fromId toId : string)
    (k n : nat) (x : Photo) :
  findIndex (idIs fromId) (photos prev) = Z.of_nat k →
  findIndex (idIs toId) (photos prev) ≠ -1 →
  findIndex (idIs toId) (photos prev) ≠ Z.of_nat k →
  photos prev !! k = Some x →
  findIndex (idIs toId) (take k (photos prev) ++ drop (S k) (photos prev))
  = Z.of_nat n →
  (n ≤ length (take k (photos prev) ++ drop (S k) (photos prev)))%nat →
  handleReorder fromId toId prev
  = Some (with_photos prev
            (take n (take k (photos prev) ++ drop (S k) (photos prev))
             ++ [x]
             ++ drop n (take k (photos prev) ++ drop (S k) (photos prev)))).
Proof.
  intros Hfrom Hto1 Hto2 Hk Hnew Hn. unfold handleReorder.
  rewrite Hfrom. rewrite bool_decide_eq_false_2 by lia.
  rewrite (splice_remove_one _ _ _ Hk). rewrite Hnew.
  by rewrite (splice_insert_at _ _ _ Hn).
Qed.

(** X10: [handleReorder] puts the moved photo immediately before the
    target, in both directions (identifiers being unique). Moving [m] down
    onto [t] turns [A, m, B, t, D] into [A, B, m, t, D]; moving [m] up onto
    [t] turns [A, t, B, m, D] into [A, m, t, B, D]. In particular, moving a
    photo onto the photo that follows it changes nothing. *)
Theorem handleReorder_before_target (prev : AppState)
    (A B D : list Photo) (m t : Photo) :
  NoDup (id <$> photos prev) →
  (photos prev = A ++ m :: B ++ t :: D →
   handleReorder (id m) (id t) prev
   = Some (with_photos prev (A ++ B ++ m :: t :: D)))
  ∧ (photos prev = A ++ t :: B ++ m :: D →
     handleReorder (id m) (id t) prev
     = Some (with_photos prev (A ++ m :: t :: B ++ D)))
  ∧ (photos prev = A ++ m :: t :: D →
     handleReorder (id m) (id t) prev = Some prev).
Proof.
  intros Hnd.
  assert (∀ A B D,
            photos prev = A ++ m :: B ++ t :: D →
            handleReorder (id m) (id t) prev
            = Some (with_photos prev (A ++ B ++ m :: t :: D))) as Hdown.
  { clear A B D. intros A B D Hphotos. rewrite Hphotos in Hnd.
    rewrite fmap_app, fmap_cons, fmap_app, fmap_cons in Hnd.
    apply NoDup_app in Hnd as (HA & HAm & Hnd).
    apply NoDup_cons in Hnd as (Hm & Hnd).
    apply NoDup_app in Hnd as (HB & HBt & Hnd).
    apply NoDup_cons in Hnd as (Ht & HD).
    assert (id m ∉ id <$> A) as HmA.
    { intros H. apply (HAm _ H). apply elem_of_cons. by left. }
    assert (id t ∉ id <$> A) as HtA.
    { intros H. apply (HAm _ H). apply elem_of_cons. right.
      apply elem_of_app. right. apply elem_of_cons. by left. }
    assert (id t ≠ id m) as Htm.
    { intros H. apply Hm. rewrite <- H. apply elem_of_app. right.
      apply elem_of_cons. by left. }
    assert (id t ∉ id <$> B) as HtB.
    { intros H. apply (HBt _ H). apply elem_of_cons. by left. }
    assert (photos prev !! length A = Some m) as Hk.
    { rewrite Hphotos. by rewrite list_lookup_middle. }
    assert (take (length A) (photos prev) ++ drop (S (length A)) (photos prev)
            = (A ++ B) ++ t :: D) as Hrest.
    { rewrite Hphotos, take_app_length.
      rewrite (cons_middle m A), app_assoc.
      rewrite drop_app_length'
        by (rewrite !length_app; cbn [length]; lia).
      by rewrite <- app_assoc. }
    rewrite (handleReorder_run prev (id m) (id t) (length A)
               (length (A ++ B)) m).
    - rewrite Hrest, take_app_length, drop_app_length.
      by rewrite <- !app_assoc.
    - rewrite Hphotos. by apply findIndex_here.
    - rewrite Hphotos.
      rewrite (app_assoc A (m :: B) (t :: D)) at 1.
      rewrite (findIndex_here (id t) (A ++ m :: B) t D); [lia| |done].
      rewrite fmap_app, fmap_cons. intros H.
      apply elem_of_app in H as [H|H]; [done|].
      apply elem_of_cons in H as [H|H]; done.
    - rewrite Hphotos.
      rewrite (app_assoc A (m :: B) (t :: D)) at 1.
      rewrite (findIndex_here (id t) (A ++ m :: B) t D).
      + rewrite length_app. cbn [length]. lia.
      + rewrite fmap_app, fmap_cons. intros H.
        apply elem_of_app in H as [H|H]; [done|].
        apply elem_of_cons in H as [H|H]; done.
      + done.
    - exact Hk.
    - rewrite Hrest. apply findIndex_here; [|done].
      rewrite fmap_app. intros H. apply elem_of_app in H as [H|H]; done.
    - rewrite Hrest. rewrite !length_app. lia. }
  split; [apply Hdown|]. split.
  - intros Hphotos. rewrite Hphotos in Hnd.
    rewrite fmap_app, fmap_cons, fmap_app, fmap_cons in Hnd.
    apply NoDup_app in Hnd as (HA & HAt & Hnd).
    apply NoDup_cons in Hnd as (Ht & Hnd).
    apply NoDup_app in Hnd as (HB & HBm & Hnd).
    apply NoDup_cons in Hnd as (Hm & HD).
    assert (id t ∉ id <$> A) as HtA.
    { intros H. apply (HAt _ H). apply elem_of_cons. by left. }
    assert (id m ∉ id <$> A) as HmA.
    { intros H. apply (HAt _ H). apply elem_of_cons. right.
      apply elem_of_app. right. apply elem_of_cons. by left. }
    assert (id m ≠ id t) as Hmt.
    { intros H. apply Ht. rewrite <- H. apply elem_of_app. right.
      apply elem_of_cons. by left. }
    assert (id m ∉ id <$> B) as HmB.
    { intros H. apply (HBm _ H). apply elem_of_cons. by left. }
    set (k := length (A ++ t :: B)).
    assert (photos prev = (A ++ t :: B) ++ m :: D) as Hphotos'
      by (rewrite Hphotos; by rewrite <- app_assoc).
    assert (photos prev !! k = Some m) as Hk.
    { rewrite Hphotos'. by rewrite list_lookup_middle. }
    assert (take k (photos prev) ++ drop (S k) (photos prev)
            = A ++ t :: B ++ D) as Hrest.
    { rewrite Hphotos'. subst k. rewrite take_app_length.
      rewrite (cons_middle m (A ++ t :: B)), app_assoc.
      rewrite drop_app_length'
        by (rewrite !length_app; cbn [length]; lia).
      by rewrite <- app_assoc. }
    rewrite (handleReorder_run prev (id m) (id t) k (length A) m).
    + rewrite Hrest, take_app_length, drop_app_length. done.
    + rewrite Hphotos'. apply findIndex_here; [|done].
      rewrite fmap_app, fmap_cons. intros H.
      apply elem_of_app in H as [H|H]; [done|].
      apply elem_of_cons in H as [H|H]; done.
    + rewrite Hphotos. rewrite findIndex_here by done. lia.
    + rewrite Hphotos. rewrite findIndex_here by done.
      subst k. rewrite length_app. cbn [length]. lia.
    + exact Hk.
    + rewrite Hrest. by apply findIndex_here.
    + rewrite Hrest. rewrite length_app. lia.
  - intros Hphotos. rewrite (Hdown A [] D Hphotos). cbn [app].
    rewrite <- Hphotos. by destruct prev.
Qed.

Lemma handleReorder_before_target_witness :
  let a := Ui.uploadedPhoto ("a", "data:a", "a.jpg") in
  let b := Ui.uploadedPhoto ("b", "data:b", "b.jpg") in
  let c := Ui.uploadedPhoto ("c", "data:c", "c.jpg") in
  let prev := with_photos (Ui.app Ui.initial) [a; b; c] in
  handleReorder "a" "c" prev = Some (with_photos prev [b; a; c])
  ∧ handleReorder "c" "a" prev = Some (with_photos prev [c; a; b])
  ∧ handleReorder "a" "b" prev = Some prev.
Proof.
  intros a b c prev.
  assert (NoDup (id <$> photos prev)) as Hnd
    by (apply (bool_decide_unpack _); vm_compute; exact I).
  split; [|split].
  - apply (handleReorder_before_target prev [] [b] [] a c Hnd). reflexivity.
  - apply (handleReorder_before_target prev [] [b] [] c a Hnd). reflexivity.
  - apply (handleReorder_before_target prev [] [] [c] a b Hnd). reflexivity.
Defined.

Lemma filter_id_absent (i : string) (l : list Photo) :
  i ∉ id <$> l → filter (λ p, id p ≠ i) l = l.
Proof.
  induction l as [|p l IH]; [done|].
  rewrite fmap_cons, not_elem_of_cons. intros [Hp Hl].
  rewrite filter_cons_True by done. by rewrite IH.
Qed.

(** X11: [deletePhoto] removes the photos with the given identifier and
    nothing else. Afterwards no photo has the identifier; with unique
    identifiers exactly the entry of that photo is missing and the others
    keep their order; an identifier that no photo has leaves the state as it
    was; no other field of the state changes; and deleting again changes
    nothing. *)
Theorem deletePhoto_removes (i : string) (prev : AppState) :
  let next := deletePhoto i prev in
  (i ∉ id <$> photos next)
  ∧ (∀ (A B : list Photo) (p : Photo),
       NoDup (id <$> photos prev) → photos prev = A ++ p :: B → id p = i →
       photos next = A ++ B)
  ∧ (i ∉ id <$> photos prev → next = prev)
  ∧ next = with_photos prev (photos next)
  ∧ deletePhoto i next = next.
Proof.
  cbn zeta. unfold deletePhoto. cbn [photos with_photos].
  assert (i ∉ id <$> filter (λ p, id p ≠ i) (photos prev)) as Hgone.
  { rewrite list_elem_of_fmap. intros (p & Hp & Hin).
    apply list_elem_of_filter in Hin as [Hne _]. by apply Hne. }
  split; [done|]. split; [|split; [|split]].
  - intros A B p Hnd Hphotos Hp. rewrite Hphotos in Hnd |- *.
    rewrite fmap_app, fmap_cons in Hnd.
    apply NoDup_app in Hnd as (_ & HA & Hnd).
    apply NoDup_cons in Hnd as (HB & _).
    rewrite filter_app, filter_cons_False by (intros H; by apply H).
    rewrite !filter_id_absent; [done| |].
    + by rewrite <- Hp.
    + intros H. apply (HA _ H). rewrite Hp. apply elem_of_cons. by left.
  - intros Hi. rewrite filter_id_absent by done. by destruct prev.
  - done.
  - cbn [photos with_photos]. by rewrite (filter_id_absent i _ Hgone).
Qed.

Lemma deletePhoto_removes_witness :
  let a := Ui.uploadedPhoto ("a", "data:a", "a.jpg") in
  let b := Ui.uploadedPhoto ("b", "data:b", "b.jpg") in
  let c := Ui.uploadedPhoto ("c", "data:c", "c.jpg") in
  let prev := with_photos (Ui.app Ui.initial) [a; b; c] in
  photos (deletePhoto "b" prev) = [a; c].
Proof.
  intros a b c prev.
  destruct (deletePhoto_removes "b" prev) as (_ & H & _).
  apply (H [a] [c] b); [|reflexivity|reflexivity].
  apply (bool_decide_unpack _). vm_compute. exact I.
Defined.

Lemma setCategory_twice (i c1 c2 : string) (p : Photo) :
  (if idIs i (if idIs i p then with_category p c1 else p)
   then with_category (if idIs i p then with_category p c1 else p) c2
   else (if idIs i p then with_category p c1 else p))
  = if idIs i p then with_category p c2 else p.
Proof.
  destruct (idIs i p) eqn:E; [|by rewrite E].
  assert (idIs i (with_category p c1) = true) as ->
    by (apply idIs_true; by apply idIs_true in E).
  done.
Qed.

(** X12: the category updates of the queue and of [onUpdateCategory]
    compose as writes to separate cells: a later update of the same photo
    replaces an earlier one, updates of different photos give the same
    state in either order, and an update gives every photo with the
    identifier the new category and leaves the identifiers, the order and
    the other photos as they were. *)
Theorem setCategoryById_writes (i j c d : string) (prev : AppState) :
  setCategoryById i d (setCategoryById i c prev) = setCategoryById i d prev
  ∧ (i ≠ j →
     setCategoryById i c (setCategoryById j d prev)
     = setCategoryById j d (setCategoryById i c prev))
  ∧ id <$> photos (setCategoryById i c prev) = id <$> photos prev
  ∧ ∀ (k : nat) (p : Photo), photos prev !! k = Some p →
      photos (setCategoryById i c prev) !! k
      = Some (if decide (id p = i) then with_category p c else p).
Proof.
  unfold setCategoryById. cbn [photos with_photos].
  split; [|split; [|split]].
  - f_equal. rewrite <- list_fmap_compose. apply list_fmap_ext.
    intros _ p _. cbn. apply setCategory_twice.
  - intros Hij. f_equal. rewrite <- !list_fmap_compose. apply list_fmap_ext.
    intros _ p _. cbn.
    destruct (idIs i p) eqn:Ei, (idIs j p) eqn:Ej.
    + apply idIs_true in Ei, Ej. congruence.
    + assert (idIs j (with_category p c) = false) as ->
        by (apply idIs_false; by apply idIs_false in Ej).
      by rewrite ?Ei.
    + assert (idIs i (with_category p d) = false) as ->
        by (apply idIs_false; by apply idIs_false in Ei).
      by rewrite ?Ej.
    + by rewrite ?Ei, ?Ej.
  - rewrite <- list_fmap_compose. apply list_fmap_ext. intros _ p _. cbn.
    by destruct (idIs i p).
  - intros k p Hk. rewrite list_lookup_fmap, Hk. cbn. f_equal.
    unfold idIs. destruct (decide (id p = i)) as [H|H].
    + by rewrite bool_decide_eq_true_2.
    + by rewrite bool_decide_eq_false_2.
Qed.

Lemma setCategoryById_writes_witness :
  let a := Ui.uploadedPhoto ("a", "data:a", "a.jpg") in
  let b := Ui.uploadedPhoto ("b", "data:b", "b.jpg") in
  let prev := with_photos (Ui.app Ui.initial) [a; b] in
  setCategoryById "a" "People" (setCategoryById "b" "Animals" prev)
  = setCategoryById "b" "Animals" (setCategoryById "a" "People" prev).
Proof.
  intros a b prev.
  apply (setCategoryById_writes "a" "b" "People" "Animals" prev).
  discriminate.
Defined.

End StoreMoreFacts.

(** ** The session: invariants and the copy of the editor *)

Section UiMoreFacts.
Import Store Ui UiInvariants.

Lemma run_app (acts1 acts2 : list Action) (s : State) :
  run (acts1 ++ acts2) s = s' ← run acts1 s; run acts2 s'.
Proof.
  revert s. induction acts1 as [|act acts1 IH]; intros s; [done|].
  change (run ((act :: acts1) ++ acts2) s)
    with (s1 ← step act s; run (acts1 ++ acts2) s1).
  change (run (act :: acts1) s) with (s1 ← step act s; run acts1 s1).
  destruct (step act s) as [s1|]; cbn; [apply IH|done].
Qed.

Lemma freshIds_nil (s : State) : freshIds [] s.
Proof. split; constructor. Qed.

(** Actions that draw no identifier keep the identifiers unique. *)
Lemma run_wf (acts : list Action) (s s' : State) :
  Forall (λ act, drawnIds act = []) acts →
  wf s → run acts s = Some s' → wf s'.
Proof.
  revert s. induction acts as [|act acts IH]; intros s Hacts Hwf Hrun.
  - by injection Hrun as <-.
  - cbn [run] in Hrun. destruct (step act s) as [s1|] eqn:Hstep; [|done].
    cbn in Hrun. apply Forall_cons in Hacts as [Hact Hacts].
    eapply IH; [exact Hacts| |exact Hrun].
    refine (proj1 (step_preserves act s s1 Hwf _ Hstep)).
    rewrite Hact. apply freshIds_nil.
Qed.

Lemma wf_editor_photo (s : State) (e : Photo) :
  wf s → editedPhoto s = Some e →
  editingPhotoId (app s) = Some (id e)
  ∧ ∃ p, find (idIs (id e)) (photos (app s)) = Some p
         ∧ p ∈ photos (app s) ∧ id p = id e
         ∧ originalUrl p = originalUrl e.
Proof.
  intros [Hnd Hed] He. destruct (Hed e He) as (_ & Hid & p & Hp & Hpid & Hurl).
  split; [done|].
  destruct (find_idIs_elem (id e) (photos (app s))) as [q Hq].
  { apply list_elem_of_fmap. by exists p. }
  destruct (find_idIs_Some _ _ _ Hq) as [Hqin Hqid].
  assert (q = p) as -> by (apply (NoDup_id_inj _ _ _ Hnd); congruence).
  by exists p.
Qed.

(** X13: where [App] renders the editor, the photo that it asks for is
    in the store. [App] starts in the gallery with no editor, whatever
    photos it loads. In every state that a session reaches from such a
    start, whatever identifiers the uploads draw: when the view is the
    editor and [editingPhotoId] is a non-empty text, [find] returns a photo
    of the store with that identifier, so that the non-null assertion of
    the render holds and the editor is mounted for that photo; the editor
    holds a copy with the same identifier, and every handler of the
    editor, [Save] and [Cancel] can run. *)
Theorem editor_photo_in_store (acts : list Action) (s s' : State)
    (i : string) :
  currentView (app s) = gallery → editedPhoto s = None →
  run acts s = Some s' →
  currentView (app s') = editor → editingPhotoId (app s') = Some i →
  i ≠ "" →
  ∃ p e,
    find (idIs i) (photos (app s')) = Some p ∧ id p = i
    ∧ mountEditor (app s') = Some (Some p)
    ∧ editedPhoto s' = Some e ∧ id e = i
    ∧ (∀ op, is_Some (step (InEditor op) s'))
    ∧ is_Some (step Save s') ∧ is_Some (step Cancel s').
Proof.
  intros Hview Hnone Hrun Hview' Hid Hi.
  assert (consistent s) as Hs.
  { apply consistent_no_editor; [by rewrite Hview|done]. }
  destruct (consistent_run acts s s' Hs Hrun) as [Hed Hopen].
  destruct (Hopen Hview') as [e He].
  { rewrite Hid. unfold truthy. by rewrite bool_decide_eq_false_2. }
  destruct (Hed e He) as (_ & Hid' & _ & p & Hfind & _).
  assert (id e = i) as Hei by congruence.
  rewrite Hei in Hfind.
  destruct (find_idIs_Some _ _ _ Hfind) as [_ Hpid].
  exists p, e. split; [done|]. split; [done|]. split.
  { unfold mountEditor. rewrite Hview', Hid. unfold truthy.
    rewrite bool_decide_eq_false_2 by done. cbn. by rewrite Hfind. }
  split; [done|]. split; [done|]. split; [|split].
  - intros op. cbn [step]. rewrite He, Hid. cbn. rewrite Hfind. by eexists.
  - cbn [step]. rewrite He. by eexists.
  - cbn [step]. rewrite He. by eexists.
Qed.

Lemma editor_photo_in_store_witness :
  let s' := default sampleState (run (take 4 sampleSession) sampleState) in
  ∃ p e,
    find (idIs "k3j9x0q1z") (photos (app s')) = Some p
    ∧ id p = "k3j9x0q1z"
    ∧ mountEditor (app s') = Some (Some p)
    ∧ editedPhoto s' = Some e ∧ id e = "k3j9x0q1z"
    ∧ (∀ op, is_Some (step (InEditor op) s'))
    ∧ is_Some (step Save s') ∧ is_Some (step Cancel s').
Proof.
  intros s'.
  apply (editor_photo_in_store (take 4 sampleSession) sampleState s'
           "k3j9x0q1z"); [reflexivity|reflexivity| | | |done];
    vm_compute; reflexivity.
Defined.

Lemma find_replaced (i : string) (e : Photo) (l : list Photo) :
  i ∈ id <$> l → id e = i →
  find (idIs i) ((λ p, if idIs i p then e else p) <$> l) = Some e.
Proof.
  intros Hi He. induction l as [|p l IH]; [by apply elem_of_nil in Hi|].
  cbn [fmap list_fmap find]. destruct (idIs i p) eqn:E.
  - by rewrite (proj2 (idIs_true i e) He).
  - rewrite E. apply IH.
    rewrite fmap_cons in Hi. apply elem_of_cons in Hi as [Hi|Hi]; [|done].
    apply idIs_false in E. congruence.
Qed.

(** X14: the editor saves its own copy of the photo, taken when it was
    opened. When the queue gives the photo a category while the editor is
    open, [Save] puts the copy of the editor in the store as it is: the
    stored photo is the copy, with the category that the copy has, and the
    category of the queue is lost. *)
Theorem save_overwrites_category (s : State) (e : Photo) (cat : string) :
  wf s → editedPhoto s = Some e →
  ∃ s',
    run [CategoryResolved (id e) cat; Save] s = Some s'
    ∧ find (idIs (id e)) (photos (app s')) = Some e
    ∧ currentView (app s') = gallery ∧ editedPhoto s' = None.
Proof.
  intros Hwf He.
  destruct (wf_editor_photo s e Hwf He) as (_ & p & _ & Hp & Hpid & _).
  eexists. cbn [run step with_app editedPhoto mbind option_bind].
  rewrite He. cbn [mbind option_bind app].
  split; [reflexivity|]. cbn [app editedPhoto].
  split; [|done].
  unfold saveEditedPhoto, setCategoryById.
  cbn [photos with_view with_photos].
  apply find_replaced; [|done].
  cbn [app with_app photos with_photos].
  rewrite <- list_fmap_compose.
  apply list_elem_of_fmap. exists p. split; [|done]. cbn.
  destruct (idIs (id e) p); cbn; congruence.
Qed.

Lemma save_overwrites_category_witness :
  let s1 :=
    default sampleState (step (EditPhoto "k3j9x0q1z") sampleState) in
  ∃ s',
    run [CategoryResolved (id samplePhoto) "Landscapes"; Save] s1 = Some s'
    ∧ find (idIs (id samplePhoto)) (photos (app s')) = Some samplePhoto
    ∧ currentView (app s') = gallery ∧ editedPhoto s' = None.
Proof.
  intros s1.
  apply (save_overwrites_category s1 samplePhoto "Landscapes");
    [|vm_compute; reflexivity].
  apply (run_wf [EditPhoto "k3j9x0q1z"] sampleState);
    [by repeat constructor| |vm_compute; reflexivity].
  apply wf_no_editor; [|reflexivity].
  apply (bool_decide_unpack _). vm_compute. exact I.
Defined.

Lemma editor_ops_run (ops : list EditorOp) (s : State) (e : Photo) :
  wf s → editedPhoto s = Some e →
  ∃ e', run (InEditor <$> ops) s
        = Some {| app := app s; customCategories := customCategories s;
                  editedPhoto := Some e' |}
        ∧ id e' = id e.
Proof.
  revert s e. induction ops as [|op ops IH]; intros s e Hwf He.
  - exists e. split; [|done]. cbn. rewrite <- He. by destruct s.
  - destruct (wf_editor_photo s e Hwf He)
      as (Hid & p & Hfind & _ & Hpid & Hurl).
    set (s1 := {| app := app s; customCategories := customCategories s;
                  editedPhoto := Some (editorStep op p e) |}).
    assert (step (InEditor op) s = Some s1) as Hstep.
    { cbn [step]. rewrite He, Hid. cbn. by rewrite Hfind. }
    destruct (editorStep_keeps op p e Hpid Hurl) as [Hkeep _].
    destruct (IH s1 (editorStep op p e)) as (e' & Hrun & He').
    { by destruct (step_preserves (InEditor op) _ _ Hwf (freshIds_nil s)
                     Hstep). }
    { done. }
    exists e'. split; [|by rewrite He'].
    rewrite fmap_cons.
    change (run (InEditor op :: (InEditor <$> ops)) s)
      with (s' ← step (InEditor op) s; run (InEditor <$> ops) s').
    rewrite Hstep. exact Hrun.
Qed.

(** X15: [Reset] starts again from the photo of the store, not from the
    original image. Whatever was done in the editor before, [Reset]
    followed by [Save] leaves in the store the photo that was there when
    [Reset] was pressed, with the default filters and no rotation: edits of
    the session that were not saved (also a new image or narration) are
    dropped, and an image that was saved before stays. *)
Theorem reset_then_save (ops : list EditorOp) (s : State) (e p : Photo) :
  wf s → editedPhoto s = Some e →
  find (idIs (id e)) (photos (app s)) = Some p →
  ∃ s',
    run ((InEditor <$> ops) ++ [InEditor Reset; Save]) s = Some s'
    ∧ find (idIs (id e)) (photos (app s'))
      = Some (with_rotation (with_filters p DEFAULT_FILTERS) 0)
    ∧ editedPhoto s' = None.
Proof.
  intros Hwf He Hfind.
  destruct (editor_ops_run ops s e Hwf He) as (e' & Hrun & He').
  destruct (wf_editor_photo s e Hwf He) as (Hid & p' & Hfind' & Hp & Hpid & _).
  assert (p' = p) as -> by congruence.
  eexists. rewrite run_app, Hrun.
  cbn [mbind option_bind run step app editedPhoto editingPhotoId].
  rewrite Hid. cbn [mbind option_bind]. rewrite Hfind.
  cbn [mbind option_bind editorStep handleReset editedPhoto app].
  split; [reflexivity|]. cbn [app editedPhoto]. split; [|done].
  unfold saveEditedPhoto. cbn [photos with_view with_photos id
                                 with_rotation with_filters].
  change (id (handleReset p)) with (id p). rewrite Hpid.
  change (with_rotation (with_filters p DEFAULT_FILTERS) 0)
    with (handleReset p).
  apply find_replaced; [|exact Hpid].
  apply list_elem_of_fmap. by exists p.
Qed.

Lemma reset_then_save_witness :
  let s1 :=
    default sampleState (step (EditPhoto "k3j9x0q1z") sampleState) in
  ∃ s',
    run ((InEditor <$> [Rotate; StylizeResolved (Some "data:image/png;base64,CCCC")])
         ++ [InEditor Reset; Save]) s1 = Some s'
    ∧ find (idIs (id samplePhoto)) (photos (app s'))
      = Some (with_rotation (with_filters samplePhoto DEFAULT_FILTERS) 0)
    ∧ editedPhoto s' = None.
Proof.
  intros s1.
  apply (reset_then_save _ s1 samplePhoto samplePhoto);
    [|vm_compute; reflexivity|vm_compute; reflexivity].
  apply (run_wf [EditPhoto "k3j9x0q1z"] sampleState);
    [by repeat constructor| |vm_compute; reflexivity].
  apply wf_no_editor; [|reflexivity].
  apply (bool_decide_unpack _). vm_compute. exact I.
Defined.



(** *** Rotations *)

Lemma rightAngle_rotate (p : Photo) :
  rightAngle p → rightAngle (handleRotate p).
Proof.
  unfold rightAngle, handleRotate. cbn [rotation with_rotation].
  intros H. repeat (apply elem_of_cons in H as [-> | H]);
    [| | | |by apply elem_of_nil in H];
    apply (bool_decide_unpack _); vm_compute; exact I.
Qed.

Lemma rightAngle_reset (photo : Photo) : rightAngle (handleReset photo).
Proof. unfold rightAngle. cbn. apply list_elem_of_here. Qed.

Lemma rightAngle_editorStep (op : EditorOp) (photo prev : Photo) :
  rightAngle prev → rightAngle (editorStep op photo prev).
Proof.
  intros H. destruct op as [key value| | | |style|text|text|audioUrl|u|u|u
                           |text|audioUrl]; cbn [editorStep];
    try done.
  - by apply rightAngle_rotate.
  - apply rightAngle_reset.
  - destruct style; cbn [applyPreset]; [apply rightAngle_reset|done..].
  - unfold speechResolved. destruct audioUrl; [|done]. by destruct (truthy _).
  - unfold imageResolved. destruct u; [|done]. by destruct (truthy _).
  - unfold imageResolved. destruct u; [|done]. by destruct (truthy _).
  - unfold imageResolved. destruct u; [|done]. by destruct (truthy _).
  - unfold transcribeResolved. by destruct (truthy _).
Qed.

Lemma rightAngle_map (f : Photo → Photo) (l : list Photo) :
  (∀ p, rightAngle p → rightAngle (f p)) →
  Forall rightAngle l → Forall rightAngle (f <$> l).
Proof.
  intros Hf Hl. apply Forall_fmap. eapply Forall_impl; [exact Hl|].
  intros p Hp. by apply Hf.
Qed.

Lemma rotationsOk_step (act : Action) (s s' : State) :
  rotationsOk s → step act s = Some s' → rotationsOk s'.
Proof.
  intros [Hphotos Hed] Hstep.
  destruct act as [files|ids|i cat|fromId toId|i|i cat|i|c|c| | |audioUrl|v
                  | | |op]; cbn [step] in Hstep.
  - injection Hstep as <-.
    split; [|done]. cbn. apply Forall_app. split; [done|].
    apply Forall_fmap, Forall_forall. intros [[i u] n] _.
    unfold rightAngle. cbn. apply list_elem_of_here.
  - destruct (decide _); [|done]. injection Hstep as <-.
    split; [|done]. cbn. apply Forall_app. split; [done|].
    apply Forall_forall. intros p Hp. unfold demoPhotos in Hp.
    apply elem_of_lookup_imap in Hp as (k & [[[u cat] text] newId] & -> & _).
    unfold rightAngle. cbn. apply list_elem_of_here.
  - injection Hstep as <-. split; [|done]. cbn.
    apply rightAngle_map; [|done]. intros p Hp. by destruct (idIs i p).
  - destruct (decide (inGallery s)); [|done].
    destruct (handleReorder_spec fromId toId (app s))
      as (next & Hnext & Hperm & _).
    rewrite Hnext in Hstep. injection Hstep as <-.
    split; [|done]. cbn. by rewrite Hperm.
  - destruct (decide _) as [[Hg Hi]|]; [|done].
    unfold mountEditor in Hstep.
    cbn [currentView with_view editingPhotoId photos] in Hstep.
    destruct (truthy (Some i)).
    + destruct (find_idIs_elem i _ Hi) as [p Hfind].
      cbv [from_option Datatypes.id] in Hstep. rewrite Hfind in Hstep.
      injection Hstep as <-. split; [done|]. cbn. intros e [= <-].
      apply find_idIs_Some in Hfind as [Hp _].
      by apply (proj1 (Forall_forall _ _) Hphotos).
    + injection Hstep as <-. by split.
  - destruct (decide (inGallery s)); [|done]. injection Hstep as <-.
    split; [|done]. cbn.
    apply rightAngle_map; [|done]. intros p Hp. by destruct (idIs i p).
  - destruct (decide (inGallery s)); [|done]. injection Hstep as <-.
    split; [|done]. cbn. apply Forall_forall. intros p Hp.
    apply list_elem_of_filter in Hp as [_ Hp].
    by apply (proj1 (Forall_forall _ _) Hphotos).
  - destruct (decide (inGallery s)); [|done]. injection Hstep as <-.
    by split.
  - destruct (decide (inGallery s)); [|done]. cbn in Hstep.
    injection Hstep as <-. split; [|done]. cbn.
    apply rightAngle_map; [|done]. intros p Hp. by destruct (bool_decide _).
  - destruct (decide _); [|done]. injection Hstep as <-. by split.
  - destruct (decide _); [|done]. injection Hstep as <-. by split.
  - injection Hstep as <-. by split.
  - injection Hstep as <-. by split.
  - destruct (editedPhoto s) as [e|] eqn:He; [|done].
    cbn in Hstep. injection Hstep as <-. split; [|done]. cbn.
    apply rightAngle_map; [|done]. intros p Hp.
    destruct (idIs (id e) p); [by apply Hed|done].
  - destruct (editedPhoto s) as [e|] eqn:He; [|done].
    cbn in Hstep. injection Hstep as <-. by split.
  - destruct (editedPhoto s) as [e|] eqn:He.
    2:{ destruct (isResolution op); [|done]. injection Hstep as <-.
        split; [done|]. intros e0. by rewrite He. }
    cbn in Hstep. destruct (editingPhotoId (app s)) as [i|]; [|done].
    cbn in Hstep. destruct (find (idIs i) (photos (app s))) as [photo|];
      [|done].
    cbn in Hstep. injection Hstep as <-. split; [done|]. cbn.
    intros e' [= <-]. apply rightAngle_editorStep. by apply Hed.
Qed.

(** X16: the rotation of a photo is always one of 0, 90, 180 and 270, as
    [src/types.ts] says: uploads and demo photos start at 0, [handleRotate]
    goes from one of the four to the next, [Reset] returns to 0, and no
    other handler changes it. This holds for the photos of the store and for
    the copy of the editor in every state of a session, and four rotations
    give the photo back. *)
Theorem rotation_right_angle (acts : list Action) (s s' : State) :
  rotationsOk s → run acts s = Some s' →
  rotationsOk s'
  ∧ ∀ p, rightAngle p →
      handleRotate (handleRotate (handleRotate (handleRotate p))) = p.
Proof.
  intros Hok Hrun. split.
  - revert s Hok Hrun. induction acts as [|act acts IH]; intros s Hok Hrun.
    + by injection Hrun as <-.
    + cbn [run] in Hrun. destruct (step act s) as [s1|] eqn:Hstep; [|done].
      cbn in Hrun. eapply IH; [|exact Hrun].
      by eapply rotationsOk_step.
  - intros p Hp. unfold rightAngle in Hp. destruct p as [i u o n c t a f r].
    cbn [rotation] in Hp. unfold handleRotate. cbn. f_equal.
    repeat (apply elem_of_cons in Hp as [-> | Hp]);
      [done..|by apply elem_of_nil in Hp].
Qed.

Lemma rotation_right_angle_witness :
  ∃ s', run sampleSession sampleState = Some s' ∧ rotationsOk s'.
Proof.
  eexists. split; [vm_compute; reflexivity|].
  refine (proj1 (rotation_right_angle sampleSession sampleState _ _ _)).
  - split; [|intros e He; discriminate He].
    apply Forall_singleton. apply list_elem_of_here.
  - vm_compute. reflexivity.
Defined.

End UiMoreFacts.

(** ** The handlers of the editor *)

Section EditorFacts.
Import Store Ui Gateway GatewayCalls Editor.

Lemma textOfResponse (W : World) (log0 : list Event) (request : Request)
    (response : Response) (fixed : list string) :
  w_generateContent W log0 request = Ok response →
  model request = "gemini-2.5-flash" →
  "" ∈ fixed →
  textOfModel W fixed (orElse (trimmedText response) "").
Proof.
  intros Hresp Hmodel Hfixed. unfold trimmedText.
  destruct (orElse_cases (trim <$> r_text response) "")
    as [-> | (s & Hs & -> & Hne)]; [by left|].
  right. destruct (r_text response) as [t|] eqn:Ht; [|done].
  injection Hs as <-. by exists log0, request, response, t.
Qed.

Lemma textRequest_sat (W : World) (media : InlineData) (prompt : string)
    (fixed : list string) (T : JsError → Prop) :
  "" ∈ fixed → (∀ e, T e) →
  sat (let* response :=
         generateContent W (mediaRequest "gemini-2.5-flash" media prompt) in
       ret (orElse (trimmedText response) ""))
      isGatewayEvent (textOfModel W fixed) T.
Proof.
  intros Hfixed HT.
  eapply (sat_bind _ _ _
            (λ response, ∃ log0 request,
               w_generateContent W log0 request = Ok response
               ∧ model request = "gemini-2.5-flash")).
  { apply sat_perform; [done| |by intros]. intros log0 v Hv. by eexists _, _. }
  intros response (log0 & request & Hresp & Hmodel).
  apply sat_ret. by eapply textOfResponse.
Qed.

Lemma generateAutoNarration_sat (W : World) (key u tone : string) :
  sat (generateAutoNarration key W u tone) isGatewayEvent
      (textOfModel W narrationTexts) (λ _, False).
Proof.
  unfold generateAutoNarration.
  destruct (negb (nonEmpty key)).
  { apply sat_ret. left. apply list_elem_of_here. }
  eapply (sat_tryCatch _ _ _ _ (λ _, True)).
  - eapply sat_bind.
    { eapply sat_weaken; [apply fileToGenerativePart_sat|done|done]. }
    intros [imageData|] _.
    + apply textRequest_sat; [|done].
      unfold narrationTexts. do 3 apply list_elem_of_further.
      apply list_elem_of_here.
    + apply sat_ret. left. apply list_elem_of_further, list_elem_of_here.
  - intros e _.
    eapply (sat_bind _ _ _ (λ _, True)); [by apply handleGeminiError_sat|].
    intros _ _. apply sat_ret. left.
    do 2 apply list_elem_of_further. apply list_elem_of_here.
Qed.

Lemma audioToGenerativePart_sat (W : World) (u : string) :
  sat (audioToGenerativePart W u) isGatewayEvent (λ _, True) (λ _, False).
Proof.
  eapply sat_weaken; [apply audioToGenerativePart_part_sat|done|done].
Qed.

Lemma transcribeAudio_sat (W : World) (key u : string) :
  sat (transcribeAudio key W u) isGatewayEvent
      (textOfModel W transcriptionTexts) (λ _, False).
Proof.
  unfold transcribeAudio.
  destruct (negb (nonEmpty key)).
  { apply sat_ret. left. apply list_elem_of_here. }
  eapply (sat_tryCatch _ _ _ _ (λ _, True)).
  - eapply sat_bind.
    { eapply sat_weaken; [apply audioToGenerativePart_sat|done|done]. }
    intros [audioData|] _.
    + apply textRequest_sat; [|done].
      unfold transcriptionTexts. do 2 apply list_elem_of_further.
      apply list_elem_of_here.
    + apply sat_ret. left. apply list_elem_of_further, list_elem_of_here.
  - intros e _.
    eapply (sat_bind _ _ _ (λ _, True)); [by apply handleGeminiError_sat|].
    intros _ _. apply sat_ret. left.
    do 2 apply list_elem_of_further. apply list_elem_of_here.
Qed.

Lemma orElse_empty (a : option string) : orElse a "" = default "" a.
Proof.
  unfold orElse, nonEmpty. destruct a as [t|]; [|done]. cbn.
  by destruct (bool_decide_reflect (t = "")).
Qed.

(** [generateAutoNarration] with a credential, step by step: the encoding
    of the image, then one request, whose answer decides the text. *)
Lemma generateAutoNarration_run (key : string) (W : World)
    (u tone : string) (log : list Event) :
  key ≠ "" →
  ∃ imageData log1,
    fileToGenerativePart W u log = (Ok imageData, log1)
    ∧ (generateAutoNarration key W u tone log).1
      = Ok (match imageData with
            | None => "Could not process image."
            | Some imageData =>
                narrationOfAnswer
                  (w_generateContent W log1
                     (narrationRequest imageData tone))
            end).
Proof.
  intros Hkey.
  destruct (fileToGenerativePart_returns W u log) as (r & evs & Hpart).
  exists r, (log ++ evs). split; [done|].
  unfold generateAutoNarration, nonEmpty.
  rewrite bool_decide_eq_false_2 by done. cbn [negb].
  unfold tryCatch, bind. rewrite Hpart.
  destruct r as [imageData|]; [|done].
  unfold generateContent, perform. fold (narrationRequest imageData tone).
  destruct (w_generateContent W (log ++ evs)
              (narrationRequest imageData tone)) as [response|e].
  - unfold ret, trimmedText. cbn [fst narrationOfAnswer].
    by rewrite orElse_empty.
  - unfold handleGeminiError.
    by destruct (isQuotaError e).
Qed.

(** X17: [handleAINarration] always replaces the narration of the photo by
    what [generateAutoNarration] returns for the image of the photo and the
    tone, and never shows an alert: the text that the user had typed is
    lost also when the function returns a message or the empty text in
    place of a caption. Without a credential the narration becomes "API
    Key missing. Please provide a description manually." and nothing is
    sent. With a credential it becomes "Could not process image." when the
    encoding gives no image; otherwise one request is sent and the
    narration becomes the trimmed text of its answer, the empty text when
    the answer has no text, and "Could not generate narration." when the
    request fails. *)
Theorem handleAINarration_overwrites (key : string) (W : World)
    (editedPhoto : Photo) (tone : string) (log : list Event) :
  ∃ text evs,
    generateAutoNarration key W (url editedPhoto) tone log
    = (Ok text, log ++ evs)
    ∧ (∃ o,
         handleAINarration key W editedPhoto tone log = (Ok o, log ++ evs)
         ∧ alert o = None
         ∧ ∀ prev, update o prev = with_narration prev text)
    ∧ textOfModel W narrationTexts text
    ∧ (key = "" →
       text = "API Key missing. Please provide a description manually."
       ∧ evs = [])
    ∧ (key ≠ "" →
       ∃ imageData log1,
         fileToGenerativePart W (url editedPhoto) log = (Ok imageData, log1)
         ∧ text = match imageData with
                  | None => "Could not process image."
                  | Some imageData =>
                      narrationOfAnswer
                        (w_generateContent W log1
                           (narrationRequest imageData tone))
                  end).
Proof.
  destruct (sat_returns _ _ _ log
              (generateAutoNarration_sat W key (url editedPhoto) tone))
    as (text & evs & Hrun & _ & Htext).
  exists text, evs. split; [done|]. split.
  { exists (updated (narrationResolved text)).
    split; [|done]. unfold handleAINarration, bind. by rewrite Hrun. }
  split; [done|]. split.
  - intros ->. cbn in Hrun. injection Hrun as <- Hlog.
    split; [done|]. symmetry. apply (app_inv_head log).
    by rewrite app_nil_r.
  - intros Hkey.
    destruct (generateAutoNarration_run key W (url editedPhoto) tone log
                Hkey) as (imageData & log1 & Hpart & Hcase).
    exists imageData, log1. split; [done|].
    rewrite Hrun in Hcase. cbn [fst] in Hcase. by injection Hcase.
Qed.

Lemma truthy_Some (s : string) : truthy (Some s) = true ↔ s ≠ "".
Proof.
  unfold truthy. destruct (bool_decide_reflect (s = "")); cbn; split;
    intros; congruence.
Qed.

Lemma transcribeResolved_appendLine (text : string) (prev : Photo) :
  text ≠ "" →
  transcribeResolved text prev
  = with_narration prev (appendLine (narration prev) text).
Proof.
  intros Htext. unfold transcribeResolved, appendLine.
  rewrite (proj2 (truthy_Some text) Htext).
  destruct (decide (narration prev = "")) as [E|E].
  - rewrite E. done.
  - by rewrite (proj2 (truthy_Some _) E).
Qed.

(** X18: [handleTranscribe] adds whatever text [transcribeAudio] returns
    to the narration, on a new line when the narration is not empty, also
    when that text is a message and no transcription: without a credential
    the narration gets the line "API Key missing.", and when the recording
    cannot be downloaded it gets "Could not process audio data."; no alert
    is shown in either case. *)
Theorem handleTranscribe_appends_message (W : World) (editedPhoto : Photo)
    (recording : string) (log : list Event) :
  audioNarrationUrl editedPhoto = Some recording → recording ≠ "" →
  (∃ o,
     handleTranscribe "" W editedPhoto log = (Ok o, log)
     ∧ alert o = None
     ∧ ∀ prev, update o prev
               = with_narration prev
                   (appendLine (narration prev) "API Key missing."))
  ∧ (∀ key e, key ≠ "" → w_fetch W log recording = Throw e →
       ∃ o evs,
         handleTranscribe key W editedPhoto log = (Ok o, log ++ evs)
         ∧ alert o = None
         ∧ ∀ prev, update o prev
                   = with_narration prev
                       (appendLine (narration prev)
                          "Could not process audio data.")).
Proof.
  intros Hrec Hne.
  assert (truthy (audioNarrationUrl editedPhoto) = true) as Htruthy
    by (rewrite Hrec; by apply truthy_Some).
  split.
  - exists (updated (transcribeResolved "API Key missing.")).
    unfold handleTranscribe. rewrite Htruthy. cbn.
    split; [done|]. split; [done|]. intros prev.
    by apply transcribeResolved_appendLine.
  - intros key e Hkey Hfetch.
    exists (updated (transcribeResolved "Could not process audio data.")),
      [EvFetch recording;
       EvConsoleError "Error processing audio for Gemini:"].
    split; [|split; [done|]].
    + unfold handleTranscribe. rewrite Htruthy, Hrec. cbn [negb].
      change (default "" (Some recording)) with recording.
      unfold tryCatch, bind.
      by rewrite (transcribeAudio_offline key W recording log e Hkey Hfetch).
    + intros prev. by apply transcribeResolved_appendLine.
Qed.

Lemma handleTranscribe_appends_message_witness :
  ∃ o,
    handleTranscribe "" sampleWorld narratedPhoto [] = (Ok o, [])
    ∧ narration (update o narratedPhoto)
      = "At the beach." +:+ newline +:+ "API Key missing.".
Proof.
  destruct (handleTranscribe_appends_message sampleWorld narratedPhoto
              "blob:recording" [] eq_refl ltac:(discriminate))
    as [(o & Hrun & _ & Hupdate) _].
  exists o. split; [exact Hrun|]. by rewrite Hupdate.
Defined.

Lemma request_settles {A} (call : M A) (ok : A → bool)
    (resolved : A → Photo → Photo) (failed errorText : string)
    (Q : A → Prop) (changes : (Photo → Photo) → Prop) (log : list Event) :
  sat call isGatewayEvent Q (λ _, False) →
  (∀ a, Q a → ok a = true → changes (resolved a)) →
  ∃ o evs,
    tryCatch
      (let* a := call in
       if ok a then ret (updated (resolved a))
       else ret (unchanged (Some failed)))
      (λ e,
         let* _ := consoleError e in
         ret (unchanged (Some errorText))) log
    = (Ok o, log ++ evs)
    ∧ settled o changes failed.
Proof.
  intros Hcall Hok.
  destruct (sat_returns _ _ _ log Hcall) as (a & evs & Hrun & _ & Ha).
  unfold tryCatch, bind. rewrite Hrun.
  destruct (ok a) eqn:E; cbn.
  - exists (updated (resolved a)), evs. split; [done|]. left.
    split; [done|]. by apply Hok.
  - exists (unchanged (Some failed)), evs. split; [done|]. by right.
Qed.

Lemma truthy_option (r : option string) :
  truthy r = true → ∃ u, r = Some u ∧ u ≠ "".
Proof.
  destruct r as [u|]; [|done]. intros H. exists u. split; [done|].
  by apply truthy_Some.
Qed.

Lemma idle_ret (log : list Event) :
  ∃ o evs, ret (unchanged None) log = (Ok o, log ++ evs) ∧ idle o evs.
Proof. exists (unchanged None), []. by rewrite app_nil_r. Qed.

(** X19: the requests of the editor always settle without an error. The
    handlers of the stylization, of the object removal by description, of
    the speech and of the transcription either update the photo and show no
    alert (a new image in [url], a new recording, a line added to the
    narration), or show their alert "Could not ..." and leave the photo as
    it is; the alerts of their [catch] blocks ("Error generating image."
    and the like) are never shown, since the gateway returns its fallback
    for every failure. A description that is blank, an empty narration and
    a photo without a recording make the handler return at once: nothing is
    sent, shown or updated. *)
Theorem editor_requests_settle (key : string) (W : World)
    (editedPhoto : Photo) (text : string) (log : list Event) :
  (∃ o evs,
     handleStylize key W editedPhoto text log = (Ok o, log ++ evs)
     ∧ settled o (setsImage W)
         "Could not generate stylized image. Please check your connection and API limits.")
  ∧ (∃ o evs,
       handleRemoveObject key W editedPhoto text log = (Ok o, log ++ evs)
       ∧ if decide (trim text = "") then idle o evs
         else settled o (setsImage W)
                "Could not remove the object. Please try a different description.")
  ∧ (∃ o evs,
       handleGenerateSpeech key W editedPhoto log = (Ok o, log ++ evs)
       ∧ if decide (narration editedPhoto = "") then idle o evs
         else settled o (setsSpeech W) "Could not generate audio.")
  ∧ (∃ o evs,
       handleTranscribe key W editedPhoto log = (Ok o, log ++ evs)
       ∧ if decide (truthy (audioNarrationUrl editedPhoto) = false)
         then idle o evs
         else settled o (addsLine W) "Could not transcribe audio.").
Proof.
  assert (∀ r, imageOfModel W r → truthy r = true →
               setsImage W (imageResolved r)) as Himage.
  { intros r Hr Ht. destruct (truthy_option r Ht) as (u & -> & Hu).
    exists u. split; [done|]. split; [done|]. intros prev.
    by apply imageResolved_only_url. }
  split; [|split; [|split]].
  - unfold handleStylize.
    apply (request_settles _ truthy imageResolved _ _ (imageOfModel W));
      [apply stylizeImage_sat|exact Himage].
  - unfold handleRemoveObject.
    destruct (decide (trim text = "")) as [E|E].
    + rewrite E. apply idle_ret.
    + rewrite (proj2 (truthy_Some _) E). cbn [negb].
      apply (request_settles _ truthy imageResolved _ _ (imageOfModel W));
        [apply removeObject_sat|exact Himage].
  - unfold handleGenerateSpeech.
    destruct (decide (narration editedPhoto = "")) as [E|E].
    + rewrite E. apply idle_ret.
    + rewrite (proj2 (truthy_Some _) E). cbn [negb].
      apply (request_settles _ truthy speechResolved _ _
               (λ r, ∀ u, r = Some u → wavOfModel W u));
        [apply generateSpeech_sat|].
      intros r Hr Ht. destruct (truthy_option r Ht) as (u & -> & Hu).
      exists u. split; [done|]. split; [by apply Hr|]. intros prev.
      unfold speechResolved. by rewrite Ht.
  - unfold handleTranscribe.
    destruct (decide (truthy (audioNarrationUrl editedPhoto) = false))
      as [E|E].
    + rewrite E. apply idle_ret.
    + apply not_false_is_true in E. rewrite E. cbn [negb].
      apply (request_settles _ (λ t, truthy (Some t)) transcribeResolved _ _
               (textOfModel W transcriptionTexts));
        [apply transcribeAudio_sat|].
      intros t Ht Hne. apply truthy_Some in Hne.
      exists t. split; [done|]. split; [done|]. intros prev.
      by apply transcribeResolved_appendLine.
Qed.

End EditorFacts.

(** ** The category bar *)

Section GalleryFacts.
Import Store GalleryView.

Lemma includesName_true (arr : list string) (name : string) :
  includesName arr name = true ↔ name ∈ arr.
Proof. unfold includesName. apply bool_decide_eq_true. Qed.

Lemma includesName_false (arr : list string) (name : string) :
  includesName arr name = false ↔ name ∉ arr.
Proof. unfold includesName. apply bool_decide_eq_false. Qed.

Lemma all_in_bar (cats : list string) : "All" ∈ allCategories cats.
Proof. unfold allCategories, builtInCategories. apply list_elem_of_here. Qed.

Lemma barOk_effect (s : State) :
  NoDup (customCategories s) →
  (∀ c, c ∈ customCategories s → (c ∉ builtInCategories) ∧ c ≠ "") →
  barOk (activeCategoryEffect s).
Proof.
  intros Hnd Hcats. unfold activeCategoryEffect.
  destruct (includesName _ _) eqn:E.
  - apply includesName_true in E. by split.
  - split; [done|]. split; [done|]. apply all_in_bar.
Qed.

Lemma barOk_step (act : Action) (s s' : State) :
  barOk s → step act s = Some s' → barOk s'.
Proof.
  intros (Hnd & Hcats & Hactive) Hstep.
  destruct act as [text| |cat|cat confirmed]; cbn [step] in Hstep.
  - injection Hstep as <-. by apply barOk_effect.
  - injection Hstep as <-. unfold handleCreateCategory.
    destruct (Ui.truthy _) eqn:Ht; [|by apply barOk_effect].
    destruct (includesName _ _) eqn:E; cbn [negb fst];
      [by apply barOk_effect|].
    apply includesName_false in E.
    assert (Gateway.trim (newCatName s) ≠ "") as Hne.
    { unfold Ui.truthy in Ht. intros H. rewrite H in Ht. done. }
    apply barOk_effect; cbn [customCategories].
    + apply NoDup_app. split; [done|]. split; [|apply NoDup_singleton].
      intros c Hc Hc'. apply list_elem_of_singleton in Hc'. subst c.
      apply E. unfold allCategories. apply elem_of_app. by right.
    + intros c Hc. apply elem_of_app in Hc as [Hc|Hc]; [by apply Hcats|].
      apply list_elem_of_singleton in Hc. subst c. split; [|done].
      intros H. apply E. unfold allCategories. apply elem_of_app. by left.
  - destruct (includesName _ _); [|done]. injection Hstep as <-.
    by apply barOk_effect.
  - destruct (includesName _ _); [|done]. injection Hstep as <-.
    unfold handleDeleteCategory. destruct confirmed; [|by apply barOk_effect].
    cbn. apply barOk_effect; cbn [customCategories].
    + unfold deleteCustomCategory_list. by apply NoDup_filter.
    + intros c Hc. apply Hcats.
      unfold deleteCustomCategory_list in Hc.
      by apply list_elem_of_filter in Hc as [_ Hc].
Qed.

(** X20: the custom categories stay distinct and never take the name of a
    built-in category, of "All" or the empty name, and the active category
    is always one that the bar shows. This holds after every sequence of
    typing, creating, selecting and deleting, from a bar for which it
    holds; a gallery mounted with no custom categories is such a bar. *)
Theorem category_bar_invariant (acts : list Action) (s s' : State)
    (a : AppState) :
  barOk s → run acts s = Some s' →
  barOk s' ∧ barOk (mounted a []).
Proof.
  intros Hok Hrun. split.
  - revert s Hok Hrun. induction acts as [|act acts IH]; intros s Hok Hrun.
    + by injection Hrun as <-.
    + cbn [run] in Hrun. destruct (step act s) as [s1|] eqn:Hstep; [|done].
      cbn in Hrun. eapply IH; [|exact Hrun]. by eapply barOk_step.
  - apply barOk_effect; cbn; [constructor|].
    intros c Hc. by apply elem_of_nil in Hc.
Qed.

Lemma category_bar_invariant_witness :
  let s := mounted (Ui.app Ui.sampleState) [] in
  let acts := [TypeName " Trips "; Create; Select "People";
               Delete "Trips" true] in
  let s' := default s (run acts s) in
  barOk s' ∧ barOk (mounted (Ui.app Ui.sampleState) []).
Proof.
  intros s acts s'.
  apply (category_bar_invariant acts s s' (Ui.app Ui.sampleState));
    [|vm_compute; reflexivity].
  apply barOk_effect; cbn; [constructor|].
  intros c Hc. by apply elem_of_nil in Hc.
Defined.

(** X21: what the gallery shows. Under "All" it shows every photo; under
    another category, the photos of that category, in their order. A photo
    whose category is none of the bar (the categorization can return any
    text) is shown under "All" only. Deleting the active custom category
    returns the bar to "All", so that every photo is shown again, none of
    them removed. *)
Theorem gallery_shows (s : State) (p : Photo) (c : string) :
  barOk s →
  filteredPhotos (photos (app s)) "All" = photos (app s)
  ∧ (activeCategory s ≠ "All" →
     ∀ q, q ∈ filteredPhotos (photos (app s)) (activeCategory s)
          ↔ q ∈ photos (app s) ∧ category q = activeCategory s)
  ∧ filteredPhotos (photos (app s)) (activeCategory s)
    `sublist_of` photos (app s)
  ∧ (p ∈ photos (app s) →
     category p ∉ allCategories (customCategories s) →
     p ∈ filteredPhotos (photos (app s)) (activeCategory s)
     ↔ activeCategory s = "All")
  ∧ (activeCategory s = c → c ∈ customCategories s →
     ∃ s', step (Delete c true) s = Some s'
           ∧ activeCategory s' = "All"
           ∧ (c ∉ customCategories s')
           ∧ filteredPhotos (photos (app s')) (activeCategory s')
             = photos (app s')
           ∧ length (photos (app s')) = length (photos (app s))).
Proof.
  intros (Hnd & Hcats & Hactive).
  split; [done|]. split; [|split; [|split]].
  - intros Hne q. unfold filteredPhotos.
    rewrite bool_decide_eq_false_2 by done.
    rewrite list_elem_of_filter. tauto.
  - unfold filteredPhotos. destruct (bool_decide _); [done|].
    apply sublist_filter.
  - intros Hp Hcat. unfold filteredPhotos.
    destruct (bool_decide_reflect (activeCategory s = "All")) as [E|E];
      [done|].
    rewrite list_elem_of_filter. split; [|done].
    intros [Hc _]. exfalso. apply Hcat. by rewrite Hc.
  - intros Hc Hin.
    assert (c ∉ deleteCustomCategory_list c (customCategories s)) as Hgone.
    { unfold deleteCustomCategory_list. rewrite list_elem_of_filter. tauto. }
    eexists. cbn [step].
    rewrite (proj2 (includesName_true _ _) Hin).
    split; [reflexivity|]. cbn [handleDeleteCategory].
    cbn [handleDeleteCustomCategory fst snd].
    unfold activeCategoryEffect. cbn [customCategories activeCategory].
    rewrite Hc.
    assert (includesName
              (allCategories (deleteCustomCategory_list c (customCategories s)))
              c = false) as ->.
    { apply includesName_false. unfold allCategories. intros H.
      apply elem_of_app in H as [H|H]; [|done].
      by destruct (Hcats c Hin). }
    cbn [activeCategory customCategories app].
    split; [done|]. split; [done|]. split; [done|].
    unfold deleteCustomCategory_state. cbn [photos with_photos].
    apply length_fmap.
Qed.

Lemma gallery_shows_witness :
  ∃ s', step (Delete "Trips" true) sampleBar = Some s'
        ∧ activeCategory s' = "All"
        ∧ ("Trips" ∉ customCategories s')
        ∧ filteredPhotos (photos (app s')) (activeCategory s')
          = photos (app s')
        ∧ length (photos (app s')) = length (photos (app sampleBar)).
Proof.
  refine (proj2 (proj2 (proj2 (proj2
            (gallery_shows sampleBar Ui.samplePhoto "Trips" _)))) _ _).
  - split; [apply NoDup_singleton|]. split.
    + intros c Hc. apply list_elem_of_singleton in Hc. subst c.
      split; [|done]. apply (bool_decide_unpack _). vm_compute. exact I.
    + apply (bool_decide_unpack _). vm_compute. exact I.
  - reflexivity.
  - apply list_elem_of_here.
Defined.

End GalleryFacts.

(** ** The slideshow *)

Section SlideshowFacts.
Import Store Number Slideshow.

Lemma jsRem_next (len i : Z) :
  0 ≤ i < len →
  jsRem (i + 1) len = Some (if bool_decide (i + 1 = len) then 0 else i + 1).
Proof.
  intros Hi. unfold jsRem. rewrite (proj2 (Z.eqb_neq len 0)) by lia.
  f_equal. destruct (bool_decide_reflect (i + 1 = len)) as [E|E].
  - rewrite E. apply Z.rem_same. lia.
  - apply Z.rem_small. lia.
Qed.

Lemma jsRem_prev (len i : Z) :
  0 ≤ i < len →
  jsRem (i - 1 + len) len
  = Some (if bool_decide (i = 0) then len - 1 else i - 1).
Proof.
  intros Hi. unfold jsRem. rewrite (proj2 (Z.eqb_neq len 0)) by lia.
  f_equal. destruct (bool_decide_reflect (i = 0)) as [E|E].
  - subst i. replace (0 - 1 + len) with (len - 1) by lia.
    apply Z.rem_small. lia.
  - rewrite Z.rem_mod_nonneg by lia.
    replace (i - 1 + len) with (i - 1 + 1 * len) by lia.
    rewrite Z.mod_add by lia. apply Z.mod_small. lia.
Qed.

Lemma originalIndex_in_range (photos : list Photo) (photo : Photo) :
  photo ∈ photos →
  ∃ (k : nat) (p : Photo),
    originalIndex photos photo = Z.of_nat k
    ∧ photos !! k = Some p ∧ id p = id photo
    ∧ (NoDup (id <$> photos) → p = photo).
Proof.
  intros Hin. unfold originalIndex.
  destruct (findIndex_spec (idIs (id photo)) photos)
    as [[_ Hnone] | (k & p & Hk & Hp & Hid & _)].
  - exfalso. rewrite Forall_forall in Hnone.
    specialize (Hnone photo Hin). by apply idIs_false in Hnone.
  - exists k, p. apply idIs_true in Hid.
    split; [done|]. split; [done|]. split; [done|].
    intros Hnd. eapply NoDup_id_inj; [exact Hnd| |done|done].
    by eapply list_elem_of_lookup_2.
Qed.

Lemma filterIndexFrom_sublist {A} (pred : nat → bool) (i : nat)
    (arr : list A) :
  filterIndexFrom pred i arr `sublist_of` arr.
Proof.
  revert i. induction arr as [|x arr IH]; intros i; cbn; [done|].
  destruct (pred i); [by apply sublist_skip|by apply sublist_cons].
Qed.

Lemma displayItems_elem (items : list Photo) (photo : Photo) :
  photo ∈ displayItems items → photo ∈ items.
Proof.
  unfold displayItems. destruct (bool_decide _).
  - rewrite !elem_of_app. tauto.
  - by intros ?%elem_of_nil.
Qed.

Lemma columns_elem (photos : list Photo) (s : State) (photo : Photo) :
  photo ∈ columns photos s → photo ∈ photos.
Proof.
  unfold columns. destruct (showSingleColumn _).
  - apply displayItems_elem.
  - rewrite elem_of_app. intros [H|H]; apply displayItems_elem in H.
    + eapply elem_of_sublist; [exact H|]. apply filterIndexFrom_sublist.
    + eapply elem_of_sublist; [exact H|]. apply filterIndexFrom_sublist.
Qed.

Lemma index_step (photos : list Photo) (act : Action) (s s' : State) :
  (∃ i, currentIndex s = Some i ∧ 0 ≤ i < Z.of_nat (length photos)) →
  step photos act s = Some s' →
  ∃ i, currentIndex s' = Some i ∧ 0 ≤ i < Z.of_nat (length photos).
Proof.
  intros (i & Hi & Hrange) Hstep.
  destruct act as [ | | | | |photo| |clientX innerWidth| ];
    cbn [step] in Hstep.
  - destruct (isPlaying s); [|done]. injection Hstep as <-.
    cbn. rewrite Hi. cbn. rewrite jsRem_next by done.
    eexists. split; [done|]. case_bool_decide; lia.
  - injection Hstep as <-.
    cbn. rewrite Hi. cbn. rewrite jsRem_next by done.
    eexists. split; [done|]. case_bool_decide; lia.
  - injection Hstep as <-.
    cbn. rewrite Hi. cbn. rewrite jsRem_prev by done.
    eexists. split; [done|]. case_bool_decide; lia.
  - injection Hstep as <-. by exists i.
  - injection Hstep as <-. by exists i.
  - destruct (bool_decide_reflect (photo ∈ columns photos s)) as [Hin|];
      [|done].
    injection Hstep as <-. apply columns_elem in Hin.
    destruct (originalIndex_in_range photos photo Hin)
      as (k & p & Hk & Hp & _).
    exists (Z.of_nat k). split; [cbn; by rewrite Hk|].
    apply lookup_lt_Some in Hp. lia.
  - injection Hstep as <-. by exists i.
  - destruct (isDragging s); injection Hstep as <-; by exists i.
  - injection Hstep as <-. by exists i.
Qed.

(** X22: a slideshow over at least one photo always has a current photo.
    From the first slide, after every sequence of ticks of the timer, keys,
    buttons, clicks on thumbnails and moves of the resizer, the index is an
    integer from 0 to the number of photos minus one, and [currentPhoto] is
    a photo of the list: the slideshow never renders nothing. Going to the
    next slide and back, or back and to the next, returns to the same
    slide, the last slide being followed by the first. *)
Theorem slideshow_index_in_range (photos : list Photo)
    (acts : list Action) (s' : State) :
  photos ≠ [] → run photos acts initial = Some s' →
  let len := Z.of_nat (length photos) in
  (∃ i p, currentIndex s' = Some i ∧ 0 ≤ i < len
          ∧ currentPhoto photos s' = Some p ∧ p ∈ photos)
  ∧ (∀ i, 0 ≤ i < len →
       prevIndex len (nextIndex len (Some i)) = Some i
       ∧ nextIndex len (prevIndex len (Some i)) = Some i
       ∧ nextIndex len (Some (len - 1)) = Some 0).
Proof.
  intros Hne Hrun len.
  assert (0 < len) as Hlen.
  { subst len. destruct photos; [done|]. cbn [length]. lia. }
  split.
  - assert (∃ i, currentIndex s' = Some i ∧ 0 ≤ i < len) as (i & Hi & Hr).
    { assert (∃ i, currentIndex initial = Some i ∧ 0 ≤ i < len) as Hinit
        by (exists 0; split; [done|lia]).
      revert Hinit Hrun. generalize initial.
      induction acts as [|act acts IH]; intros s Hs Hrun.
      - by injection Hrun as <-.
      - cbn [run] in Hrun.
        destruct (step photos act s) as [s1|] eqn:Hstep; [|done].
        cbn in Hrun. eapply IH; [|exact Hrun]. by eapply index_step. }
    destruct (lookup_lt_is_Some_2 photos (Z.to_nat i) ltac:(lia)) as [p Hp].
    exists i, p. split; [done|]. split; [done|].
    unfold currentPhoto, at_index. rewrite Hi.
    rewrite bool_decide_eq_true_2 by lia.
    split; [done|]. by eapply list_elem_of_lookup_2.
  - intros i Hi. unfold nextIndex, prevIndex. cbn [mbind option_bind].
    rewrite jsRem_next, jsRem_prev by done. cbn [mbind option_bind].
    split; [|split].
    + destruct (bool_decide_reflect (i + 1 = len)) as [E|E].
      * rewrite jsRem_prev by lia. rewrite bool_decide_eq_true_2 by done.
        f_equal. lia.
      * rewrite jsRem_prev by lia. rewrite bool_decide_eq_false_2 by lia.
        f_equal. lia.
    + destruct (bool_decide_reflect (i = 0)) as [E|E].
      * rewrite jsRem_next by lia. rewrite bool_decide_eq_true_2 by lia.
        f_equal. lia.
      * rewrite jsRem_next by lia. rewrite bool_decide_eq_false_2 by lia.
        f_equal. lia.
    + rewrite jsRem_next by lia. rewrite bool_decide_eq_true_2 by lia. done.
Qed.

Lemma slideshow_index_in_range_witness :
  let acts := [Tick; Tick; Tick; Previous; ClickThumbnail
                 (Ui.uploadedPhoto ("b", "data:b", "b.jpg"))] in
  let s' := default initial (run threePhotos acts initial) in
  let len := Z.of_nat (length threePhotos) in
  (∃ i p, currentIndex s' = Some i ∧ 0 ≤ i < len
          ∧ currentPhoto threePhotos s' = Some p ∧ p ∈ threePhotos)
  ∧ (∀ i, 0 ≤ i < len →
       prevIndex len (nextIndex len (Some i)) = Some i
       ∧ nextIndex len (prevIndex len (Some i)) = Some i
       ∧ nextIndex len (Some (len - 1)) = Some 0).
Proof.
  intros acts s'.
  apply (slideshow_index_in_range threePhotos acts s');
    [discriminate|vm_compute; reflexivity].
Defined.

(** *** The two columns *)

Lemma columns_lookup (arr : list Photo) (i k : nat) :
  (Nat.modulo i 2 = 0%nat →
   filterIndexFrom (λ i, bool_decide (Nat.modulo i 2 = 0%nat)) i arr !! k
   = arr !! (2 * k)%nat
   ∧ filterIndexFrom (λ i, bool_decide (Nat.modulo i 2 ≠ 0%nat)) i arr !! k
     = arr !! (2 * k + 1)%nat)
  ∧ (Nat.modulo i 2 ≠ 0%nat →
     filterIndexFrom (λ i, bool_decide (Nat.modulo i 2 = 0%nat)) i arr !! k
     = arr !! (2 * k + 1)%nat
     ∧ filterIndexFrom (λ i, bool_decide (Nat.modulo i 2 ≠ 0%nat)) i arr !! k
       = arr !! (2 * k)%nat).
Proof.
  revert i k. induction arr as [|x arr IH]; intros i k.
  { cbn. by rewrite !lookup_nil. }
  assert (Nat.modulo (S i) 2 = 0%nat ↔ Nat.modulo i 2 ≠ 0%nat) as Hpar.
  { pose proof (Nat.mod_upper_bound i 2 ltac:(lia)).
    pose proof (Nat.mod_upper_bound (S i) 2 ltac:(lia)).
    pose proof (Nat.div_mod_eq i 2). pose proof (Nat.div_mod_eq (S i) 2).
    lia. }
  cbn [filterIndexFrom]. split; intros Hi.
  - rewrite bool_decide_eq_true_2 by done.
    rewrite (bool_decide_eq_false_2 (Nat.modulo i 2 ≠ 0%nat)) by tauto.
    destruct (IH (S i) k) as [_ Hodd].
    destruct (Hodd ltac:(tauto)) as [_ Ho]. split.
    + destruct k as [|k]; [done|].
      destruct (IH (S i) k) as [_ Hodd'].
      destruct (Hodd' ltac:(tauto)) as [He _].
      replace (2 * S k)%nat with (S (2 * k + 1)) by lia.
      rewrite !lookup_cons. exact He.
    + replace (2 * k + 1)%nat with (S (2 * k)) by lia.
      rewrite lookup_cons. exact Ho.
  - rewrite bool_decide_eq_false_2 by done.
    rewrite (bool_decide_eq_true_2 (Nat.modulo i 2 ≠ 0%nat)) by done.
    destruct (IH (S i) k) as [Heven _].
    destruct (Heven ltac:(tauto)) as [He _]. split.
    + replace (2 * k + 1)%nat with (S (2 * k)) by lia.
      rewrite lookup_cons. exact He.
    + destruct k as [|k]; [done|].
      destruct (IH (S i) k) as [Heven' _].
      destruct (Heven' ltac:(tauto)) as [_ Ho].
      replace (2 * S k)%nat with (S (2 * k + 1)) by lia.
      rewrite !lookup_cons. exact Ho.
Qed.

Lemma columns_permutation (arr : list Photo) (i : nat) :
  arr ≡ₚ filterIndexFrom (λ i, bool_decide (Nat.modulo i 2 = 0%nat)) i arr
         ++ filterIndexFrom (λ i, bool_decide (Nat.modulo i 2 ≠ 0%nat)) i arr.
Proof.
  revert i. induction arr as [|x arr IH]; intros i; [done|].
  cbn [filterIndexFrom].
  destruct (decide (Nat.modulo i 2 = 0%nat)) as [E|E].
  - rewrite bool_decide_eq_true_2 by done.
    rewrite (bool_decide_eq_false_2 (Nat.modulo i 2 ≠ 0%nat)) by tauto.
    cbn [app]. by rewrite <- IH.
  - rewrite bool_decide_eq_false_2 by done.
    rewrite (bool_decide_eq_true_2 (Nat.modulo i 2 ≠ 0%nat)) by done.
    rewrite <- Permutation_middle. by rewrite <- IH.
Qed.

(** X23: the two columns of the left panel share the photos out: the first
    column holds the photos at the even positions and the second those at
    the odd positions, each in the order of the list, and together they
    hold every photo exactly once. *)
Theorem columns_partition (photos : list Photo) :
  photos ≡ₚ evenPhotos photos ++ oddPhotos photos
  ∧ (∀ k : nat, evenPhotos photos !! k = photos !! (2 * k)%nat)
  ∧ (∀ k : nat, oddPhotos photos !! k = photos !! (2 * k + 1)%nat).
Proof.
  split; [apply columns_permutation|].
  split; intros k; by destruct (columns_lookup photos 0 k) as [[? ?] _].
Qed.

(** X24: a click on a thumbnail shows the photo of the thumbnail, when the
    identifiers are unique: the index that [findIndex] returns for the
    identifier of the photo is the position of that photo. With repeated
    identifiers the click shows the first photo with the identifier of the
    thumbnail. *)
Theorem thumbnail_click_selects (photos : list Photo) (s : State)
    (photo : Photo) :
  photo ∈ columns photos s →
  ∃ s' p,
    step photos (ClickThumbnail photo) s = Some s'
    ∧ currentPhoto photos s' = Some p
    ∧ id p = id photo
    ∧ (NoDup (id <$> photos) → p = photo).
Proof.
  intros Hin. cbn [step]. rewrite bool_decide_eq_true_2 by done.
  destruct (originalIndex_in_range photos photo (columns_elem _ _ _ Hin))
    as (k & p & Hk & Hp & Hid & Hnd).
  eexists _, p. split; [done|].
  unfold currentPhoto, at_index. cbn [currentIndex with_index].
  rewrite Hk. rewrite bool_decide_eq_true_2 by lia.
  by rewrite Nat2Z.id.
Qed.

Lemma thumbnail_click_selects_witness :
  let b := Ui.uploadedPhoto ("b", "data:b", "b.jpg") in
  ∃ s' p,
    step threePhotos (ClickThumbnail b) initial = Some s'
    ∧ currentPhoto threePhotos s' = Some p
    ∧ id p = id b
    ∧ (NoDup (id <$> threePhotos) → p = b).
Proof.
  intros b. apply (thumbnail_click_selects threePhotos initial b).
  apply (bool_decide_unpack _). vm_compute. exact I.
Defined.

(** *** The resizer *)

Lemma compare_antisym (x y : spec_float) :
  SFcompare y x = option_map CompOpp (SFcompare x y).
Proof.
  destruct x as [sx|sx| |sx mx ex], y as [sy|sy| |sy my ey]; cbn;
    try done; try (by destruct sx); try (by destruct sy);
    try (by destruct sx, sy).
  assert (Pos.compare_cont Eq my mx = CompOpp (Pos.compare_cont Eq mx my))
    as Hm by (by rewrite Pos.compare_cont_antisym).
  f_equal. destruct sx, sy; try done.
  - rewrite (Z.compare_antisym ex ey), Hm.
    destruct (ex ?= ey) eqn:E; cbn; [|done|done].
    by destruct (Pos.compare_cont Eq mx my).
  - rewrite (Z.compare_antisym ex ey), Hm.
    by destruct (ex ?= ey) eqn:E.
Qed.

Lemma clampRatio_ok (ratio : spec_float) :
  ratio ≠ S754_nan → ratioOk (clampRatio ratio).
Proof.
  intros Hr. unfold clampRatio.
  pose proof (compare_not_nan (ofZ 50) ratio ltac:(done) Hr) as H50.
  pose proof (compare_not_nan (ofZ 10) ratio ltac:(done) Hr) as H10.
  unfold Math_min at 1.
  destruct (SFcompare (ofZ 50) ratio) as [[]|] eqn:E50;
    [by vm_compute|by vm_compute| |done].
  unfold Math_max.
  destruct (SFcompare (ofZ 10) ratio) as [[]|] eqn:E10;
    [by vm_compute| |by vm_compute|done].
  split.
  - unfold SFleb. by rewrite E10.
  - unfold SFleb. rewrite (compare_antisym (ofZ 50) ratio), E50. done.
Qed.

(** X25: the resizer keeps the split ratio between 10 and 50: for every
    position of the mouse that gives a number, [Math.max(10, Math.min(50,
    newRatio))] is at least 10 and at most 50, and so is the split ratio in
    every state of the slideshow, which starts at 25, unless it is NaN. A
    window of width 0 under the mouse at 0, where the quotient is NaN,
    gives NaN. *)
Theorem split_ratio_clamped (photos : list Photo) (acts : list Action)
    (s' : State) :
  run photos acts initial = Some s' →
  (ratioOk (splitRatio s') ∨ splitRatio s' = S754_nan)
  ∧ (∀ ratio, ratio ≠ S754_nan → ratioOk (clampRatio ratio))
  ∧ clampRatio (newRatio (ofZ 0) (ofZ 0)) = S754_nan.
Proof.
  intros Hrun. split; [|split; [apply clampRatio_ok|by vm_compute]].
  assert (ratioOk (splitRatio initial) ∨ splitRatio initial = S754_nan)
    as Hinit by (left; by vm_compute).
  revert Hinit Hrun. generalize initial.
  induction acts as [|act acts IH]; intros s Hs Hrun.
  - by injection Hrun as <-.
  - cbn [run] in Hrun.
    destruct (step photos act s) as [s1|] eqn:Hstep; [|done].
    cbn in Hrun. eapply IH; [|exact Hrun].
    destruct act as [ | | | | |photo| |clientX innerWidth| ];
      cbn [step] in Hstep.
    + destruct (isPlaying s); [|done]. by injection Hstep as <-.
    + by injection Hstep as <-.
    + by injection Hstep as <-.
    + by injection Hstep as <-.
    + by injection Hstep as <-.
    + destruct (bool_decide _); [|done]. by injection Hstep as <-.
    + by injection Hstep as <-.
    + destruct (isDragging s); injection Hstep as <-; [|done].
      cbn [splitRatio].
      destruct (decide (newRatio clientX innerWidth = S754_nan)) as [E|E].
      * right. rewrite E. by vm_compute.
      * left. by apply clampRatio_ok.
    + by injection Hstep as <-.
Qed.

Lemma split_ratio_clamped_witness :
  let acts := [MouseDown; MouseMove (ofZ 900) (ofZ 1000); MouseUp] in
  let s' := default initial (run threePhotos acts initial) in
  (ratioOk (splitRatio s') ∨ splitRatio s' = S754_nan)
  ∧ (∀ ratio, ratio ≠ S754_nan → ratioOk (clampRatio ratio))
  ∧ clampRatio (newRatio (ofZ 0) (ofZ 0)) = S754_nan.
Proof.
  intros acts s'.
  apply (split_ratio_clamped threePhotos acts s').
  vm_compute. reflexivity.
Defined.

End SlideshowFacts.

(** ** The audio panel *)

Section AudioPanelFacts.
Import Gateway GatewayCalls AudioPanel.

(** X26: composing a track never fails and adds at most one track. For
    every answer of the world [handleComposeAiTrack] returns; it leaves the
    list of tracks as it is, or puts one track on top of it, marked as
    generated, named after the preset of the active tab ("Epic Echoes (AI)"
    for Cinematic, "Rhythm Burst (AI)" for Upbeat, "Gentle Breeze (AI)"
    otherwise) and pointing to a WAV blob; the tracks that were there keep
    their order. After the panel is closed, and without a credential, the
    list is not changed. *)
Theorem handleComposeAiTrack_result (key : string) (W : World)
    (activeTab : string) (mounted : bool) (log : list Event) :
  ∃ f evs,
    handleComposeAiTrack key W activeTab mounted log = (Ok f, log ++ evs)
    ∧ composed W activeTab f
    ∧ (mounted = false ∨ key = "" → ∀ prev, f prev = prev)
    ∧ (key = "" → evs = []).
Proof.
  destruct (sat_returns _ _ _ log (generateAiTrack_sat W key activeTab))
    as (r & evs & Hrun & _ & Hr).
  unfold handleComposeAiTrack, tryCatch, bind. rewrite Hrun.
  assert (key = "" → r = None ∧ evs = []) as Hkey.
  { intros ->. cbn in Hrun. injection Hrun as <- Hlog.
    split; [done|]. symmetry. apply (app_inv_head log).
    by rewrite app_nil_r. }
  destruct r as [[u n]|].
  - destruct (Hr u n eq_refl) as [Hwav ->].
    destruct mounted; cbn.
    + eexists _, evs. split; [done|]. split.
      { right. by exists u. }
      split; [|by intros H; apply Hkey in H as [_ ->]].
      intros [H|H]; [done|]. by apply Hkey in H as [? _].
    + eexists _, evs. split; [done|]. split; [by left|].
      split; [done|]. by intros H; apply Hkey in H as [_ ->].
  - destruct mounted; cbn; eexists _, evs; (split; [done|]);
      (split; [by left|]); (split; [done|]);
      by intros H; apply Hkey in H as [_ ->].
Qed.

End AudioPanelFacts.
